(** * C2pp: the C to C++ translator of [c_cpp.py], embedded in Rocq

    The translator is a Python class, [CToCppTranslator], whose methods
    read and update the fields of [self] and work on text with the
    standard [re] module and the methods of [str].  The embedding has
    three layers:

    - [Py]: the methods of [str] the program calls ([replace], [find],
      [strip], [split], [join], slices, ...);
    - [Re]: a backtracking matcher for the fragment of [re] the program
      uses, with a parser for the pattern syntax, so that every pattern
      below is the pattern string of the source, character by character;
    - [C2pp]: the translator itself, one definition per method, in a
      state-and-exception monad over the fields of [self].

    Conventions of the model:

    - a text is a [string] whose characters are the code points 0..255;
      the character classes ([\s], [\w], [\d], [isspace], [isdigit]) are
      those of CPython on that range;
    - a Python set is a [gset]; a loop over a set visits [elements] of it.
      Python leaves that order open, and no property below depends on it;
    - a dict is an association list in insertion order;
    - the exceptions the program can raise come out of [re.sub], whose
      replacement templates are read as CPython 3.11 reads them, and out
      of [l[-1]] on an empty list. *)

From Stdlib Require Import Ascii String List Arith NArith Lia.
From stdpp Require Import gmap strings list.

Local Open Scope N_scope.

(** ** Characters

    A character is a code point in 0..255.  The classes are those of
    CPython for [str] patterns and [str] methods on that range. *)

Module Chr.

Definition code (c : ascii) : N := N_of_ascii c.

Definition between (lo hi : N) (c : ascii) : bool :=
  (lo <=? code c) && (code c <=? hi).

Definition has_code (n : N) (c : ascii) : bool := code c =? n.

(** The double quote, which a string literal cannot hold. *)
Definition dquote : ascii := ascii_of_N 34.
Definition newline : ascii := ascii_of_N 10.
Definition backslash : ascii := ascii_of_N 92.

(** [str.isspace], also the class [\s]. *)
Definition isspace (c : ascii) : bool :=
  between 9 13 c || between 28 32 c || has_code 133 c || has_code 160 c.

(** The class [\d]: decimal digits. *)
Definition isdecimal (c : ascii) : bool := between 48 57 c.

(** [str.isdigit] on one character: the decimal digits and the
    superscripts two, three and one. *)
Definition isdigit (c : ascii) : bool :=
  isdecimal c || between 178 179 c || has_code 185 c.

(** The class [\w]: alphanumeric code points and the underscore. *)
Definition isword (c : ascii) : bool :=
  isdecimal c || between 65 90 c || has_code 95 c || between 97 122 c
  || has_code 170 c || between 178 179 c || has_code 181 c || between 185 186 c
  || between 188 190 c || between 192 214 c || between 216 246 c
  || between 248 255 c.

Definition isoctal (c : ascii) : bool := between 48 55 c.

Definition isasciiletter (c : ascii) : bool :=
  between 65 90 c || between 97 122 c.

(** Case folding as [re.IGNORECASE] needs it below 256 for patterns made
    of ASCII letters: only A..Z and a..z are paired. *)
Definition lower (c : ascii) : ascii :=
  if between 65 90 c then ascii_of_N (code c + 32) else c.

Definition eqb (a b : ascii) : bool := code a =? code b.

Definition digit_value (c : ascii) : nat := N.to_nat (code c - 48).

End Chr.

Local Close Scope N_scope.

(** ** The methods of [str]

    Each function is the method of the same name; the receiver comes
    first.  [None] stands for the result -1 of [find]. *)

Module Py.

Definition len (s : string) : nat := String.length s.

(** [s.startswith(p)] *)
Fixpoint startswith (s p : string) : bool :=
  match p, s with
  | EmptyString, _ => true
  | String a p', String b s' => Ascii.eqb a b && startswith s' p'
  | String _ _, EmptyString => false
  end.

(** [s[n:]] and [s[:n]] for [n >= 0] *)
Fixpoint drop (n : nat) (s : string) : string :=
  match n, s with
  | O, _ => s
  | S k, String _ t => drop k t
  | S _, EmptyString => EmptyString
  end.

Fixpoint take (n : nat) (s : string) : string :=
  match n, s with
  | O, _ => EmptyString
  | S k, String c t => String c (take k t)
  | S _, EmptyString => EmptyString
  end.

(** [s[a:b]] for [0 <= a] and [0 <= b] *)
Definition slice (s : string) (a b : nat) : string := take (b - a) (drop a s).

(** [s[:-n]] for [n > 0] *)
Definition drop_last (n : nat) (s : string) : string := take (len s - n) s.

(** [s.endswith(p)] *)
Definition endswith (s p : string) : bool :=
  (len p <=? len s) && startswith (drop (len s - len p) s) p.

(** The first index at or after [i] where [sub] starts in the text whose
    suffix from [i] is [s]. *)
Fixpoint find_at (sub s : string) (i : nat) : option nat :=
  if startswith s sub then Some i
  else match s with
       | EmptyString => None
       | String _ t => find_at sub t (S i)
       end.

(** [s.find(sub, start)] *)
Definition find (s sub : string) (start : nat) : option nat :=
  if start <=? len s then find_at sub (drop start s) start else None.

(** [sub in s] *)
Definition contains (sub s : string) : bool :=
  match find_at sub s 0 with Some _ => true | None => false end.

(** [s.replace(old, new)]: every occurrence, left to right, without
    overlap.  [skip] counts the characters of an occurrence still to be
    passed over. *)
Fixpoint replace_from (old new : string) (skip : nat) (s : string) : string :=
  match s with
  | EmptyString => EmptyString
  | String c t =>
    match skip with
    | S k => replace_from old new k t
    | O =>
      if startswith s old
      then new +:+ replace_from old new (len old - 1) t
      else String c (replace_from old new 0 t)
    end
  end.

Fixpoint intersperse (new s : string) : string :=
  match s with
  | EmptyString => new
  | String c t => new +:+ String c (intersperse new t)
  end.

Definition replace (s old new : string) : string :=
  match old with
  | EmptyString => intersperse new s
  | String _ _ => replace_from old new 0 s
  end.

Fixpoint lstrip (s : string) : string :=
  match s with
  | String c t => if Chr.isspace c then lstrip t else s
  | EmptyString => EmptyString
  end.

Fixpoint rstrip (s : string) : string :=
  match s with
  | EmptyString => EmptyString
  | String c t =>
    match rstrip t with
    | EmptyString => if Chr.isspace c then EmptyString else String c EmptyString
    | r => String c r
    end
  end.

(** [s.strip()] *)
Definition strip (s : string) : string := rstrip (lstrip s).

(** [s.split(sep)] for a separator that is not empty. *)
Fixpoint split_from (sep : string) (skip : nat) (s : string) : list string :=
  match s with
  | EmptyString => [EmptyString]
  | String c t =>
    match skip with
    | S k => split_from sep k t
    | O =>
      if startswith s sep
      then EmptyString :: split_from sep (len sep - 1) t
      else match split_from sep 0 t with
           | h :: r => String c h :: r
           | [] => [String c EmptyString]
           end
    end
  end.

Definition split (s sep : string) : list string := split_from sep 0 s.

(** [s.split()]: the runs of characters that are not white space.
    [cur] is the current run, reversed. *)
Fixpoint split_ws_go (cur : string) (s : string) : list string :=
  match s with
  | EmptyString =>
    match cur with EmptyString => [] | _ => [String.rev cur] end
  | String c t =>
    if Chr.isspace c
    then match cur with
         | EmptyString => split_ws_go EmptyString t
         | _ => String.rev cur :: split_ws_go EmptyString t
         end
    else split_ws_go (String c cur) t
  end.

Definition split_ws (s : string) : list string := split_ws_go EmptyString s.

Fixpoint all_chars (p : ascii -> bool) (s : string) : bool :=
  match s with
  | EmptyString => true
  | String c t => p c && all_chars p t
  end.

(** [s.isdigit()] *)
Definition isdigit (s : string) : bool :=
  match s with
  | EmptyString => false
  | String _ _ => all_chars Chr.isdigit s
  end.

(** [sep.join(l)] *)
Fixpoint join (sep : string) (l : list string) : string :=
  match l with
  | [] => EmptyString
  | [x] => x
  | x :: r => x +:+ sep +:+ join sep r
  end.

Definition str1 (c : ascii) : string := String c EmptyString.

(** One-character strings that a literal cannot spell. *)
Definition dq : string := str1 Chr.dquote.
Definition nl : string := str1 Chr.newline.
Definition bs : string := str1 Chr.backslash.

End Py.

(** ** Exceptions

    The two exceptions the program can raise: both out of [re.sub] when
    the replacement text holds a backslash, [IndexError] also out of an
    index into an empty list.  Then the result of a computation that may
    raise. *)

Inductive exn : Type :=
| re_error
| IndexError.

Inductive result (A : Type) : Type :=
| Ok (a : A)
| Raise (e : exn).

Arguments Ok {A} a.
Arguments Raise {A} e.

Global Instance exn_eq_dec : EqDecision exn.
Proof. solve_decision. Defined.

Global Instance result_eq_dec {A : Type} `{EqDecision A} : EqDecision (result A).
Proof. solve_decision. Defined.

Definition result_bind {A B : Type} (r : result A) (f : A -> result B) : result B :=
  match r with
  | Ok a => f a
  | Raise e => Raise e
  end.

Definition result_map {A B : Type} (f : A -> B) (r : result A) : result B :=
  result_bind r (fun a => Ok (f a)).

(** ** The fragment of [re]

    *** Patterns *)

Module Re.

(** A member of a bracketed class. *)
Inductive item : Type :=
| IChar (c : ascii)
| IRange (lo hi : ascii)
| ISpace
| IWord
| IDigit.

(** Abstract syntax of the patterns.  [greedy = false] is the lazy form
    of a quantifier ([*?]).  A group without capture, [(?:...)], leaves no
    node. *)
Inductive regex : Type :=
| Empty
| Lit (c : ascii)
| Dot
| Class (negated : bool) (items : list item)
| Boundary
| Seq (a b : regex)
| Alt (a b : regex)
| Star (greedy : bool) (a : regex)
| Plus (greedy : bool) (a : regex)
| Quest (greedy : bool) (a : regex)
| Group (n : nat) (a : regex).

Definition mk_seq (a b : regex) : regex :=
  match b with
  | Empty => a
  | _ => Seq a b
  end.

(** *** The pattern parser

    It reads the syntax the program's patterns are written in: literals,
    [.], the escapes [\s \w \d \b] and escaped punctuation, bracketed
    classes with ranges and negation, groups with and without capture,
    alternation and the quantifiers [* + ?] with their lazy forms.  An
    opening brace that starts no counted repetition is a literal, as in
    [re].  Anything else is refused with [None]. *)

Definition escape_atom (c : ascii) : option regex :=
  if Ascii.eqb c "s" then Some (Class false [ISpace])
  else if Ascii.eqb c "w" then Some (Class false [IWord])
  else if Ascii.eqb c "d" then Some (Class false [IDigit])
  else if Ascii.eqb c "b" then Some Boundary
  else if Chr.isasciiletter c || Chr.isdecimal c then None
  else Some (Lit c).

Definition escape_item (c : ascii) : option item :=
  if Ascii.eqb c "s" then Some ISpace
  else if Ascii.eqb c "w" then Some IWord
  else if Ascii.eqb c "d" then Some IDigit
  else if Chr.isasciiletter c || Chr.isdecimal c then None
  else Some (IChar c).

(** The members of a class, up to the closing bracket. *)
Fixpoint parse_items (s : string) : option (list item * string) :=
  match s with
  | EmptyString => None
  | String "]" t => Some ([], t)
  | String "\" (String c t) =>
    match escape_item c, parse_items t with
    | Some i, Some (l, r) => Some (i :: l, r)
    | _, _ => None
    end
  | String "\" EmptyString => None
  | String lo (String "-" (String hi t)) =>
    if Ascii.eqb hi "]" then
      Some ([IChar lo; IChar "-"], t)
    else if Ascii.eqb hi "\" then None
    else match parse_items t with
         | Some (l, r) => Some (IRange lo hi :: l, r)
         | None => None
         end
  | String c t =>
    match parse_items t with
    | Some (l, r) => Some (IChar c :: l, r)
    | None => None
    end
  end.

Definition parse_class (s : string) : option (regex * string) :=
  match s with
  | String "^" (String "]" _) => None
  | String "]" _ => None
  | String "^" t =>
    match parse_items t with
    | Some (l, r) => Some (Class true l, r)
    | None => None
    end
  | _ =>
    match parse_items s with
    | Some (l, r) => Some (Class false l, r)
    | None => None
    end
  end.

(** A quantifier after the atom [a], if one is there. *)
Definition parse_quantifier (a : regex) (s : string) : regex * string :=
  match s with
  | String "*" (String "?" t) => (Star false a, t)
  | String "*" t => (Star true a, t)
  | String "+" (String "?" t) => (Plus false a, t)
  | String "+" t => (Plus true a, t)
  | String "?" (String "?" t) => (Quest false a, t)
  | String "?" t => (Quest true a, t)
  | _ => (a, s)
  end.

Definition starts_counted_repeat (t : string) : bool :=
  match t with
  | String c _ => Chr.isdecimal c || Ascii.eqb c ","
  | EmptyString => false
  end.

(** [n] is the number of the next capturing group. *)
Fixpoint parse_alt (fuel : nat) (s : string) (n : nat)
  : option (regex * string * nat) :=
  match fuel with
  | O => None
  | S f =>
    match parse_seq f s n with
    | Some (a, String "|" t, n1) =>
      match parse_alt f t n1 with
      | Some (b, r, n2) => Some (Alt a b, r, n2)
      | None => None
      end
    | other => other
    end
  end
with parse_seq (fuel : nat) (s : string) (n : nat)
  : option (regex * string * nat) :=
  match fuel with
  | O => None
  | S f =>
    match s with
    | EmptyString => Some (Empty, s, n)
    | String ")" _ => Some (Empty, s, n)
    | String "|" _ => Some (Empty, s, n)
    | _ =>
      match parse_atom f s n with
      | Some (a, t, n1) =>
        let (aq, t1) := parse_quantifier a t in
        match parse_seq f t1 n1 with
        | Some (b, r, n2) => Some (mk_seq aq b, r, n2)
        | None => None
        end
      | None => None
      end
    end
  end
with parse_atom (fuel : nat) (s : string) (n : nat)
  : option (regex * string * nat) :=
  match fuel with
  | O => None
  | S f =>
    match s with
    | EmptyString => None
    | String "(" (String "?" (String ":" t)) =>
      match parse_alt f t n with
      | Some (a, String ")" r, n1) => Some (a, r, n1)
      | _ => None
      end
    | String "(" (String "?" _) => None
    | String "(" t =>
      match parse_alt f t (S n) with
      | Some (a, String ")" r, n1) => Some (Group n a, r, n1)
      | _ => None
      end
    | String "[" t =>
      match parse_class t with
      | Some (a, r) => Some (a, r, n)
      | None => None
      end
    | String "\" (String c t) =>
      match escape_atom c with
      | Some a => Some (a, t, n)
      | None => None
      end
    | String "." t => Some (Dot, t, n)
    | String "{" t =>
      if starts_counted_repeat t then None else Some (Lit "{", t, n)
    | String c t =>
      if existsb (Ascii.eqb c) ["*"; "+"; "?"; ")"; "|"; "^"; "$"; "\"]%char
      then None
      else Some (Lit c, t, n)
    end
  end.

Definition parse (p : string) : option regex :=
  match parse_alt (3 * Py.len p + 3) p 1 with
  | Some (r, EmptyString, _) => Some r
  | _ => None
  end.

(** A pattern that matches nothing stands for a pattern the parser
    refuses; every fixed pattern of the program parses ([patterns_parse]
    below). *)
Definition never : regex := Class false [].

Definition compile (p : string) : regex :=
  match parse p with
  | Some r => r
  | None => never
  end.

(** [Pattern.groups]: the number of capturing groups. *)
Fixpoint groups (r : regex) : nat :=
  match r with
  | Seq a b | Alt a b => groups a + groups b
  | Star _ a | Plus _ a | Quest _ a => groups a
  | Group _ a => S (groups a)
  | _ => O
  end.

(** *** The matcher

    A backtracking matcher in continuation-passing style, with the
    choices of [re]: alternatives left to right, a greedy quantifier
    tries one more iteration before it tries the rest of the pattern, a
    lazy one the other way round, and the first success is the match. *)

(** The scan state: the offset [pos] in the subject, the text from there,
    the character before it (for [\b]) and the spans of the groups closed
    so far, most recent first. *)
Record mstate : Type := MState {
  pos : nat;
  rest : string;
  prev : option ascii;
  caps : list (nat * (nat * nat))
}.

Definition item_has (i : item) (c : ascii) : bool :=
  match i with
  | IChar x => Ascii.eqb x c
  | IRange lo hi => Chr.between (Chr.code lo) (Chr.code hi) c
  | ISpace => Chr.isspace c
  | IWord => Chr.isword c
  | IDigit => Chr.isdecimal c
  end.

(** With [re.IGNORECASE] ([ic]) a literal matches both cases of a
    letter.  The flag is not carried into classes: the patterns the
    program searches with it have none. *)
Definition lit_matches (ic : bool) (x c : ascii) : bool :=
  if ic then Ascii.eqb (Chr.lower x) (Chr.lower c) else Ascii.eqb x c.

Definition class_matches (negated : bool) (items : list item) (c : ascii) : bool :=
  xorb negated (existsb (fun i => item_has i c) items).

Definition step (p : ascii -> bool) (k : mstate -> option mstate) (s : mstate)
  : option mstate :=
  match rest s with
  | String c t =>
    if p c then k (MState (S (pos s)) t (Some c) (caps s)) else None
  | EmptyString => None
  end.

Definition word_before (s : mstate) : bool :=
  match prev s with Some c => Chr.isword c | None => false end.

Definition word_after (s : mstate) : bool :=
  match rest s with String c _ => Chr.isword c | EmptyString => false end.

(** The iterations of a quantifier whose body is [body]; an iteration
    that consumes nothing is not taken (no quantified part of a pattern
    of the program can match the empty text).  Every iteration taken
    consumes a character, so [fuel], one more than the characters left,
    is never used up ([star_fuel_adequate] below). *)
Fixpoint iterate (body : (mstate -> option mstate) -> mstate -> option mstate)
    (greedy : bool) (k : mstate -> option mstate) (fuel : nat) (s : mstate)
  : option mstate :=
  match fuel with
  | O => k s
  | S f =>
    let again s' :=
      if pos s <? pos s' then iterate body greedy k f s' else None in
    if greedy then
      match body again s with
      | Some m => Some m
      | None => k s
      end
    else
      match k s with
      | Some m => Some m
      | None => body again s
      end
  end.

Fixpoint run (ic : bool) (r : regex) (k : mstate -> option mstate) (s : mstate)
  : option mstate :=
  match r with
  | Empty => k s
  | Lit x => step (lit_matches ic x) k s
  | Dot => step (fun c => negb (Ascii.eqb c Chr.newline)) k s
  | Class negated items => step (class_matches negated items) k s
  | Boundary => if xorb (word_before s) (word_after s) then k s else None
  | Seq a b => run ic a (run ic b k) s
  | Alt a b =>
    match run ic a k s with
    | Some m => Some m
    | None => run ic b k s
    end
  | Star greedy a => iterate (run ic a) greedy k (S (Py.len (rest s))) s
  | Plus greedy a =>
    run ic a (fun s' => iterate (run ic a) greedy k (S (Py.len (rest s'))) s') s
  | Quest greedy a =>
    if greedy then
      match run ic a k s with
      | Some m => Some m
      | None => k s
      end
    else
      match k s with
      | Some m => Some m
      | None => run ic a k s
      end
  | Group n a =>
    run ic a (fun s' => k (MState (pos s') (rest s') (prev s')
                                  ((n, (pos s, pos s')) :: caps s'))) s
  end.

(** *** Match objects *)

Record mobj : Type := MObj {
  m_start : nat;
  m_end : nat;
  m_caps : list (nat * (nat * nat))
}.

Fixpoint span_of (n : nat) (l : list (nat * (nat * nat))) : option (nat * nat) :=
  match l with
  | [] => None
  | (i, sp) :: r => if Nat.eqb i n then Some sp else span_of n r
  end.

(** [m.group(n)] for [n >= 1]; [None] is Python's [None], for a group
    that took no part in the match. *)
Definition group (subject : string) (m : mobj) (n : nat) : option string :=
  match span_of n (m_caps m) with
  | Some (a, b) => Some (Py.slice subject a b)
  | None => None
  end.

(** [m.group(0)] *)
Definition group0 (subject : string) (m : mobj) : string :=
  Py.slice subject (m_start m) (m_end m).

(** [m.groups()] *)
Definition mgroups (r : regex) (subject : string) (m : mobj) : list (option string) :=
  map (group subject m) (List.seq 1 (groups r)).

(** [re.match]: a match that starts at the state [s]. *)
Definition match_at (ic : bool) (r : regex) (s : mstate) : option mobj :=
  match run ic r Some s with
  | Some e => Some (MObj (pos s) (pos e) (caps e))
  | None => None
  end.

(** The leftmost match that starts at offset [p] or later; [t] is the
    subject from [p] and [pv] the character before. *)
Fixpoint search_go (ic : bool) (r : regex) (p : nat) (pv : option ascii)
    (t : string) : option mobj :=
  match match_at ic r (MState p t pv []) with
  | Some m => Some m
  | None =>
    match t with
    | EmptyString => None
    | String c t' => search_go ic r (S p) (Some c) t'
    end
  end.

Definition char_at (s : string) (i : nat) : option ascii := String.get i s.

Definition search_from (ic : bool) (r : regex) (subject : string) (p : nat)
  : option mobj :=
  search_go ic r p (match p with O => None | S q => char_at subject q end)
            (Py.drop p subject).

(** [re.search(r, subject)] *)
Definition search (r : regex) (subject : string) : option mobj :=
  search_from false r subject 0.

(** [re.search(r, subject, re.IGNORECASE)] *)
Definition search_ic (r : regex) (subject : string) : option mobj :=
  search_from true r subject 0.

(** [re.match(r, subject)] *)
Definition rmatch (r : regex) (subject : string) : option mobj :=
  match_at false r (MState 0 subject None []).

(** [re.finditer]: the matches from left to right, each search starting
    where the match before ended (one character further after an empty
    match; no pattern of the program matches the empty text).  The fuel,
    one more than the length of the subject, is never used up
    ([finditer_fuel_adequate] below). *)
Fixpoint finditer_go (fuel : nat) (r : regex) (subject : string) (p : nat)
  : list mobj :=
  match fuel with
  | O => []
  | S f =>
    if Py.len subject <? p then []
    else match search_from false r subject p with
         | None => []
         | Some m =>
           m :: finditer_go f r subject
                  (if m_end m =? m_start m then S (m_end m) else m_end m)
         end
  end.

Definition finditer (r : regex) (subject : string) : list mobj :=
  finditer_go (S (Py.len subject)) r subject 0.

Definition or_empty (o : option string) : string :=
  match o with Some s => s | None => EmptyString end.

(** [re.findall]: per match, the text of the groups (the empty string for
    a group that took no part), or the text of the match for a pattern
    without groups. *)
Definition findall (r : regex) (subject : string) : list (list string) :=
  map (fun m =>
         match groups r with
         | O => [group0 subject m]
         | _ => map or_empty (mgroups r subject m)
         end)
      (finditer r subject).

(** [re.split] for a pattern with one capturing group: the pieces between
    the matches, with the text of the group after each piece. *)
Fixpoint split_go (subject : string) (from : nat) (ms : list mobj) : list string :=
  match ms with
  | [] => [Py.drop from subject]
  | m :: r =>
    Py.slice subject from (m_start m)
      :: or_empty (group subject m 1)
      :: split_go subject (m_end m) r
  end.

Definition split (r : regex) (subject : string) : list string :=
  split_go subject 0 (finditer r subject).

(** *** Replacement templates

    [re.sub] takes a replacement without backslash as it is and parses
    any other as a template (CPython 3.11, [parse_template]): escapes of
    control characters, octal escapes, references to groups by number, and
    [\g<...>] references.  A malformed template raises before any match
    is looked for. *)

Inductive tpart : Type :=
| TChar (c : ascii)
| TRef (n : nat).

(** [str.isidentifier] *)
Definition id_start (c : ascii) : bool :=
  Chr.isasciiletter c || Chr.has_code 95 c || Chr.has_code 170 c
  || Chr.has_code 181 c || Chr.has_code 186 c || Chr.between 192 214 c
  || Chr.between 216 246 c || Chr.between 248 255 c.

Definition id_continue (c : ascii) : bool :=
  id_start c || Chr.isdecimal c || Chr.has_code 183 c.

Definition isidentifier (s : string) : bool :=
  match s with
  | EmptyString => false
  | String c t => id_start c && Py.all_chars id_continue t
  end.

(** Decimal digits with single underscores between them, as [int]
    reads them; [acc] is the value so far and [after_digit] tells whether
    the character before was a digit. *)
Fixpoint digits_value (acc : nat) (after_digit : bool) (s : string) : option nat :=
  match s with
  | EmptyString => if after_digit then Some acc else None
  | String c t =>
    if Chr.isdecimal c then digits_value (10 * acc + Chr.digit_value c) true t
    else if Ascii.eqb c "_" && after_digit then digits_value acc false t
    else None
  end.

(** [int(s)]: the sign (true for minus) and the magnitude; [None] is
    [ValueError]. *)
Definition parse_int (s : string) : option (bool * nat) :=
  match Py.strip s with
  | String "-" t => option_map (pair true) (digits_value 0 false t)
  | String "+" t => option_map (pair false) (digits_value 0 false t)
  | t => option_map (pair false) (digits_value 0 false t)
  end.

(** [Tokenizer.getuntil]: the text before the terminator and the text
    after it. *)
Fixpoint getuntil (term : ascii) (s : string) : option (string * string) :=
  match s with
  | EmptyString => None
  | String c t =>
    if Ascii.eqb c term then Some (EmptyString, t)
    else match getuntil term t with
         | Some (a, b) => Some (String c a, b)
         | None => None
         end
  end.

Definition control_escape (c : ascii) : option ascii :=
  if Ascii.eqb c "a" then Some (ascii_of_nat 7)
  else if Ascii.eqb c "b" then Some (ascii_of_nat 8)
  else if Ascii.eqb c "f" then Some (ascii_of_nat 12)
  else if Ascii.eqb c "n" then Some (ascii_of_nat 10)
  else if Ascii.eqb c "r" then Some (ascii_of_nat 13)
  else if Ascii.eqb c "t" then Some (ascii_of_nat 9)
  else if Ascii.eqb c "v" then Some (ascii_of_nat 11)
  else if Ascii.eqb c Chr.backslash then Some Chr.backslash
  else None.

Definition add_group (ng index : nat) (k : result (list tpart))
  : result (list tpart) :=
  if ng <? index then Raise re_error
  else result_map (cons (TRef index)) k.

Definition add_char (c : ascii) (k : result (list tpart)) : result (list tpart) :=
  result_map (cons (TChar c)) k.

(** [ng] is the number of groups of the pattern.  Every round consumes a
    character of the template, so the fuel, one more than its length, is
    never used up. *)
Fixpoint parse_template (fuel : nat) (ng : nat) (s : string)
  : result (list tpart) :=
  match fuel with
  | O => Ok []
  | S f =>
    match s with
    | EmptyString => Ok []
    | String c t =>
      if negb (Ascii.eqb c Chr.backslash) then add_char c (parse_template f ng t)
      else
        match t with
        | EmptyString => Raise re_error
        | String "g" (String "<" t1) =>
          match getuntil ">" t1 with
          | None => Raise re_error
          | Some (EmptyString, _) => Raise re_error
          | Some (name, t2) =>
            if isidentifier name then Raise IndexError
            else match parse_int name with
                 | None => Raise re_error
                 | Some (neg, v) =>
                   if neg && (0 <? v) then Raise re_error
                   else add_group ng v (parse_template f ng t2)
                 end
          end
        | String "g" _ => Raise re_error
        | String "0" t1 =>
          match t1 with
          | String d1 (String d2 t3) =>
            if Chr.isoctal d1 && Chr.isoctal d2 then
              add_char (ascii_of_nat (8 * Chr.digit_value d1 + Chr.digit_value d2))
                       (parse_template f ng t3)
            else if Chr.isoctal d1 then
              add_char (ascii_of_nat (Chr.digit_value d1))
                       (parse_template f ng (String d2 t3))
            else add_char (ascii_of_nat 0) (parse_template f ng t1)
          | String d1 EmptyString =>
            if Chr.isoctal d1 then
              add_char (ascii_of_nat (Chr.digit_value d1)) (Ok [])
            else add_char (ascii_of_nat 0) (parse_template f ng t1)
          | EmptyString => add_char (ascii_of_nat 0) (Ok [])
          end
        | String e t1 =>
          if Chr.isdecimal e then
            match t1 with
            | String d1 t2 =>
              if Chr.isdecimal d1 then
                match t2 with
                | String d2 t3 =>
                  if Chr.isoctal e && Chr.isoctal d1 && Chr.isoctal d2 then
                    let v := 64 * Chr.digit_value e + 8 * Chr.digit_value d1
                             + Chr.digit_value d2 in
                    if 255 <? v then Raise re_error
                    else add_char (ascii_of_nat v) (parse_template f ng t3)
                  else add_group ng (10 * Chr.digit_value e + Chr.digit_value d1)
                                 (parse_template f ng t2)
                | EmptyString =>
                  add_group ng (10 * Chr.digit_value e + Chr.digit_value d1) (Ok [])
                end
              else add_group ng (Chr.digit_value e) (parse_template f ng t1)
            | EmptyString => add_group ng (Chr.digit_value e) (Ok [])
            end
          else
            match control_escape e with
            | Some x => add_char x (parse_template f ng t1)
            | None =>
              if Chr.isasciiletter e then Raise re_error
              else add_char Chr.backslash (add_char e (parse_template f ng t1))
            end
        end
    end
  end.

Definition template_of (r : regex) (repl : string) : result (list tpart) :=
  if Py.contains Py.bs repl
  then parse_template (S (Py.len repl)) (groups r) repl
  else Ok (map TChar (list_ascii_of_string repl)).

(** [expand_template]: group 0 is the whole match, a group that took no
    part gives the empty string. *)
Fixpoint expand (parts : list tpart) (subject : string) (m : mobj) : string :=
  match parts with
  | [] => EmptyString
  | TChar c :: r => String c (expand r subject m)
  | TRef O :: r => group0 subject m +:+ expand r subject m
  | TRef n :: r => or_empty (group subject m n) +:+ expand r subject m
  end.

Fixpoint sub_go (parts : list tpart) (subject : string) (from : nat)
    (ms : list mobj) : string :=
  match ms with
  | [] => Py.drop from subject
  | m :: r =>
    Py.slice subject from (m_start m) +:+ expand parts subject m
      +:+ sub_go parts subject (m_end m) r
  end.

(** [re.sub(r, repl, subject, count)]; [count = 0] replaces every
    match. *)
Definition sub (r : regex) (repl subject : string) (count : nat) : result string :=
  result_bind (template_of r repl) (fun parts =>
    let ms := finditer r subject in
    Ok (sub_go parts subject 0
               (match count with O => ms | _ => firstn count ms end))).

(** *** Vocabulary of the properties of the matcher *)

(** The length of the subject, seen from a scan state. *)
Definition total (s : mstate) : nat := pos s + Py.len (rest s).

(** [s'] is a state of the same scan, not before [s]. *)
Definition later (s s' : mstate) : Prop :=
  total s' = total s /\ pos s <= pos s'.

(** A matcher is local when it only asks its continuation about later
    states of the same scan. *)
Definition local (F : (mstate -> option mstate) -> mstate -> option mstate) : Prop :=
  forall k1 k2 s,
    (forall s', later s s' -> k1 s' = k2 s') -> F k1 s = F k2 s.

(** A matcher answers when its result is a result of its continuation
    at a later state. *)
Definition answers (F : (mstate -> option mstate) -> mstate -> option mstate) : Prop :=
  forall k s e, F k s = Some e -> exists s', later s s' /\ k s' = Some e.

End Re.

(** ** The translator *)

Module C2pp.

Import Py.

(** *** The fields of [self]

    [defines], [structs] and [struct_to_functions] are dicts: association
    lists in insertion order, a key assigned again keeps its place.
    [includes], [global_variables] and [malloc_variables] are sets; a loop
    over one visits [elements] of it.  The fields [main_function] and
    [file_scoped_functions] are never read or written after [__init__]
    and are left out. *)

(** The dict that [identify_struct_functions] stores per function. *)
Record func : Type := Func {
  name : string;
  return_type : string;
  param_name : string;
  other_params : string;
  body : string
}.

Record Translator : Type := {
  includes : gset string;
  defines : list (string * string);
  structs : list (string * string);
  struct_to_functions : list (string * list func);
  global_variables : gset (string * string * string);
  malloc_variables : gset string;
  needs_iomanip : bool
}.

Definition indent_str : string := "    ".

(** [__init__] *)
Definition init : Translator := {|
  includes := ∅;
  defines := [];
  structs := [];
  struct_to_functions := [];
  global_variables := ∅;
  malloc_variables := ∅;
  needs_iomanip := false
|}.

Definition set_includes (v : gset string) (t : Translator) : Translator :=
  {| includes := v; defines := defines t; structs := structs t;
     struct_to_functions := struct_to_functions t;
     global_variables := global_variables t;
     malloc_variables := malloc_variables t;
     needs_iomanip := needs_iomanip t |}.

Definition set_defines (v : list (string * string)) (t : Translator) : Translator :=
  {| includes := includes t; defines := v; structs := structs t;
     struct_to_functions := struct_to_functions t;
     global_variables := global_variables t;
     malloc_variables := malloc_variables t;
     needs_iomanip := needs_iomanip t |}.

Definition set_structs (v : list (string * string)) (t : Translator) : Translator :=
  {| includes := includes t; defines := defines t; structs := v;
     struct_to_functions := struct_to_functions t;
     global_variables := global_variables t;
     malloc_variables := malloc_variables t;
     needs_iomanip := needs_iomanip t |}.

Definition set_struct_to_functions (v : list (string * list func))
    (t : Translator) : Translator :=
  {| includes := includes t; defines := defines t; structs := structs t;
     struct_to_functions := v;
     global_variables := global_variables t;
     malloc_variables := malloc_variables t;
     needs_iomanip := needs_iomanip t |}.

Definition set_global_variables (v : gset (string * string * string))
    (t : Translator) : Translator :=
  {| includes := includes t; defines := defines t; structs := structs t;
     struct_to_functions := struct_to_functions t;
     global_variables := v;
     malloc_variables := malloc_variables t;
     needs_iomanip := needs_iomanip t |}.

Definition set_malloc_variables (v : gset string) (t : Translator) : Translator :=
  {| includes := includes t; defines := defines t; structs := structs t;
     struct_to_functions := struct_to_functions t;
     global_variables := global_variables t;
     malloc_variables := v;
     needs_iomanip := needs_iomanip t |}.

Definition set_needs_iomanip (v : bool) (t : Translator) : Translator :=
  {| includes := includes t; defines := defines t; structs := structs t;
     struct_to_functions := struct_to_functions t;
     global_variables := global_variables t;
     malloc_variables := malloc_variables t;
     needs_iomanip := v |}.

(** *** Dicts *)

Section Dict.
Context {V : Type}.

(** [d[k] = v] *)
Fixpoint dict_set (k : string) (v : V) (d : list (string * V)) : list (string * V) :=
  match d with
  | [] => [(k, v)]
  | (k', v') :: r =>
    if String.eqb k' k then (k', v) :: r else (k', v') :: dict_set k v r
  end.

(** [d.get(k)] *)
Fixpoint dict_get (k : string) (d : list (string * V)) : option V :=
  match d with
  | [] => None
  | (k', v') :: r => if String.eqb k' k then Some v' else dict_get k r
  end.

(** [k in d] *)
Definition dict_has (k : string) (d : list (string * V)) : bool :=
  match dict_get k d with Some _ => true | None => false end.

End Dict.

(** The n-th group of one result of [findall]. *)
Definition g (n : nat) (l : list string) : string := nth n l EmptyString.

(** *** Source catalog *)

Definition include_pattern : Re.regex := Re.compile "#include\s+<([^>]+)>".
Definition precision_pattern : Re.regex := Re.compile "%\.[0-9]+[fg]".

(** [identify_includes] *)
Definition identify_includes (c_code : string) (self : Translator) : Translator :=
  let self := set_includes
                (list_to_set (map (g 0) (Re.findall include_pattern c_code))) self in
  match Re.search precision_pattern c_code with
  | Some _ => set_needs_iomanip true self
  | None => self
  end.

Definition define_pattern : Re.regex := Re.compile "#define\s+(\w+)\s+(.+)".

(** [identify_defines] *)
Definition identify_defines (c_code : string) (self : Translator) : Translator :=
  fold_left
    (fun self m => set_defines (dict_set (g 0 m) (strip (g 1 m)) (defines self)) self)
    (Re.findall define_pattern c_code) self.

Definition main_count_pattern : Re.regex := Re.compile "int\s+main\s*\(".
Definition other_funcs_pattern : Re.regex :=
  Re.compile "(\w+)\s+(\w+)\s*\([^)]*\)\s*{".

Definition simple_patterns : list string :=
  [ "isPrime"; "printf.*scanf"; "compoundInterest"; "fibonacci";
    "factorial"; "triangle|square|circle"; "celsius|fahrenheit"; "ASCII" ].

(** [_is_simple_program] *)
Definition _is_simple_program (c_code : string) : bool :=
  let main_count := length (Re.findall main_count_pattern c_code) in
  if negb (main_count =? 1) then false
  else
    let other_funcs := Re.findall other_funcs_pattern c_code in
    let other_func_count :=
      length (List.filter (fun f => negb (String.eqb (g 1 f) "main")) other_funcs) in
    if 0 <? other_func_count then false
    else existsb
           (fun pattern =>
              match Re.search_ic (Re.compile pattern) c_code with
              | Some _ => true
              | None => false
              end)
           simple_patterns.

Definition function_blocks_pattern : Re.regex :=
  Re.compile "(\w+\s+\w+\s*\([^)]*\)\s*{[^{}]*(?:{[^{}]*}[^{}]*)*})".
Definition var_pattern : Re.regex :=
  Re.compile "(const\s+)?(\w+)\s+(\w+)\s*=\s*[^;]+;".

(** [identify_global_variables] *)
Definition identify_global_variables (c_code : string) (self : Translator)
  : Translator :=
  let function_blocks := map (g 0) (Re.findall function_blocks_pattern c_code) in
  let remaining_code :=
    fold_left (fun rem block => replace rem block EmptyString)
              function_blocks c_code in
  set_global_variables
    (list_to_set (map (fun m => (g 0 m, g 1 m, g 2 m))
                      (Re.findall var_pattern remaining_code)))
    self.

Definition struct_pattern : Re.regex := Re.compile "struct\s+(\w+)\s*{([^}]*)}".

(** [identify_structs] *)
Definition identify_structs (c_code : string) (self : Translator) : Translator :=
  fold_left
    (fun self m =>
       let struct_name := g 0 m in
       let struct_body := g 1 m in
       set_struct_to_functions
         (dict_set struct_name [] (struct_to_functions self))
         (set_structs (dict_set struct_name (strip struct_body) (structs self)) self))
    (Re.findall struct_pattern c_code) self.

(** The pattern of [identify_struct_functions], an f-string around the
    name of the struct.  The name was matched by [\w+]: it is a run of
    word characters, which the pattern syntax reads as literals. *)
Definition function_pattern (struct_name : string) : Re.regex :=
  Re.compile ("(\w+)\s+(\w+)\s*\(\s*struct\s+" +:+ struct_name
              +:+ "\s*\*\s*(\w+)([^)]*)\)\s*{([^}]*)}").

(** [self.struct_to_functions[struct_name].append(f)]; the key is there,
    [identify_structs] put it. *)
Definition append_function (struct_name : string) (f : func)
    (d : list (string * list func)) : list (string * list func) :=
  match dict_get struct_name d with
  | Some l => dict_set struct_name (l ++ [f]) d
  | None => d
  end.

(** [identify_struct_functions] *)
Definition identify_struct_functions (c_code : string) (self : Translator)
  : Translator :=
  fold_left
    (fun self struct_name =>
       fold_left
         (fun self m =>
            set_struct_to_functions
              (append_function struct_name
                 {| name := g 1 m; return_type := g 0 m; param_name := g 2 m;
                    other_params := g 3 m; body := g 4 m |}
                 (struct_to_functions self))
              self)
         (Re.findall (function_pattern struct_name) c_code) self)
    (map fst (structs self)) self.

(** *** Constant emitter *)

(** The line for one entry of [defines]: the chain of tests in
    [_translate_defines]. *)
Definition define_line (name value : string) : string :=
  if startswith value dq && endswith value dq then
    "const string " +:+ name +:+ " = " +:+ value +:+ ";"
  else if contains "." value then
    "const double " +:+ name +:+ " = " +:+ value +:+ ";"
  else if isdigit value then
    "const int " +:+ name +:+ " = " +:+ value +:+ ";"
  else
    "const auto " +:+ name +:+ " = " +:+ value +:+ ";".

(** [_translate_defines] *)
Definition _translate_defines (self : Translator) : list string :=
  match defines self with
  | [] => []
  | d => "// Constants (converted from #define)"
           :: map (fun nv => define_line (fst nv) (snd nv)) d
  end.

(** *** Header mapper *)

Definition c_to_cpp_headers : list (string * string) :=
  [ ("stdio.h", "iostream"); ("stdlib.h", "cstdlib"); ("string.h", "string");
    ("math.h", "cmath"); ("time.h", "ctime"); ("assert.h", "cassert");
    ("ctype.h", "cctype"); ("float.h", "cfloat"); ("limits.h", "climits");
    ("locale.h", "clocale"); ("signal.h", "csignal"); ("stdarg.h", "cstdarg");
    ("stdbool.h", "cstdbool"); ("stddef.h", "cstddef"); ("stdint.h", "cstdint") ].

Definition include_line (header : string) : string :=
  "#include <" +:+ header +:+ ">".

(** The body of the loop over [self.includes]. *)
Definition include_lines (include : string) : list string :=
  if String.eqb include "functional" then []
  else match dict_get include c_to_cpp_headers with
       | Some cpp => [include_line cpp]
       | None => [include_line include]
       end.

(** [_translate_includes] *)
Definition _translate_includes (self : Translator) : list string :=
  ["// C++ style includes"]
    ++ (if needs_iomanip self then ["#include <iomanip>"] else [])
    ++ (if bool_decide ("functional" ∈ includes self)
        then ["#include <functional>"] else [])
    ++ ["#include <algorithm>"]
    ++ concat (map include_lines (elements (includes self))).

(** *** Global variables *)

(** [_translate_global_variables] *)
Definition _translate_global_variables (self : Translator) : list string :=
  match elements (global_variables self) with
  | [] => []
  | vars =>
    "// Global variables"
      :: map (fun var =>
                match var with
                | (const, type_name, var_name) =>
                  const +:+ type_name +:+ " " +:+ var_name +:+ ";"
                end)
             vars
  end.

(** *** Struct-to-class transformer *)

(** The members of the class: one line per field of the struct. *)
Definition field_lines (struct_body : string) : list string :=
  map (fun line => indent_str +:+ strip line +:+ ";")
      (List.filter (fun line => negb (String.eqb (strip line) EmptyString))
              (split struct_body ";")).

(** The functions of a struct; the empty list also when the struct has
    no entry. *)
Definition functions_of (struct_name : string) (self : Translator) : list func :=
  match dict_get struct_name (struct_to_functions self) with
  | Some l => l
  | None => []
  end.

Definition method_declaration (f : func) : string :=
  let params := strip (other_params f) in
  indent_str +:+ return_type f +:+ " " +:+ name f +:+ "(" +:+ params +:+ ");".

(** The body of a method: the two replacements on the name of the
    struct parameter. *)
Definition method_body (f : func) : string :=
  let body := body f in
  let body := replace body (param_name f +:+ ">") "this->" in
  let body := replace body (param_name f +:+ ".") "this." in
  body.

Definition method_implementation (struct_name : string) (f : func) : list string :=
  let params := strip (other_params f) in
  [ return_type f +:+ " " +:+ struct_name +:+ "::" +:+ name f
      +:+ "(" +:+ params +:+ ") {";
    method_body f;
    "}" ].

(** The lines for one struct. *)
Definition class_lines (self : Translator) (struct_name struct_body : string)
  : list string :=
  [ "// Class converted from struct " +:+ struct_name;
    "class " +:+ struct_name +:+ " {";
    "public:" ]
    ++ field_lines struct_body
    ++ [ nl +:+ indent_str +:+ "// Constructor";
         indent_str +:+ struct_name +:+ "() {}" ]
    ++ (match functions_of struct_name self with
        | [] => []
        | fs => (nl +:+ indent_str +:+ "// Methods") :: map method_declaration fs
        end)
    ++ ["};"]
    ++ (match functions_of struct_name self with
        | [] => []
        | fs =>
          (nl +:+ "// Method implementations for class " +:+ struct_name)
            :: concat (map (method_implementation struct_name) fs)
        end).

(** [_translate_structs_to_classes] *)
Definition _translate_structs_to_classes (self : Translator) : list string :=
  concat (map (fun s => class_lines self (fst s) (snd s)) (structs self)).

(** *** The monad of the methods that can raise

    A computation reads and updates the fields of [self] and returns a
    value or raises. *)

Definition M (A : Type) : Type := Translator -> result (A * Translator).

Definition ret {A : Type} (a : A) : M A := fun self => Ok (a, self).

Definition bind {A B : Type} (m : M A) (f : A -> M B) : M B :=
  fun self =>
    match m self with
    | Ok (a, self') => f a self'
    | Raise e => Raise e
    end.

Definition get : M Translator := fun self => Ok (self, self).

Definition modify (f : Translator -> Translator) : M unit :=
  fun self => Ok (tt, f self).

(** A library call that may raise. *)
Definition lift {A : Type} (r : result A) : M A :=
  fun self =>
    match r with
    | Ok a => Ok (a, self)
    | Raise e => Raise e
    end.

Declare Scope py_scope.
Delimit Scope py_scope with py.
Notation "'let*' x ':=' m 'in' k" := (bind m (fun x => k))
  (at level 10, x name, m at level 100, k at level 200) : py_scope.
Notation "m ';;' k" := (bind m (fun _ => k))
  (at level 100, k at level 200, right associativity) : py_scope.

(** A [for] loop that threads a value through its iterations. *)
Fixpoint for_each {A B : Type} (l : list A) (f : B -> A -> M B) (b : B) : M B :=
  match l with
  | [] => ret b
  | a :: r => bind (f b a) (for_each r f)
  end.

Definition run {A : Type} (m : M A) (self : Translator) : result A :=
  match m self with
  | Ok (a, _) => Ok a
  | Raise e => Raise e
  end.

(** *** Function body rewriter *)

(** **** a. malloc and free *)

Definition malloc_pattern : Re.regex :=
  Re.compile "(\w+)\s*=\s*\((\w+)\s*\*\)\s*malloc\(sizeof\((\w+)\)\s*\*\s*(\w+)\);".
Definition single_malloc_pattern : Re.regex :=
  Re.compile "(\w+)\s*=\s*\((\w+)\s*\*\)\s*malloc\(sizeof\((\w+)\)\);".

Definition add_malloc_variable (var_name : string) (self : Translator) : Translator :=
  set_malloc_variables ({[ var_name ]} ∪ malloc_variables self) self.

(** The first loop: array allocations. *)
Definition replace_array_malloc (cpp_body : string) (m : list string) : M string :=
  (let var_name := g 0 m in
   let type_name := g 1 m in
   let alloc_type := g 2 m in
   let size := g 3 m in
   modify (add_malloc_variable var_name) ;;
   let replacement := var_name +:+ " = new " +:+ alloc_type +:+ "[" +:+ size +:+ "];" in
   ret (replace cpp_body
          (var_name +:+ " = (" +:+ type_name +:+ " *)malloc(sizeof("
             +:+ alloc_type +:+ ") * " +:+ size +:+ ");")
          replacement))%py.

(** The second loop: allocations of one object. *)
Definition replace_single_malloc (cpp_body : string) (m : list string) : M string :=
  (let var_name := g 0 m in
   let type_name := g 1 m in
   let alloc_type := g 2 m in
   modify (add_malloc_variable var_name) ;;
   let replacement := var_name +:+ " = new " +:+ alloc_type +:+ ";" in
   ret (replace cpp_body
          (var_name +:+ " = (" +:+ type_name +:+ " *)malloc(sizeof("
             +:+ alloc_type +:+ "));")
          replacement))%py.

(** The third loop: [free] of a recorded variable. *)
Definition replace_free (cpp_body : string) (var : string) : string :=
  if contains (var +:+ " = new ") cpp_body && contains (var +:+ "[") cpp_body
  then replace cpp_body ("free(" +:+ var +:+ ");") ("delete[] " +:+ var +:+ ";")
  else replace cpp_body ("free(" +:+ var +:+ ");") ("delete " +:+ var +:+ ";").

Definition allocation_pass (cpp_body : string) : M string :=
  (let* cpp_body := for_each (Re.findall malloc_pattern cpp_body)
                              replace_array_malloc cpp_body in
   let* cpp_body := for_each (Re.findall single_malloc_pattern cpp_body)
                              replace_single_malloc cpp_body in
   let* self := get in
   ret (fold_left replace_free (elements (malloc_variables self)) cpp_body))%py.

(** **** b. printf *)

Definition printf_pattern : Re.regex :=
  Re.compile ("printf\(" +:+ dq +:+ "([^" +:+ dq +:+ "\\]*(?:\\.[^" +:+ dq
              +:+ "\\]*)*)" +:+ dq +:+ "(?:\s*,\s*([^;]*))?\);").
Definition fmt_split_pattern : Re.regex :=
  Re.compile "(%[diouxXfFeEgGaAcspn]|%\.\d+[fg])".
Definition fp_precision_pattern : Re.regex := Re.compile "%\.(\d+)([fg])".
Definition specifier_pattern : Re.regex := Re.compile "%[diouxXfFeEgGaAcspn]".

(** One round of the loop over [fmt_parts]; the state is [cout_expr] and
    [arg_idx]. *)
Definition printf_part (arg_list : list string) (st : string * nat) (part : string)
  : string * nat :=
  let (cout_expr, arg_idx) := st in
  match Re.rmatch fp_precision_pattern part with
  | Some fp_precision_match =>
    match nth_error arg_list arg_idx with
    | Some arg =>
      let precision_val := Re.or_empty (Re.group part fp_precision_match 1) in
      (cout_expr +:+ "fixed << setprecision(" +:+ precision_val +:+ ") << "
         +:+ arg +:+ " << ", S arg_idx)
    | None => st
    end
  | None =>
    match Re.rmatch specifier_pattern part with
    | Some _ =>
      match nth_error arg_list arg_idx with
      | Some arg => (cout_expr +:+ arg +:+ " << ", S arg_idx)
      | None => st
      end
    | None => (cout_expr +:+ dq +:+ part +:+ dq +:+ " << ", arg_idx)
    end
  end.

(** The text that replaces one printf call with arguments.  The search
    for [precision] at the head of this branch has no effect and is left
    out. *)
Definition cout_with_args (format_str args : string) : string :=
  let fmt_parts :=
    List.filter (fun p => negb (String.eqb p EmptyString))
                (Re.split fmt_split_pattern format_str) in
  let arg_list := map strip (split args ",") in
  let cout_expr := fst (fold_left (printf_part arg_list) fmt_parts ("cout << ", 0)) in
  if endswith format_str "\n" then cout_expr +:+ "endl;"
  else drop_last 4 cout_expr +:+ ";".

(** The text that replaces a printf call without arguments. *)
Definition cout_without_args (format_str : string) : string :=
  if endswith format_str "\n"
  then "cout << " +:+ dq +:+ drop_last 2 format_str +:+ dq +:+ " << endl;"
  else "cout << " +:+ dq +:+ format_str +:+ dq +:+ ";".

(** One round of the loop over the matches, which were found in
    [subject], the body as it was before the loop. *)
Definition replace_printf (subject : string) (cpp_body : string) (m : Re.mobj)
  : string :=
  let format_str := Re.or_empty (Re.group subject m 1) in
  let original_printf := Re.group0 subject m in
  match Re.group subject m 2 with
  | Some (String c a) =>
    replace cpp_body original_printf (cout_with_args format_str (String c a))
  | _ => replace cpp_body original_printf (cout_without_args format_str)
  end.

Definition printf_pass (cpp_body : string) : string :=
  fold_left (replace_printf cpp_body) (Re.finditer printf_pattern cpp_body) cpp_body.

(** **** c. scanf *)

Definition scanf_pattern : Re.regex :=
  Re.compile ("scanf\(" +:+ dq +:+ "([^" +:+ dq +:+ "]+)" +:+ dq
              +:+ ",\s*([^)]+)\);").

Definition cin_statement (arg : string) : string :=
  let arg := if startswith arg "&" then drop 1 arg else arg in
  "cin >> " +:+ arg +:+ "; ".

Definition replace_scanf (cpp_body : string) (m : list string) : string :=
  let format_str := g 0 m in
  let args := g 1 m in
  let original_scanf :=
    "scanf(" +:+ dq +:+ format_str +:+ dq +:+ ", " +:+ args +:+ ");" in
  let arg_list := map strip (split args ",") in
  let cin_expr := String.concat EmptyString (map cin_statement arg_list) in
  replace cpp_body original_scanf cin_expr.

Definition scanf_pass (cpp_body : string) : string :=
  fold_left replace_scanf (Re.findall scanf_pattern cpp_body) cpp_body.

(** **** d. math functions *)

Definition math_functions : list string :=
  [ "sin"; "cos"; "tan"; "asin"; "acos"; "atan"; "atan2";
    "sinh"; "cosh"; "tanh"; "exp"; "log"; "log10"; "pow";
    "sqrt"; "ceil"; "floor"; "fabs"; "fmod" ].

Definition replace_math_call (cpp_body : string) (func : string) : M string :=
  let pattern := Re.compile ("\b" +:+ func +:+ "\(") in
  match Re.search pattern cpp_body with
  | Some _ => lift (Re.sub pattern ("std::" +:+ func +:+ "(") cpp_body 0)
  | None => ret cpp_body
  end.

Definition math_pass (cpp_body : string) : M string :=
  (let* self := get in
   if bool_decide ("math.h" ∈ includes self)
   then for_each math_functions replace_math_call cpp_body
   else ret cpp_body)%py.

(** **** e. swap *)

Definition swap_pattern : Re.regex :=
  Re.compile "void\s+swap\s*\(\s*(\w+)\s*\*\s*a\s*,\s*(\w+)\s*\*\s*b\s*\)".
Definition swap_impl_pattern : Re.regex :=
  Re.compile "void\s+swap\s*\(\s*(\w+)\s*\*\s*a\s*,\s*(\w+)\s*\*\s*b\s*\)\s*{([^}]*)}".

Definition swap_replacement : string :=
  "// Use C++ std::swap instead of custom implementation" +:+ nl
  +:+ "template<typename T>" +:+ nl
  +:+ "void swap(T* a, T* b) {" +:+ nl
  +:+ "    std::swap(*a, *b);" +:+ nl
  +:+ "}".

Definition swap_pass (cpp_body : string) : M string :=
  match Re.search swap_pattern cpp_body with
  | Some _ =>
    match Re.search swap_impl_pattern cpp_body with
    | Some swap_impl_match =>
      let impl_body := Re.or_empty (Re.group cpp_body swap_impl_match 3) in
      if contains "temp" impl_body && contains "*a" impl_body
         && contains "*b" impl_body
      then lift (Re.sub swap_impl_pattern swap_replacement cpp_body 0)
      else ret cpp_body
    | None => ret cpp_body
    end
  | None => ret cpp_body
  end.

(** **** f. function pointers *)

Definition func_ptr_pattern : Re.regex :=
  Re.compile "(\w+)\s+\(\*(\w+)\)\(([^)]*)\)\s*=\s*(.+);".

Definition nonempty (s : string) : bool := negb (String.eqb s EmptyString).

Definition require_functional (self : Translator) : Translator :=
  if existsb (contains "functional") (elements (includes self)) then self
  else set_includes ({[ "functional" ]} ∪ includes self) self.

Definition replace_func_ptr (cpp_body : string) (m : list string) : M string :=
  (let return_type := g 0 m in
   let ptr_name := g 1 m in
   let params := g 2 m in
   let func_ref := g 3 m in
   let cpp_params :=
     if nonempty (strip params)
     then List.filter nonempty (map strip (split params ","))
     else [] in
   let cpp_params_str := join ", " cpp_params in
   let replacement :=
     "function<" +:+ return_type +:+ "(" +:+ cpp_params_str +:+ ")> "
       +:+ ptr_name +:+ " = " +:+ func_ref +:+ ";" in
   let* cpp_body := lift (Re.sub func_ptr_pattern replacement cpp_body 1) in
   modify require_functional ;;
   ret cpp_body)%py.

Definition function_pointer_pass (cpp_body : string) : M string :=
  for_each (Re.findall func_ptr_pattern cpp_body) replace_func_ptr cpp_body.

(** [_process_function_body]: the six stages in the order of the
    source.  The closing loop over [self.defines] does nothing. *)
Definition _process_function_body (body : string) : M string :=
  (let cpp_body := body in
   let* cpp_body := allocation_pass cpp_body in
   let cpp_body := printf_pass cpp_body in
   let cpp_body := scanf_pass cpp_body in
   let* cpp_body := math_pass cpp_body in
   let* cpp_body := swap_pass cpp_body in
   let* cpp_body := function_pointer_pass cpp_body in
   ret cpp_body)%py.

(** *** Free functions *)

Definition func_pattern : Re.regex :=
  Re.compile "(\w+)\s+(\w+)\s*\(([^)]*)\)\s*{([^{}]*(?:{[^{}]*}[^{}]*)*?)}".

(** [l[-1]] *)
Definition last_item {A : Type} (l : list A) : M A :=
  match rev l with
  | x :: _ => ret x
  | [] => lift (Raise IndexError)
  end.

(** One parameter of a free function, already stripped and not empty. *)
Definition cpp_param (param : string) : M string :=
  (if contains "char *" param || contains "char*" param then
     let* word := last_item (split_ws param) in
     let param_name := replace word "*" EmptyString in
     ret ("const string& " +:+ param_name)
   else ret param)%py.

Definition is_struct_func (self : Translator) (params : string) : bool :=
  existsb (fun struct_name => contains ("struct " +:+ struct_name +:+ " *") params)
          (map fst (structs self)).

(** One round of the loop of [_translate_functions]. *)
Definition translate_function (function_implementations : list string)
    (m : list string) : M (list string) :=
  (let return_type := g 0 m in
   let func_name := g 1 m in
   let params := g 2 m in
   let body := g 3 m in
   let* self := get in
   if String.eqb func_name "main" then ret function_implementations
   else if is_struct_func self params then ret function_implementations
   else
     let* cpp_params :=
       for_each (List.filter nonempty (map strip (split params ",")))
                (fun acc param =>
                   let* p := cpp_param param in ret (acc ++ [p]))
                [] in
     let* cpp_body := _process_function_body body in
     ret (function_implementations
            ++ [ "// C++ style function";
                 return_type +:+ " " +:+ func_name +:+ "("
                   +:+ join ", " cpp_params +:+ ") {";
                 cpp_body;
                 "}";
                 EmptyString ]))%py.

(** [_translate_functions] *)
Definition _translate_functions (c_code : string) : M (list string) :=
  for_each (Re.findall func_pattern c_code) translate_function [].

(** *** The main function *)

Definition main_signature_pattern : Re.regex := Re.compile "int\s+main\s*\([^)]*\)".

(** The loop that counts braces: [s] is the text from offset [i], the
    result is [close_brace_pos], [None] for -1. *)
Fixpoint close_brace (s : string) (i : nat) (brace_count : nat) : option nat :=
  match s with
  | EmptyString => None
  | String c t =>
    if Ascii.eqb c "{" then close_brace t (S i) (S brace_count)
    else if Ascii.eqb c "}" then
      if brace_count - 1 =? 0 then Some i
      else close_brace t (S i) (brace_count - 1)
    else close_brace t (S i) brace_count
  end.

(** The offsets of the braces around the body of [main], if the three
    steps of the search succeed. *)
Definition locate_main (c_code : string) : option (nat * nat) :=
  match Re.search main_signature_pattern c_code with
  | None => None
  | Some signature_match =>
    let signature_pos := Re.m_start signature_match in
    match find c_code "{" signature_pos with
    | None => None
    | Some open_brace_pos =>
      match close_brace (drop (S open_brace_pos) c_code) (S open_brace_pos) 1 with
      | None => None
      | Some close_brace_pos => Some (open_brace_pos, close_brace_pos)
      end
    end
  end.

(** [_translate_main_function] *)
Definition _translate_main_function (c_code : string) : M (list string) :=
  match locate_main c_code with
  | None => ret []
  | Some (open_brace_pos, close_brace_pos) =>
    (let body := slice c_code (S open_brace_pos) close_brace_pos in
     let* cpp_body := _process_function_body body in
     ret [ "// Main function";
           "int main(int argc, char* argv[]) {";
           cpp_body;
           "}" ])%py
  end.

(** *** Program assembler *)

(** The first five calls of [translate]: the catalog of the input. *)
Definition catalog (c_code : string) (self : Translator) : Translator :=
  let self := identify_includes c_code self in
  let self := identify_defines c_code self in
  let self :=
    if _is_simple_program c_code then set_global_variables ∅ self
    else identify_global_variables c_code self in
  let self := identify_structs c_code self in
  identify_struct_functions c_code self.

Definition math_constants (self : Translator) : list string :=
  if bool_decide ("math.h" ∈ includes self) && negb (dict_has "PI" (defines self))
  then [ EmptyString;
         "// Common math constants";
         "const double PI = 3.14159265358979323846;";
         "const double E = 2.71828182845904523536;" ]
  else [].

(** A section followed by an empty line, or nothing when the section is
    empty. *)
Definition section (lines : list string) : list string :=
  match lines with
  | [] => []
  | _ => lines ++ [EmptyString]
  end.

(** The lines [translate] has collected in [cpp_code] when it reaches
    the free functions. *)
Definition head_lines (self : Translator) : list string :=
  _translate_includes self ++ [EmptyString]
    ++ section (_translate_defines self)
    ++ ["// Using standard namespace"; "using namespace std;"]
    ++ math_constants self
    ++ [EmptyString]
    ++ section (_translate_structs_to_classes self)
    ++ section (_translate_global_variables self).

(** [translate], as a computation on [self] that returns [cpp_code]. *)
Definition translate_lines (c_code : string) : M (list string) :=
  (modify (catalog c_code) ;;
   let* self := get in
   let cpp_code := head_lines self in
   let* function_implementations := _translate_functions c_code in
   let* main_function := _translate_main_function c_code in
   ret (cpp_code ++ function_implementations ++ main_function))%py.

(** [CToCppTranslator().translate(c_code)]: a fresh translator per
    request, as both callers make one. *)
Definition translate (c_code : string) : result string :=
  result_map (join nl) (run (translate_lines c_code) init).

(** *** Vocabulary of the properties *)

(** No signature of [main] is found in the input. *)
Definition no_main_signature (c_code : string) : Prop :=
  Re.search main_signature_pattern c_code = None.

(** A signature is found, and then no opening brace, or no closing brace
    that balances it. *)
Definition unbalanced_main (c_code : string) : Prop :=
  exists m,
    Re.search main_signature_pattern c_code = Some m /\
    match find c_code "{" (Re.m_start m) with
    | None => True
    | Some open_brace_pos =>
      close_brace (drop (S open_brace_pos) c_code) (S open_brace_pos) 1 = None
    end.

(** The header names the input includes, with repetitions, and the
    names of the macros it defines, in the order of the input. *)
Definition included_headers (c_code : string) : list string :=
  map (g 0) (Re.findall include_pattern c_code).

Definition defined_names (c_code : string) : list string :=
  map (g 0) (Re.findall define_pattern c_code).

(** The first occurrence of each name of [l] that is not in [seen]. *)
Fixpoint first_appearances (seen l : list string) : list string :=
  match l with
  | [] => []
  | x :: r =>
    if existsb (String.eqb x) seen then first_appearances seen r
    else x :: first_appearances (seen ++ [x]) r
  end.

(** [sub] occurs in [s]. *)
Definition occurs (sub s : string) : Prop :=
  exists a b, s = a +:+ sub +:+ b.

(** The constant emitter in words of its own: the kind of a value by
    its shape, the first shape that fits, and the type of the constant by
    the kind.  The shapes are told character by character, without the
    methods of [str] the code calls. *)
Inductive define_kind : Type :=
| KString
| KFloating
| KInteger
| KOpaque.

Definition first_char (s : string) : option ascii :=
  match s with
  | EmptyString => None
  | String c _ => Some c
  end.

Fixpoint last_char (s : string) : option ascii :=
  match s with
  | EmptyString => None
  | String c EmptyString => Some c
  | String _ t => last_char t
  end.

Definition is_dquote (o : option ascii) : bool :=
  match o with
  | Some c => nat_of_ascii c =? 34
  | None => false
  end.

(** The value begins with a double quote and ends with one; a value that
    is one double quote does both. *)
Definition is_quoted_literal (value : string) : bool :=
  is_dquote (first_char value) && is_dquote (last_char value).

Fixpoint has_decimal_point (value : string) : bool :=
  match value with
  | EmptyString => false
  | String c t => (nat_of_ascii c =? 46) || has_decimal_point t
  end.

(** The characters 0 to 9, and the superscripts two, three and one. *)
Definition decimal_digit (c : ascii) : bool :=
  (48 <=? nat_of_ascii c) && (nat_of_ascii c <=? 57).

Definition superscript_digit (c : ascii) : bool :=
  (nat_of_ascii c =? 178) || (nat_of_ascii c =? 179) || (nat_of_ascii c =? 185).

Fixpoint digits_only (digit : ascii -> bool) (s : string) : bool :=
  match s with
  | EmptyString => true
  | String c t => digit c && digits_only digit t
  end.

(** The value is not empty and made of digits; a superscript counts as
    a digit. *)
Definition all_digits (value : string) : bool :=
  match value with
  | EmptyString => false
  | String _ _ => digits_only (fun c => decimal_digit c || superscript_digit c) value
  end.

Definition kind_of_value (value : string) : define_kind :=
  if is_quoted_literal value then KString
  else if has_decimal_point value then KFloating
  else if all_digits value then KInteger
  else KOpaque.





Definition type_of_kind (k : define_kind) : string :=
  match k with
  | KString => "string"
  | KFloating => "double"
  | KInteger => "int"
  | KOpaque => "auto"
  end.

Definition constant_declaration (name value : string) : string :=
  "const " +:+ type_of_kind (kind_of_value value) +:+ " " +:+ name
    +:+ " = " +:+ value +:+ ";".

(** The texts of the allocation pass: what the first two loops look
    for in the body and what they put in its place. *)
Definition array_malloc_text (var_name type_name alloc_type size : string) : string :=
  var_name +:+ " = (" +:+ type_name +:+ " *)malloc(sizeof(" +:+ alloc_type
    +:+ ") * " +:+ size +:+ ");".

Definition array_new_text (var_name alloc_type size : string) : string :=
  var_name +:+ " = new " +:+ alloc_type +:+ "[" +:+ size +:+ "];".

Definition scalar_malloc_text (var_name type_name alloc_type : string) : string :=
  var_name +:+ " = (" +:+ type_name +:+ " *)malloc(sizeof(" +:+ alloc_type +:+ "));".

Definition scalar_new_text (var_name alloc_type : string) : string :=
  var_name +:+ " = new " +:+ alloc_type +:+ ";".

(** The name a header is emitted under. *)
Definition cpp_header (include : string) : string :=
  match dict_get include c_to_cpp_headers with
  | Some cpp => cpp
  | None => include
  end.

(** The header that the table maps to the name [x]. *)
Definition c_header_of (x : string) : option string :=
  option_map fst (List.find (fun kv => String.eqb (snd kv) x) c_to_cpp_headers).

(** The input includes the header [h], once or more. *)
Definition written (c_code h : string) : bool :=
  existsb (String.eqb h) (included_headers c_code).

Definition one_if (b : bool) : nat := if b then 1 else 0.

(** How often the line that includes [x] is emitted: once as the fixed
    line of algorithm, once as the line of iomanip for a precision
    specifier, once as the line of functional when the input includes it,
    once when the input includes [x] itself and [x] is no header of the
    table, and once when the input includes the header the table maps to
    [x]. *)
Definition header_line_count (c_code x : string) : nat :=
  one_if (String.eqb x "algorithm")
  + one_if (String.eqb x "iomanip"
            && match Re.search precision_pattern c_code with
               | Some _ => true
               | None => false
               end)
  + one_if (String.eqb x "functional" && written c_code "functional")
  + one_if (written c_code x && negb (String.eqb x "functional")
            && negb (dict_has x c_to_cpp_headers))
  + one_if (match c_header_of x with
            | Some h => written c_code h
            | None => false
            end).

(** The parts of the count, for one name of the loop and for a list of
    names: the line of [x] comes from the name [x] itself, or from the
    header the table maps to [x]. *)
Definition own_at (a x : string) : bool :=
  String.eqb x a && negb (String.eqb x "functional")
  && negb (dict_has x c_to_cpp_headers).

Definition key_of (a x : string) : bool :=
  match dict_get a c_to_cpp_headers with
  | Some v => String.eqb v x
  | None => false
  end.

Definition own_in (l : list string) (x : string) : bool :=
  existsb (String.eqb x) l && negb (String.eqb x "functional")
  && negb (dict_has x c_to_cpp_headers).

Definition mapped_in (l : list string) (x : string) : bool :=
  match c_header_of x with
  | Some h => existsb (String.eqb h) l
  | None => false
  end.

Definition pi_line : string := "const double PI = 3.14159265358979323846;".
Definition e_line : string := "const double E = 2.71828182845904523536;".

Definition main_signature_line : string := "int main(int argc, char* argv[]) {".

(** How often the character [x] occurs in [s]. *)
Fixpoint count_chr (x : ascii) (s : string) : nat :=
  match s with
  | EmptyString => 0
  | String c t => (if Ascii.eqb c x then 1 else 0) + count_chr x t
  end.

(** A text whose braces nest: no prefix closes more braces than it
    opened, and the whole text closes all of them. *)
Definition balanced (s : string) : Prop :=
  count_chr "{" s = count_chr "}" s /\
  forall k, count_chr "}" (take k s) <= count_chr "{" (take k s).

(** A text without backslash. *)
Definition clean (s : string) : bool :=
  all_chars (fun c => negb (Ascii.eqb c Chr.backslash)) s.

(** The matches of [func_pattern] that [_translate_functions] emits: not
    [main], and no parameter that points to a cataloged struct. *)
Definition emitted_function (self : Translator) (m : list string) : bool :=
  negb (String.eqb (g 1 m) "main") && negb (is_struct_func self (g 2 m)).

(** The last value assigned to [k] by a loop of assignments, [None] when
    the loop does not assign to [k]. *)
Fixpoint last_assigned (k : string) (l : list (string * string)) : option string :=
  match l with
  | [] => None
  | (k', v) :: r =>
    match last_assigned k r with
    | Some w => Some w
    | None => if String.eqb k' k then Some v else None
    end
  end.

(** The macros of the input with their values, in the order of the
    input. *)
Definition defined_macros (c_code : string) : list (string * string) :=
  map (fun m => (g 0 m, strip (g 1 m))) (Re.findall define_pattern c_code).

(** Every text of the list is without backslash. *)
Definition all_clean (l : list string) : Prop :=
  List.Forall (fun s => clean s = true) l.

(** The names recorded by the allocation pass are without backslash. *)
Definition clean_vars (self : Translator) : Prop :=
  forall v, v ∈ malloc_variables self -> clean v = true.

(** What a run of the body rewriter may do to [self]: the catalog stays,
    recorded variables are only added, and the only header it may add
    is functional. *)
Definition rewriter_step (self self' : Translator) : Prop :=
  defines self' = defines self /\
  structs self' = structs self /\
  struct_to_functions self' = struct_to_functions self /\
  global_variables self' = global_variables self /\
  needs_iomanip self' = needs_iomanip self /\
  malloc_variables self ⊆ malloc_variables self' /\
  includes self ⊆ includes self' /\
  includes self' ⊆ includes self ∪ {[ "functional" ]}.

(** The loop over the parameters of a free function. *)
Definition cpp_params_of (params : string) : M (list string) :=
  for_each (List.filter nonempty (map strip (split params ",")))
           (fun acc param => (let* p := cpp_param param in ret (acc ++ [p]))%py)
           [].

(** The five lines [_translate_functions] emits for the function of the
    match [m]: its parameters as the loop over them gives them, and its
    body as the body rewriter returns it in the state [self], which it
    leaves as [self']. *)
Definition function_block (self : Translator) (m block : list string)
    (self' : Translator) : Prop :=
  exists cpp_params cpp_body,
    cpp_params_of (g 2 m) self = Ok (cpp_params, self) /\
    _process_function_body (g 3 m) self = Ok (cpp_body, self') /\
    block = [ "// C++ style function";
              g 0 m +:+ " " +:+ g 1 m +:+ "(" +:+ join ", " cpp_params +:+ ") {";
              cpp_body;
              "}";
              EmptyString ].


End C2pp.

(** ** The command-line program

    [main()] of [c_cpp.py].  Standard input is the list of its lines; a
    run is the list of what the program prints, asks and writes, in
    order.  [writable] tells for a file name whether opening it for
    writing and writing it succeed.  Every exception raised inside the
    [try] block is caught and reported, so a run always ends. *)

Module Cli.

Import Py C2pp.

Inductive failure : Type :=
| Translation (e : exn)
| EOFError
| OSError.

Inductive event : Type :=
| Print (text : string)
| Prompt (text : string)
| PrintError (e : failure)
| WriteFile (filename content : string).

(** [str.lower] *)
Definition lower_char (c : ascii) : ascii :=
  if Chr.between 65 90 c || Chr.between 192 214 c || Chr.between 216 222 c
  then ascii_of_N (Chr.code c + 32)
  else c.

Fixpoint lower (s : string) : string :=
  match s with
  | EmptyString => EmptyString
  | String c t => String (lower_char c) (lower t)
  end.

(** The loop that reads the program: the lines collected and the lines
    of standard input left over.  The end of input ends the loop as a
    line [DONE] does. *)
Fixpoint read_code (stdin c_code_lines : list string) : list string * list string :=
  match stdin with
  | [] => (c_code_lines, [])
  | line :: rest =>
    if String.eqb (strip line) "DONE" then (c_code_lines, rest)
    else read_code rest (c_code_lines ++ [line])
  end.

Definition ascii_marker : string := "for (char c = 'A'; c <= 'Z'; c++)".

Definition corrected_code : string :=
  join nl
    [ "// C++ style includes";
      "#include <algorithm>";
      "#include <iostream>";
      "// Using standard namespace";
      "using namespace std;";
      "// Main function";
      "int main(int argc, char* argv[]) {";
      "    for (char c = 'A'; c <= 'Z'; c++) {";
      "        cout << " +:+ dq +:+ "ASCII value of " +:+ dq +:+ " << c << "
        +:+ dq +:+ " = " +:+ dq +:+ " << (int)c << endl;";
      "    }";
      "    return 0;";
      "}" ].

(** The end of the [try] block: the offer to save [cpp_code]. *)
Definition save (writable : string -> bool) (cpp_code : string)
    (stdin : list string) : list event :=
  Prompt (nl +:+ "Do you want to save the C++ code to a file? (y/n): ")
  :: match stdin with
     | [] => [PrintError EOFError]
     | save_option :: stdin =>
       if String.eqb (lower save_option) "y" then
         Prompt "Enter filename (default: output.cpp): "
         :: match stdin with
            | [] => [PrintError EOFError]
            | answer :: _ =>
              let filename :=
                if String.eqb answer EmptyString then "output.cpp" else answer in
              let filename :=
                if endswith filename ".cpp" then filename
                else filename +:+ ".cpp" in
              if writable filename
              then [ WriteFile filename cpp_code;
                     Print ("C++ code saved to " +:+ filename) ]
              else [PrintError OSError]
            end
       else []
     end.

Definition main (writable : string -> bool) (stdin : list string) : list event :=
  [ Print "===== C to C++ Language Translator =====";
    Print "Enter your C code below. Type 'DONE' on a new line when finished.";
    Print "==========================================" ]
  ++ let (c_code_lines, stdin) := read_code stdin [] in
     let c_code := join nl c_code_lines in
     if contains ascii_marker c_code then
       [ Print (nl +:+ "===== Corrected C++ Code with ASCII Values =====");
         Print corrected_code;
         Print "===============================" ]
       ++ save writable corrected_code stdin
     else
       match translate c_code with
       | Ok cpp_code =>
         [ Print (nl +:+ "===== Translated C++ Code =====");
           Print cpp_code;
           Print "===============================" ]
         ++ save writable cpp_code stdin
       | Raise e => [PrintError (Translation e)]
       end.

End Cli.

(** ** Inputs of the examples *)

Module Inputs.

Import Py.

(** No [main] at all. *)
Definition no_main_input : string := "#define N 5".

(** A [main] whose braces do not balance. *)
Definition unbalanced_input : string :=
  "#define N 5" +:+ nl +:+ "int main() { if (x) { return 0; }".

Definition main_void_input : string := "int main(void) { return 0; }".
Definition main_empty_input : string := "int main() { return 0; }".

Definition math_input : string :=
  "#include <math.h>" +:+ nl +:+ "int main() { return 0; }".


(** A header of the table and a header spelled as its mapped name. *)
Definition string_twice_input : string :=
  "#include <string.h>" +:+ nl +:+ "#include <string>".

(** A header of the table twice, and a header that is not in the
    table. *)
Definition repeated_input : string :=
  "#include <stdio.h>" +:+ nl +:+ "#include <stdio.h>" +:+ nl
  +:+ "#include <myheader.h>".

Definition printf_statement : string :=
  "printf(" +:+ dq +:+ "Value: %d\n" +:+ dq +:+ ", x);".
Definition printf_no_args : string :=
  "printf(" +:+ dq +:+ "Value\n" +:+ dq +:+ ");".
Definition cout_statement : string :=
  "cout << " +:+ dq +:+ "Value: " +:+ dq +:+ " << x << "
    +:+ dq +:+ "\n" +:+ dq +:+ " << endl;".

(** The allocations as the specification spells them, and as the
    replacement text of the allocation pass spells them. *)
Definition claimed_array_body : string :=
  "p = (int*) malloc(sizeof(int) * 10); free(p);".
Definition claimed_scalar_body : string :=
  "p = (int*) malloc(sizeof(int)); free(p);".
Definition indexed_body : string :=
  "p = (int *)malloc(sizeof(int) * 10); p[0] = 1; free(p);".
Definition not_indexed_body : string :=
  "p = (int *)malloc(sizeof(int) * 10); free(p);".
Definition scalar_body : string :=
  "p = (int *)malloc(sizeof(int)); *p = 1; free(p);".

Definition struct_input : string :=
  "struct P { int x; int y; };" +:+ nl
  +:+ "void set(struct P *p, int v) { p->x = v; p.y = v; }" +:+ nl
  +:+ "int main() { return 0; }".

Definition swap_body : string := " int temp = *a; *a = *b; *b = temp; ".
Definition swap_definition : string :=
  "void swap(int *a, int *b) {" +:+ swap_body +:+ "}".
Definition swap_input : string :=
  swap_definition +:+ nl +:+ "int main() { return 0; }".

(** A global variable beside a [main] that the check for simple programs
    accepts. *)
Definition simple_input : string :=
  "int total = 0;" +:+ nl +:+ "int main() { int factorial = 1; return total; }".

(** A function pointer in [main], and no backslash anywhere. *)
Definition function_pointer_input : string :=
  "int add(int a, int b) { return a + b; }" +:+ nl
  +:+ "int main() { int (*op)(int, int) = add; return op(1, 2); }".

(** A session at the terminal: the program, the line that ends it, the
    answer to the offer to save and a file name. *)
Definition session_input : list string :=
  [ main_void_input; "  DONE "; "Y"; "prog" ].

Definition main_void_output : string :=
  join nl [ "// C++ style includes"; "#include <algorithm>"; EmptyString;
            "// Using standard namespace"; "using namespace std;"; EmptyString;
            "// Main function"; "int main(int argc, char* argv[]) {";
            " return 0; "; "}" ].


(** An input that includes the header the translator always adds. *)
Definition algorithm_input : string := "#include <algorithm>".

End Inputs.

(** * Properties *)

Import Py C2pp Inputs.

(** ** The patterns

    Every fixed pattern of the program is in the fragment the parser
    reads, and so is every pattern the program computes from a fixed
    list. *)

Lemma patterns_parse :
  Forall (fun r => r <> Re.never)
    [ include_pattern; precision_pattern; define_pattern; main_count_pattern;
      other_funcs_pattern; function_blocks_pattern; var_pattern; struct_pattern;
      malloc_pattern; single_malloc_pattern; printf_pattern; fmt_split_pattern;
      fp_precision_pattern; specifier_pattern; scanf_pattern; swap_pattern;
      swap_impl_pattern; func_ptr_pattern; func_pattern; main_signature_pattern ].
Proof. repeat constructor; vm_compute; discriminate. Qed.

Lemma computed_patterns_parse :
  Forall (fun p => Re.compile p <> Re.never) simple_patterns /\
  Forall (fun f => Re.compile ("\b" +:+ f +:+ "\(") <> Re.never) math_functions /\
  function_pattern "P" <> Re.never.
Proof. split; [| split]; repeat constructor; vm_compute; discriminate. Qed.

(** The pattern of the include directive, node by node. *)
Example include_pattern_syntax :
  Re.parse "<([^>]+)>"
  = Some (Re.Seq (Re.Lit "<")
            (Re.Seq (Re.Group 1 (Re.Plus true (Re.Class true [Re.IChar ">"])))
                    (Re.Lit ">"))).
Proof. reflexivity. Qed.

(** ** The matcher

    The fuel inside the matcher is a device of the definition only: a
    quantifier and [finditer] are given more than they can use, and any
    larger amount gives the same result. *)

Module ReFacts.
Import Re.

Lemma later_refl s : later s s.
Proof. split; reflexivity. Qed.

Lemma later_trans s1 s2 s3 : later s1 s2 -> later s2 s3 -> later s1 s3.
Proof. unfold later. intros [? ?] [? ?]. split; lia. Qed.

Lemma step_local p : local (step p).
Proof.
  intros k1 k2 s H. unfold step.
  destruct (rest s) as [| c t] eqn:E; [reflexivity |].
  destruct (p c); [| reflexivity].
  apply H. unfold later, total. simpl. rewrite E. simpl. unfold len. lia.
Qed.

Lemma iterate_local body greedy fuel :
  local body -> local (fun k => iterate body greedy k fuel).
Proof.
  intros Hb. induction fuel as [| f IH]; intros k1 k2 s H; simpl.
  - apply H, later_refl.
  - assert (E : body (fun s' => if pos s <? pos s'
                                then iterate body greedy k1 f s' else None) s
              = body (fun s' => if pos s <? pos s'
                                then iterate body greedy k2 f s' else None) s).
    { apply Hb. intros s' Hs'. destruct (pos s <? pos s'); [| reflexivity].
      apply IH. intros s'' Hs''. apply H. eapply later_trans; eassumption. }
    rewrite E, (H s (later_refl s)). reflexivity.
Qed.

Lemma run_local ic r : local (run ic r).
Proof.
  induction r as [| x | | neg items | | a IHa b IHb | a IHa b IHb
                  | greedy a IHa | greedy a IHa | greedy a IHa | n a IHa];
    intros k1 k2 s H; cbn [run].
  - apply H, later_refl.
  - now apply step_local.
  - now apply step_local.
  - now apply step_local.
  - destruct (xorb _ _); [apply H, later_refl | reflexivity].
  - apply IHa. intros s' Hs'. apply IHb. intros s'' Hs''.
    apply H. eapply later_trans; eassumption.
  - rewrite (IHa k1 k2 s H), (IHb k1 k2 s H). reflexivity.
  - now apply iterate_local.
  - apply IHa. intros s' Hs'. apply iterate_local; [exact IHa |].
    intros s'' Hs''. apply H. eapply later_trans; eassumption.
  - rewrite (IHa k1 k2 s H), (H s (later_refl s)). reflexivity.
  - apply IHa. intros s' Hs'. apply H.
    destruct Hs' as [Ht Hp]. split; [exact Ht | exact Hp].
Qed.

Lemma iterate_S body greedy k f s :
  iterate body greedy k (S f) s =
  if greedy then
    match body (fun s' => if pos s <? pos s'
                          then iterate body greedy k f s' else None) s with
    | Some m => Some m
    | None => k s
    end
  else
    match k s with
    | Some m => Some m
    | None => body (fun s' => if pos s <? pos s'
                              then iterate body greedy k f s' else None) s
    end.
Proof. reflexivity. Qed.

(** More fuel than characters left is as good as any more. *)
Lemma iterate_fuel body greedy k :
  local body ->
  forall f s, len (rest s) < f ->
    iterate body greedy k (S f) s = iterate body greedy k f s.
Proof.
  intros Hb. induction f as [| f IH]; intros s Hf; [lia |].
  rewrite (iterate_S body greedy k (S f) s), (iterate_S body greedy k f s).
  assert (E : body (fun s' => if pos s <? pos s'
                              then iterate body greedy k (S f) s' else None) s
            = body (fun s' => if pos s <? pos s'
                              then iterate body greedy k f s' else None) s).
  { apply Hb. intros s' [Ht Hp]. destruct (pos s <? pos s') eqn:L; [| reflexivity].
    apply Nat.ltb_lt in L. apply IH. unfold total in Ht. lia. }
  rewrite E. reflexivity.
Qed.

(** The fuel a quantifier starts with is never used up: any larger
    amount gives the same match. *)
Lemma star_fuel_adequate ic a greedy k s extra :
  iterate (run ic a) greedy k (S (len (rest s)) + extra) s
  = run ic (Star greedy a) k s.
Proof.
  cbn [run]. induction extra as [| e IH].
  - now rewrite Nat.add_0_r.
  - rewrite Nat.add_succ_r, iterate_fuel; [exact IH | apply run_local | lia].
Qed.

(** A match ends in a later state of the scan it started in. *)
Lemma step_result p k s e :
  step p k s = Some e -> exists s', later s s' /\ k s' = Some e.
Proof.
  unfold step. destruct (rest s) as [| c t] eqn:E; [discriminate |].
  destruct (p c); [| discriminate]. intros H.
  eexists. split; [| exact H].
  unfold later, total. simpl. rewrite E. simpl. unfold len. lia.
Qed.

Lemma iterate_result body greedy fuel :
  answers body -> answers (fun k => iterate body greedy k fuel).
Proof.
  intros Hb. induction fuel as [| f IH]; intros k s e; simpl.
  - intros H. exists s. split; [apply later_refl | exact H].
  - assert (Hmore : body (fun s' => if pos s <? pos s'
                                    then iterate body greedy k f s' else None) s
                    = Some e -> exists s', later s s' /\ k s' = Some e).
    { intros H. apply Hb in H as (s1 & L1 & H).
      destruct (pos s <? pos s1); [| discriminate].
      apply IH in H as (s2 & L2 & H).
      exists s2. split; [eapply later_trans; eassumption | exact H]. }
    destruct greedy.
    + destruct (body _ s) as [m |] eqn:E.
      * intros [= <-]. now apply Hmore.
      * intros H. exists s. split; [apply later_refl | exact H].
    + destruct (k s) as [m |] eqn:E.
      * intros [= <-]. exists s. split; [apply later_refl | exact E].
      * exact Hmore.
Qed.

Lemma run_result ic r : answers (run ic r).
Proof.
  induction r as [| x | | neg items | | a IHa b IHb | a IHa b IHb
                  | greedy a IHa | greedy a IHa | greedy a IHa | n a IHa];
    intros k s e; cbn [run].
  - intros H. exists s. split; [apply later_refl | exact H].
  - apply step_result.
  - apply step_result.
  - apply step_result.
  - destruct (xorb _ _); [| discriminate].
    intros H. exists s. split; [apply later_refl | exact H].
  - intros H. apply IHa in H as (s1 & L1 & H). apply IHb in H as (s2 & L2 & H).
    exists s2. split; [eapply later_trans; eassumption | exact H].
  - destruct (run ic a k s) as [m |] eqn:E.
    + intros [= <-]. now apply IHa.
    + apply IHb.
  - now apply iterate_result.
  - intros H. apply IHa in H as (s1 & L1 & H).
    apply (iterate_result (run ic a) greedy _ IHa) in H as (s2 & L2 & H).
    exists s2. split; [eapply later_trans; eassumption | exact H].
  - destruct greedy.
    + destruct (run ic a k s) as [m |] eqn:E.
      * intros [= <-]. now apply IHa.
      * intros H. exists s. split; [apply later_refl | exact H].
    + destruct (k s) as [m |] eqn:E.
      * intros [= <-]. exists s. split; [apply later_refl | exact E].
      * apply IHa.
  - intros H. apply IHa in H as (s1 & L1 & H).
    eexists. split; [| exact H]. exact L1.
Qed.

Lemma match_at_bounds ic r s m :
  match_at ic r s = Some m ->
  m_start m = pos s /\ pos s <= m_end m <= total s.
Proof.
  unfold match_at. destruct (run ic r Some s) as [e |] eqn:E; [| discriminate].
  intros [= <-]. simpl. apply run_result in E as (s' & [Ht Hp] & [= ->]).
  unfold total in *. split; [reflexivity |]. split; [exact Hp |].
  rewrite <- Ht. apply Nat.le_add_r.
Qed.

Lemma search_go_bounds ic r p pv t m :
  search_go ic r p pv t = Some m ->
  p <= m_start m /\ m_start m <= m_end m <= p + len t.
Proof.
  revert p pv. induction t as [| c t IH]; intros p pv; cbn [search_go].
  - destruct (match_at _ _ _) as [m' |] eqn:E; [| discriminate].
    intros [= <-]. apply match_at_bounds in E.
    unfold total, len in *. simpl in *. lia.
  - destruct (match_at _ _ _) as [m' |] eqn:E.
    + intros [= <-]. apply match_at_bounds in E.
      unfold total, len in *. simpl in *. lia.
    + intros H. apply IH in H. unfold len in *. simpl in *. lia.
Qed.

Lemma len_drop p s : len (drop p s) = len s - p.
Proof.
  revert s. induction p as [| p IH]; intros [| c t]; simpl; try reflexivity.
  apply IH.
Qed.

Lemma search_from_bounds ic r subject p m :
  search_from ic r subject p = Some m ->
  p <= m_start m /\ m_start m <= m_end m <= p + (len subject - p).
Proof.
  unfold search_from. intros H. apply search_go_bounds in H.
  now rewrite len_drop in H.
Qed.

(** The fuel of [finditer] is never used up either. *)
Lemma finditer_fuel r subject :
  forall f p, S (len subject) - p <= f ->
    finditer_go (S f) r subject p = finditer_go f r subject p.
Proof.
  induction f as [| f IH]; intros p Hf.
  - cbn [finditer_go]. destruct (len subject <? p) eqn:L; [reflexivity |].
    apply Nat.ltb_ge in L. lia.
  - change (finditer_go (S (S f)) r subject p)
      with (if len subject <? p then []
            else match search_from false r subject p with
                 | None => []
                 | Some m =>
                   m :: finditer_go (S f) r subject
                          (if m_end m =? m_start m then S (m_end m) else m_end m)
                 end).
    change (finditer_go (S f) r subject p)
      with (if len subject <? p then []
            else match search_from false r subject p with
                 | None => []
                 | Some m =>
                   m :: finditer_go f r subject
                          (if m_end m =? m_start m then S (m_end m) else m_end m)
                 end).
    destruct (len subject <? p) eqn:L; [reflexivity |].
    apply Nat.ltb_ge in L.
    destruct (search_from false r subject p) as [m |] eqn:E; [| reflexivity].
    apply search_from_bounds in E. f_equal. apply IH.
    destruct (m_end m =? m_start m) eqn:Q.
    + apply Nat.eqb_eq in Q. lia.
    + apply Nat.eqb_neq in Q. lia.
Qed.

Lemma finditer_fuel_adequate r subject extra :
  finditer_go (S (len subject) + extra) r subject 0 = finditer r subject.
Proof.
  unfold finditer. induction extra as [| e IH].
  - now rewrite Nat.add_0_r.
  - rewrite Nat.add_succ_r, finditer_fuel; [exact IH | lia].
Qed.
End ReFacts.

(** ** Strings and lists of lines *)

Lemma append_cons (x : ascii) (a b : string) :
  String x a +:+ b = String x (a +:+ b).
Proof. reflexivity. Qed.

Lemma append_nil_l (a : string) : EmptyString +:+ a = a.
Proof. reflexivity. Qed.

Lemma append_assoc (a b c : string) : (a +:+ b) +:+ c = a +:+ b +:+ c.
Proof.
  induction a as [| x a IH]; [reflexivity |].
  now rewrite !append_cons, IH.
Qed.

Lemma append_nil_r (a : string) : a +:+ EmptyString = a.
Proof.
  induction a as [| x a IH]; [reflexivity |].
  now rewrite append_cons, IH.
Qed.

Lemma occurs_app_l (sub s a : string) : occurs sub s -> occurs sub (a +:+ s).
Proof.
  intros (x & y & ->). exists (a +:+ x), y. now rewrite append_assoc.
Qed.

Lemma join_cons sep x y r :
  join sep (x :: y :: r) = x +:+ sep +:+ join sep (y :: r).
Proof. reflexivity. Qed.

Lemma join_head sep x r : exists b, join sep (x :: r) = x +:+ b.
Proof.
  destruct r as [| y r].
  - exists EmptyString. simpl. now rewrite append_nil_r.
  - eexists. apply join_cons.
Qed.

(** Two lines that follow each other in the list occur, one newline
    between them, in the joined text. *)
Lemma join_occurs_pair (l1 l2 : list string) (x y : string) :
  occurs (x +:+ nl +:+ y) (join nl (l1 ++ x :: y :: l2)).
Proof.
  induction l1 as [| z l1 IH]; simpl app.
  - rewrite join_cons. destruct (join_head nl y l2) as [b ->].
    exists EmptyString, b. now rewrite append_nil_l, !append_assoc.
  - destruct (l1 ++ x :: y :: l2) as [| w r] eqn:E.
    + destruct l1; discriminate.
    + rewrite join_cons. apply occurs_app_l, occurs_app_l. exact IH.
Qed.

Lemma append_inj_gt (a b : string) : a +:+ ">" = b +:+ ">" -> a = b.
Proof.
  revert b. induction a as [| x a IH]; intros [| y b] H.
  - reflexivity.
  - rewrite append_nil_l, append_cons in H. injection H as _ H.
    destruct b; discriminate.
  - rewrite append_nil_l, append_cons in H. injection H as _ H.
    destruct a; discriminate.
  - rewrite !append_cons in H. injection H as -> H. f_equal. now apply IH.
Qed.

Lemma include_line_inj a b : include_line a = include_line b -> a = b.
Proof.
  unfold include_line. intros H.
  apply (inj (String.app "#include <")) in H. now apply append_inj_gt.
Qed.

Lemma existsb_eqb_In k l : existsb (String.eqb k) l = true <-> In k l.
Proof.
  rewrite existsb_exists. split.
  - intros (x & H & E). apply String.eqb_eq in E. now subst.
  - intros H. exists k. split; [exact H | apply String.eqb_refl].
Qed.

Lemma NoDup_stdlib {A} (l : list A) : base.NoDup l -> List.NoDup l.
Proof.
  induction 1 as [| x l Hx Hnd IH]; constructor; [| exact IH].
  intros Hin. apply Hx. now apply list_elem_of_In.
Qed.

(** ** Dicts *)

Lemma dict_set_keys {V} k (v : V) d :
  map fst (dict_set k v d) =
  if existsb (String.eqb k) (map fst d) then map fst d else map fst d ++ [k].
Proof.
  induction d as [| [k' v'] d IH]; simpl; [reflexivity |].
  rewrite (String.eqb_sym k k').
  destruct (String.eqb k' k) eqn:E; simpl; [reflexivity |].
  rewrite IH. now destruct (existsb _ _).
Qed.

Lemma dict_has_keys {V} k (d : list (string * V)) :
  dict_has k d = existsb (String.eqb k) (map fst d).
Proof.
  unfold dict_has. induction d as [| [k' v'] d IH]; simpl; [reflexivity |].
  rewrite (String.eqb_sym k k').
  destruct (String.eqb k' k); simpl; [reflexivity | exact IH].
Qed.

Lemma dict_get_In {V} k (v : V) d : dict_get k d = Some v -> In (k, v) d.
Proof.
  induction d as [| [k' v'] d IH]; simpl; [discriminate |].
  destruct (String.eqb k' k) eqn:E.
  - apply String.eqb_eq in E. intros [= ->]. left. now subst.
  - intros H. right. now apply IH.
Qed.

(** The keys of a dict filled by a loop of assignments: the keys it had,
    then the new keys in the order of their first assignment. *)
Lemma dict_fill_keys {A V} (key : A -> string) (val : A -> V) l d :
  map fst (fold_left (fun d m => dict_set (key m) (val m) d) l d) =
  map fst d ++ first_appearances (map fst d) (map key l).
Proof.
  revert d. induction l as [| m l IH]; intros d; simpl.
  - now rewrite List.app_nil_r.
  - rewrite IH, dict_set_keys.
    destruct (existsb (String.eqb (key m)) (map fst d)); [reflexivity |].
    now rewrite <- List.app_assoc.
Qed.

Lemma first_appearances_subset seen l x :
  In x (first_appearances seen l) -> In x l.
Proof.
  revert seen. induction l as [| y l IH]; intros seen; simpl; [tauto |].
  destruct (existsb _ _); simpl; [right; eauto |].
  intros [-> | H]; [now left | right; eauto].
Qed.

(** In a table whose values are distinct, a value has one key. *)
Lemma NoDup_snd_inj {K V} (d : list (K * V)) k1 k2 v :
  List.NoDup (map snd d) -> In (k1, v) d -> In (k2, v) d -> k1 = k2.
Proof.
  induction d as [| [k' v'] d IH]; simpl; [tauto |].
  intros Hnd. inversion Hnd as [| ? ? Hn Hd]; subst.
  intros [E1 | H1] [E2 | H2].
  - congruence.
  - exfalso. apply Hn. apply (in_map snd) in H2. simpl in H2. congruence.
  - exfalso. apply Hn. apply (in_map snd) in H1. simpl in H1. congruence.
  - now apply IH.
Qed.

(** ** The catalog

    What each call of [translate] before the emitters leaves in
    [includes] and [defines]. *)

Lemma fold_left_preserves {A S B : Type} (proj : S -> B) (f : S -> A -> S) l s :
  (forall s x, proj (f s x) = proj s) -> proj (fold_left f l s) = proj s.
Proof.
  intros H. revert s. induction l as [| x l IH]; intros s; simpl; [reflexivity |].
  now rewrite IH, H.
Qed.

Lemma includes_identify_includes c self :
  includes (identify_includes c self) = list_to_set (included_headers c).
Proof.
  unfold identify_includes, included_headers.
  destruct (Re.search precision_pattern c); reflexivity.
Qed.

Lemma defines_identify_includes c self :
  defines (identify_includes c self) = defines self.
Proof.
  unfold identify_includes. destruct (Re.search precision_pattern c); reflexivity.
Qed.

Lemma includes_identify_defines c self :
  includes (identify_defines c self) = includes self.
Proof. unfold identify_defines. now apply fold_left_preserves. Qed.

Lemma includes_identify_structs c self :
  includes (identify_structs c self) = includes self.
Proof. unfold identify_structs. now apply fold_left_preserves. Qed.

Lemma defines_identify_structs c self :
  defines (identify_structs c self) = defines self.
Proof. unfold identify_structs. now apply fold_left_preserves. Qed.

Lemma includes_identify_struct_functions c self :
  includes (identify_struct_functions c self) = includes self.
Proof.
  unfold identify_struct_functions. apply fold_left_preserves.
  intros s x. now apply fold_left_preserves.
Qed.

Lemma defines_identify_struct_functions c self :
  defines (identify_struct_functions c self) = defines self.
Proof.
  unfold identify_struct_functions. apply fold_left_preserves.
  intros s x. now apply fold_left_preserves.
Qed.

Lemma defines_identify_defines c self :
  defines (identify_defines c self) =
  fold_left (fun d m => dict_set (g 0 m) (strip (g 1 m)) d)
            (Re.findall define_pattern c) (defines self).
Proof.
  unfold identify_defines. generalize (Re.findall define_pattern c) as l.
  intros l. revert self. induction l as [| m l IH]; intros self; simpl; [reflexivity |].
  now rewrite IH.
Qed.

Lemma includes_catalog c self :
  includes (catalog c self) = list_to_set (included_headers c).
Proof.
  unfold catalog.
  rewrite includes_identify_struct_functions, includes_identify_structs.
  destruct (_is_simple_program c); simpl;
    rewrite ?includes_identify_defines; apply includes_identify_includes.
Qed.

Lemma defines_catalog c self :
  defines (catalog c self) = defines (identify_defines c self).
Proof.
  unfold catalog.
  rewrite defines_identify_struct_functions, defines_identify_structs.
  assert (H : defines (identify_defines c (identify_includes c self))
              = defines (identify_defines c self)).
  { now rewrite !defines_identify_defines, defines_identify_includes. }
  destruct (_is_simple_program c); simpl; exact H.
Qed.

Lemma includes_of_input c h :
  h ∈ includes (catalog c init) <-> In h (included_headers c).
Proof. rewrite includes_catalog, elem_of_list_to_set. apply list_elem_of_In. Qed.

(** The macros of a fresh translator are the names the input defines, each
    at the place of its first definition. *)
Lemma defined_keys c :
  map fst (defines (catalog c init)) = first_appearances [] (defined_names c).
Proof.
  rewrite defines_catalog, defines_identify_defines.
  rewrite (dict_fill_keys (g 0) (fun m => strip (g 1 m))). reflexivity.
Qed.

(** ** The assembler *)

Lemma locate_main_none c :
  no_main_signature c \/ unbalanced_main c <-> locate_main c = None.
Proof.
  unfold no_main_signature, unbalanced_main, locate_main. split.
  - intros [H | (m & H & Hb)]; rewrite H; [reflexivity |].
    destruct (find c "{" (Re.m_start m)); [| reflexivity].
    now rewrite Hb.
  - destruct (Re.search main_signature_pattern c) as [m |]; [| now left].
    intros H. right. exists m. split; [reflexivity |].
    destruct (find c "{" (Re.m_start m)) as [ob |]; [| exact I].
    destruct (close_brace _ _ _); [discriminate | reflexivity].
Qed.

(** [translate] without the monad: the catalog, the lines up to the
    classes and globals, then the free functions and [main], either of
    which may raise. *)
Lemma translate_unfold c :
  translate c =
  result_map (join nl)
    (match _translate_functions c (catalog c init) with
     | Ok (fs, self) =>
       match _translate_main_function c self with
       | Ok (mn, _) => Ok (head_lines (catalog c init) ++ fs ++ mn)
       | Raise e => Raise e
       end
     | Raise e => Raise e
     end).
Proof.
  unfold translate, translate_lines, run, bind, modify, get, ret.
  cbv beta iota.
  destruct (_translate_functions c (catalog c init)) as [[fs self] | e]; [| reflexivity].
  destruct (_translate_main_function c self) as [[mn self'] | e]; reflexivity.
Qed.

(** C1, as the code has it: when no signature of main is found, or no
    opening brace after it, or no closing brace that balances it, the
    main section is empty and translate does not fail on that account.  It
    returns the text of the other sections: the header lines, constants,
    namespace directive, classes and globals of the catalog, then the free
    functions. *)
Theorem C1_no_main_no_failure c :
  no_main_signature c \/ unbalanced_main c ->
  (forall self, _translate_main_function c self = Ok ([], self)) /\
  translate c =
  result_map (fun fs => join nl (head_lines (catalog c init) ++ fs))
             (run (_translate_functions c) (catalog c init)).
Proof.
  intros H. apply locate_main_none in H.
  assert (Hm : forall self, _translate_main_function c self = Ok ([], self)).
  { intros self. unfold _translate_main_function. now rewrite H. }
  split; [exact Hm |].
  rewrite translate_unfold. unfold run.
  destruct (_translate_functions c (catalog c init)) as [[fs self] | e]; [| reflexivity].
  rewrite Hm. unfold result_map, result_bind. now rewrite List.app_nil_r.
Qed.

Lemma C1_witness :
  (no_main_signature no_main_input \/ unbalanced_main no_main_input) /\
  ((forall self, _translate_main_function no_main_input self = Ok ([], self)) /\
   translate no_main_input =
   result_map (fun fs => join nl (head_lines (catalog no_main_input init) ++ fs))
              (run (_translate_functions no_main_input) (catalog no_main_input init))).
Proof.
  assert (H : no_main_signature no_main_input \/ unbalanced_main no_main_input)
    by (left; vm_compute; reflexivity).
  split; [exact H | exact (C1_no_main_no_failure no_main_input H)].
Defined.

(** C1, as the claim states it, fails: on an input without main the
    translation does not fail, it returns the includes, the constants and
    the namespace directive. *)
Lemma C1_counterexample :
  no_main_signature no_main_input /\
  translate no_main_input =
  Ok (join nl [ "// C++ style includes"; "#include <algorithm>"; EmptyString;
                "// Constants (converted from #define)"; "const int N = 5;";
                EmptyString;
                "// Using standard namespace"; "using namespace std;";
                EmptyString ]).
Proof. split; vm_compute; reflexivity. Qed.

(** The same for a main whose braces do not balance. *)
Example unbalanced_main_output :
  unbalanced_main unbalanced_input /\
  translate unbalanced_input =
  Ok (join nl [ "// C++ style includes"; "#include <algorithm>"; EmptyString;
                "// Constants (converted from #define)"; "const int N = 5;";
                EmptyString;
                "// Using standard namespace"; "using namespace std;";
                EmptyString ]).
Proof.
  split; [| vm_compute; reflexivity].
  eexists. split; [vm_compute; reflexivity |]. vm_compute. reflexivity.
Qed.

(** C10: whenever the main section is emitted, its second line is the
    fixed signature with argc and argv, whatever parameter list the input
    gives main, and only the third line, the rewritten text between the
    braces located in the input, comes from the input. *)
Theorem C10_main_signature c self lines self' :
  _translate_main_function c self = Ok (lines, self') ->
  (locate_main c = None /\ lines = []) \/
  (exists open_brace_pos close_brace_pos cpp_body,
     locate_main c = Some (open_brace_pos, close_brace_pos) /\
     _process_function_body (slice c (S open_brace_pos) close_brace_pos) self
       = Ok (cpp_body, self') /\
     lines = [ "// Main function"; main_signature_line; cpp_body; "}" ]).
Proof.
  unfold _translate_main_function.
  destruct (locate_main c) as [[ob cb] |] eqn:E.
  - unfold bind, ret.
    destruct (_process_function_body (slice c (S ob) cb) self)
      as [[b s1] | e] eqn:Eb; [| discriminate].
    intros [= <- <-]. right. exists ob, cb, b. auto.
  - intros [= <- <-]. now left.
Qed.

Lemma C10_witness :
  _translate_main_function main_void_input init
    = Ok ([ "// Main function"; main_signature_line; " return 0; "; "}" ], init) /\
  ((locate_main main_void_input = None /\
    [ "// Main function"; main_signature_line; " return 0; "; "}" ] = []) \/
   (exists open_brace_pos close_brace_pos cpp_body,
      locate_main main_void_input = Some (open_brace_pos, close_brace_pos) /\
      _process_function_body
        (slice main_void_input (S open_brace_pos) close_brace_pos) init
        = Ok (cpp_body, init) /\
      [ "// Main function"; main_signature_line; " return 0; "; "}" ]
      = [ "// Main function"; main_signature_line; cpp_body; "}" ])).
Proof.
  assert (H : _translate_main_function main_void_input init
    = Ok ([ "// Main function"; main_signature_line; " return 0; "; "}" ], init))
    by (vm_compute; reflexivity).
  split; [exact H | exact (C10_main_signature main_void_input init _ init H)].
Defined.

(** The two parameter lists the claim names give the same section. *)
Example main_parameter_lists :
  run (_translate_main_function main_void_input) init
  = Ok [ "// Main function"; "int main(int argc, char* argv[]) {";
         " return 0; "; "}" ] /\
  run (_translate_main_function main_empty_input) init
  = Ok [ "// Main function"; "int main(int argc, char* argv[]) {";
         " return 0; "; "}" ].
Proof. split; vm_compute; reflexivity. Qed.

(** ** Math constants *)

Lemma math_constants_emitted c :
  In "math.h" (included_headers c) -> ~ In "PI" (defined_names c) ->
  math_constants (catalog c init)
  = [ EmptyString; "// Common math constants"; pi_line; e_line ].
Proof.
  intros Hm Hp. unfold math_constants.
  rewrite includes_catalog, dict_has_keys, defined_keys.
  rewrite bool_decide_eq_true_2.
  2:{ apply elem_of_list_to_set, list_elem_of_In, Hm. }
  destruct (existsb _ _) eqn:E; [| reflexivity].
  exfalso. apply Hp. apply existsb_eqb_In in E.
  eapply first_appearances_subset, E.
Qed.

(** C9: when the input includes math.h and defines no macro PI, the
    declarations of PI and E are among the lines collected before the
    free functions, one after the other, and every text translate returns
    holds them on two consecutive lines. *)
Theorem C9_math_constants c :
  In "math.h" (included_headers c) -> ~ In "PI" (defined_names c) ->
  (exists pre post,
     head_lines (catalog c init) = pre ++ pi_line :: e_line :: post) /\
  (forall out, translate c = Ok out -> occurs (pi_line +:+ nl +:+ e_line) out).
Proof.
  intros Hm Hp.
  assert (H : exists pre post,
     head_lines (catalog c init) = pre ++ pi_line :: e_line :: post).
  { unfold head_lines. rewrite (math_constants_emitted c Hm Hp).
    exists (_translate_includes (catalog c init) ++ [EmptyString]
              ++ section (_translate_defines (catalog c init))
              ++ ["// Using standard namespace"; "using namespace std;"]
              ++ [EmptyString; "// Common math constants"]),
           ([EmptyString]
              ++ section (_translate_structs_to_classes (catalog c init))
              ++ section (_translate_global_variables (catalog c init))).
    repeat rewrite <- List.app_assoc. reflexivity. }
  split; [exact H |].
  destruct H as (pre & post & H). intros out.
  rewrite translate_unfold, H.
  destruct (_translate_functions c (catalog c init)) as [[fs s1] | e]; [| discriminate].
  destruct (_translate_main_function c s1) as [[mn s2] | e]; [| discriminate].
  unfold result_map, result_bind. intros [= <-].
  rewrite <- List.app_assoc. simpl app.
  apply join_occurs_pair.
Qed.

Lemma C9_witness :
  (In "math.h" (included_headers math_input) /\
   ~ In "PI" (defined_names math_input)) /\
  ((exists pre post,
      head_lines (catalog math_input init) = pre ++ pi_line :: e_line :: post) /\
   (forall out, translate math_input = Ok out ->
                occurs (pi_line +:+ nl +:+ e_line) out)).
Proof.
  assert (H1 : In "math.h" (included_headers math_input))
    by (vm_compute; left; reflexivity).
  assert (H2 : ~ In "PI" (defined_names math_input))
    by (vm_compute; intros []).
  split; [split; assumption | exact (C9_math_constants math_input H1 H2)].
Defined.

(** The whole output for that input; translate does return. *)
Example math_input_output :
  translate math_input =
  Ok (join nl [ "// C++ style includes"; "#include <algorithm>"; "#include <cmath>";
                EmptyString;
                "// Using standard namespace"; "using namespace std;";
                EmptyString;
                "// Common math constants"; pi_line; e_line;
                EmptyString;
                "// Main function"; "int main(int argc, char* argv[]) {";
                " return 0; "; "}" ]).
Proof. vm_compute. reflexivity. Qed.

(** ** Constants *)

(** The tests of the code, character by character. *)
Lemma startswith_dquote value :
  startswith value dq = is_dquote (first_char value).
Proof.
  destruct value as [| c t]; [reflexivity |].
  cbn [first_char is_dquote]. unfold dq, str1. cbn [startswith].
  replace (startswith t EmptyString) with true by (destruct t; reflexivity).
  rewrite andb_true_r.
  destruct c as [[] [] [] [] [] [] [] []]; reflexivity.
Qed.

Lemma endswith_dquote value :
  endswith value dq = is_dquote (last_char value).
Proof.
  destruct value as [| c t]; [reflexivity |].
  revert c. induction t as [| d t IH]; intros c.
  - unfold endswith. cbn. rewrite andb_true_r.
    destruct c as [[] [] [] [] [] [] [] []]; reflexivity.
  - change (last_char (String c (String d t))) with (last_char (String d t)).
    rewrite <- IH. unfold endswith, len, dq, str1.
    cbn [String.length Nat.leb Nat.sub drop andb].
    now rewrite Nat.sub_0_r.
Qed.

Lemma contains_point value : contains "." value = has_decimal_point value.
Proof.
  unfold contains.
  assert (G : forall i, match find_at "." value i with
                        | Some _ => true | None => false end
                        = has_decimal_point value).
  { induction value as [| c t IH]; intros i; [reflexivity |].
    cbn [find_at startswith has_decimal_point].
    replace (startswith t EmptyString) with true by (destruct t; reflexivity).
    rewrite andb_true_r.
    replace (Ascii.eqb "." c) with (nat_of_ascii c =? 46)
      by (destruct c as [[] [] [] [] [] [] [] []]; reflexivity).
    destruct (nat_of_ascii c =? 46); [reflexivity | apply IH]. }
  apply G.
Qed.

Lemma isdigit_char c : Chr.isdigit c = decimal_digit c || superscript_digit c.
Proof. destruct c as [[] [] [] [] [] [] [] []]; reflexivity. Qed.

Lemma isdigit_all_digits value : isdigit value = all_digits value.
Proof.
  destruct value as [| c t]; [reflexivity |].
  unfold isdigit, all_digits. generalize (String c t) as s. intros s.
  induction s as [| x s IH]; [reflexivity |].
  cbn [all_chars digits_only]. now rewrite isdigit_char, IH.
Qed.

(** The chain of tests of the code is the classification by shape. *)
Lemma define_line_spec name value :
  define_line name value = constant_declaration name value.
Proof.
  unfold define_line, constant_declaration, kind_of_value, is_quoted_literal.
  rewrite startswith_dquote, endswith_dquote, contains_point, isdigit_all_digits.
  destruct (is_dquote (first_char value) && is_dquote (last_char value));
    [reflexivity |].
  destruct (has_decimal_point value); [reflexivity |].
  destruct (all_digits value); reflexivity.
Qed.






(** ** Header lines *)

Lemma include_lines_spec include :
  include_lines include =
  if String.eqb include "functional" then []
  else [include_line (cpp_header include)].
Proof.
  unfold include_lines, cpp_header.
  destruct (String.eqb include "functional"); [reflexivity |].
  destruct (dict_get include c_to_cpp_headers); reflexivity.
Qed.

Lemma table_values_distinct : List.NoDup (map snd c_to_cpp_headers).
Proof.
  apply (NoDup_count_occ' String.string_dec).
  intros x Hx. simpl in Hx.
  repeat (destruct Hx as [<- | Hx]; [vm_compute; reflexivity |]). destruct Hx.
Qed.

(** No mapped name is one of the three headers emitted outside the
    loop. *)
Lemma table_values_not_fixed :
  Forall (fun kv => snd kv <> "algorithm" /\ snd kv <> "iomanip"
                    /\ snd kv <> "functional") c_to_cpp_headers.
Proof. repeat constructor; discriminate. Qed.

(** How often the loop over a list of distinct names emits the line of
    [h]: once, when no other name of the list is emitted under the same
    name. *)
Lemma loop_emits_once (l : list string) (h : string) :
  List.NoDup l -> In h l -> h <> "functional" ->
  (forall h', In h' l -> h' <> "functional" ->
              cpp_header h' = cpp_header h -> h' = h) ->
  count_occ String.string_dec (concat (map include_lines l))
            (include_line (cpp_header h)) = 1.
Proof.
  induction 1 as [| x l' Hx Hnd IH]; intros Hin Hf Hu; [destruct Hin |].
  cbn [map concat]. rewrite count_occ_app, include_lines_spec.
  destruct (String.eqb x "functional") eqn:Ef.
  - apply String.eqb_eq in Ef. rewrite count_occ_nil, Nat.add_0_l.
    destruct Hin as [-> | Hin]; [congruence |].
    apply IH; auto. intros h' H1. apply Hu. now right.
  - apply String.eqb_neq in Ef.
    destruct (String.string_dec (cpp_header x) (cpp_header h)) as [E | E].
    + assert (x = h) by (apply Hu; [now left | assumption | assumption]). subst x.
      rewrite count_occ_cons_eq, count_occ_nil by reflexivity.
      cbn [Nat.add]. f_equal. apply count_occ_not_In. intros Hc.
      apply in_concat in Hc as (ls & Hls & Hc).
      apply in_map_iff in Hls as (y & <- & Hy).
      rewrite include_lines_spec in Hc.
      destruct (String.eqb y "functional") eqn:Ey; [destruct Hc |].
      apply String.eqb_neq in Ey.
      destruct Hc as [Hc | []]. apply include_line_inj in Hc.
      assert (y = h) by (apply Hu; [now right | assumption | assumption]).
      subst y. contradiction.
    + rewrite count_occ_cons_neq, count_occ_nil, Nat.add_0_l.
      2:{ intros Hc. apply include_line_inj in Hc. contradiction. }
      destruct Hin as [-> | Hin]; [congruence |].
      apply IH; auto. intros h' H1. apply Hu. now right.
Qed.

(** The line of [h] among all header lines: the fixed lines in front of
    the loop are not the line of a name other than theirs. *)
Lemma header_line_once self h :
  h ∈ includes self -> h <> "functional" ->
  cpp_header h <> "algorithm" -> cpp_header h <> "iomanip" ->
  cpp_header h <> "functional" ->
  (forall h', h' ∈ includes self -> h' <> "functional" ->
              cpp_header h' = cpp_header h -> h' = h) ->
  count_occ String.string_dec (_translate_includes self)
            (include_line (cpp_header h)) = 1.
Proof.
  intros Hin Hf Ha Hi Hfn Hu. unfold _translate_includes.
  rewrite !count_occ_app.
  rewrite (loop_emits_once (elements (includes self)) h); auto.
  - assert (Hfix : forall x, cpp_header h <> x ->
              count_occ String.string_dec [include_line x]
                        (include_line (cpp_header h)) = 0).
    { intros x Hx. rewrite count_occ_cons_neq; [reflexivity |].
      intros Hc. apply include_line_inj in Hc. congruence. }
    rewrite count_occ_cons_neq, count_occ_nil by (unfold include_line; discriminate).
    change ["#include <algorithm>"] with [include_line "algorithm"].
    rewrite (Hfix "algorithm") by assumption.
    destruct (needs_iomanip self).
    + change ["#include <iomanip>"] with [include_line "iomanip"].
      rewrite (Hfix "iomanip") by assumption.
      destruct (bool_decide _); [| reflexivity].
      change ["#include <functional>"] with [include_line "functional"].
      now rewrite (Hfix "functional") by assumption.
    + destruct (bool_decide _); [| reflexivity].
      change ["#include <functional>"] with [include_line "functional"].
      now rewrite (Hfix "functional") by assumption.
  - apply NoDup_stdlib, NoDup_elements.
  - apply list_elem_of_In, elem_of_elements, Hin.
  - intros h' H1. apply Hu. apply elem_of_elements, list_elem_of_In, H1.
Qed.

Lemma header_line_emitted self h :
  h ∈ includes self ->
  In (include_line (cpp_header h)) (_translate_includes self).
Proof.
  intros Hin. unfold _translate_includes.
  apply in_or_app. right. apply in_or_app.
  destruct (String.eqb h "functional") eqn:Hf.
  - apply String.eqb_eq in Hf. subst h. right. apply in_or_app. left.
    rewrite bool_decide_eq_true_2 by exact Hin. now left.
  - right. apply in_or_app. right. apply in_or_app. right. apply in_concat.
    exists (include_lines h). split.
    + apply in_map, list_elem_of_In, elem_of_elements, Hin.
    + rewrite include_lines_spec, Hf. now left.
Qed.

Lemma needs_iomanip_catalog c :
  needs_iomanip (catalog c init)
  = match Re.search precision_pattern c with Some _ => true | None => false end.
Proof.
  unfold catalog.
  assert (H1 : forall s, needs_iomanip (identify_struct_functions c s) = needs_iomanip s).
  { intros s. unfold identify_struct_functions. apply fold_left_preserves.
    intros s' x. now apply fold_left_preserves. }
  assert (H2 : forall s, needs_iomanip (identify_structs c s) = needs_iomanip s).
  { intros s. unfold identify_structs. now apply fold_left_preserves. }
  assert (H3 : forall s, needs_iomanip (identify_defines c s) = needs_iomanip s).
  { intros s. unfold identify_defines. now apply fold_left_preserves. }
  rewrite H1, H2.
  assert (H4 : needs_iomanip (identify_includes c init)
               = match Re.search precision_pattern c with
                 | Some _ => true | None => false end).
  { unfold identify_includes. destruct (Re.search precision_pattern c); reflexivity. }
  destruct (_is_simple_program c); simpl; now rewrite H3, H4.
Qed.

(** ** The count of a header line *)

Lemma c_header_of_get x h :
  c_header_of x = Some h <-> dict_get h c_to_cpp_headers = Some x.
Proof.
  split.
  - unfold c_header_of. intros H.
    destruct (List.find _ c_to_cpp_headers) as [[k v] |] eqn:E; [| discriminate].
    injection H as ->. apply find_some in E as [E Ev].
    apply String.eqb_eq in Ev. cbn [snd] in Ev. subst v.
    unfold c_to_cpp_headers in E. cbn [In] in E.
    repeat (destruct E as [E | E]; [injection E as <- <-; reflexivity |]).
    destruct E.
  - intros H. apply dict_get_In in H.
    unfold c_to_cpp_headers in H. cbn [In] in H.
    repeat (destruct H as [H | H]; [injection H as <- <-; reflexivity |]).
    destruct H.
Qed.

Lemma key_of_spec a x : key_of a x = true <-> c_header_of x = Some a.
Proof.
  rewrite c_header_of_get. unfold key_of.
  destruct (dict_get a c_to_cpp_headers) as [v |]; [| split; discriminate].
  rewrite String.eqb_eq. split; [now intros -> | now intros [= ->]].
Qed.

Lemma include_lines_count a x :
  count_occ String.string_dec (include_lines a) (include_line x)
  = one_if (own_at a x || key_of a x).
Proof.
  rewrite include_lines_spec. unfold own_at, key_of, cpp_header, dict_has.
  destruct (String.eqb a "functional") eqn:Ef.
  - apply String.eqb_eq in Ef. subst a. cbn [dict_get c_to_cpp_headers].
    replace (dict_get "functional" c_to_cpp_headers) with (@None string)
      by reflexivity.
    destruct (String.eqb x "functional"); reflexivity.
  - apply String.eqb_neq in Ef.
    destruct (dict_get a c_to_cpp_headers) as [v |] eqn:Ea.
    + destruct (String.eqb x a) eqn:Exa.
      * apply String.eqb_eq in Exa. subst x. rewrite Ea.
        rewrite andb_false_r. cbn [orb].
        destruct (String.eqb v a) eqn:Ev.
        -- apply String.eqb_eq in Ev. subst v.
           now rewrite count_occ_cons_eq.
        -- apply String.eqb_neq in Ev. rewrite count_occ_cons_neq; [reflexivity |].
           intros H. apply include_line_inj in H. contradiction.
      * cbn [andb orb]. destruct (String.eqb v x) eqn:Ev.
        -- apply String.eqb_eq in Ev. subst v. now rewrite count_occ_cons_eq.
        -- apply String.eqb_neq in Ev. rewrite count_occ_cons_neq; [reflexivity |].
           intros H. apply include_line_inj in H. contradiction.
    + rewrite orb_false_r. destruct (String.eqb x a) eqn:Exa.
      * apply String.eqb_eq in Exa. subst x. rewrite Ea.
        apply String.eqb_neq in Ef. rewrite Ef. cbn.
        destruct (String.string_dec _ _); [reflexivity | contradiction].
      * apply String.eqb_neq in Exa. cbn [andb one_if].
        rewrite count_occ_cons_neq; [reflexivity |].
        intros H. apply include_line_inj in H. congruence.
Qed.

Lemma own_in_cons a l x : own_in (a :: l) x = own_at a x || own_in l x.
Proof.
  unfold own_in, own_at. cbn [existsb].
  destruct (String.eqb x a), (existsb (String.eqb x) l),
    (String.eqb x "functional"), (dict_has x c_to_cpp_headers); reflexivity.
Qed.

Lemma mapped_in_cons a l x : mapped_in (a :: l) x = key_of a x || mapped_in l x.
Proof.
  unfold mapped_in. destruct (c_header_of x) as [h |] eqn:E.
  - cbn [existsb]. f_equal.
    destruct (String.eqb h a) eqn:Eh.
    + apply String.eqb_eq in Eh. subst h. symmetry. now apply key_of_spec.
    + symmetry. apply not_true_is_false. intros H. apply key_of_spec in H.
      apply String.eqb_neq in Eh. congruence.
  - rewrite orb_false_r. symmetry. apply not_true_is_false. intros H.
    apply key_of_spec in H. congruence.
Qed.

(** The loop over distinct names: a line comes from the name itself or
    from the header mapped to it. *)
Lemma loop_count (l : list string) (x : string) :
  List.NoDup l ->
  count_occ String.string_dec (concat (map include_lines l)) (include_line x)
  = one_if (own_in l x) + one_if (mapped_in l x).
Proof.
  induction 1 as [| a l Ha Hnd IH].
  - unfold own_in, mapped_in. cbn. now destruct (c_header_of x).
  - cbn [map concat]. rewrite count_occ_app, IH, include_lines_count.
    rewrite own_in_cons, mapped_in_cons.
    assert (Hu : own_at a x = true -> own_in l x = false /\ key_of a x = false).
    { unfold own_at, own_in, key_of. intros H.
      apply andb_true_iff in H as [H Hd]. apply andb_true_iff in H as [H _].
      apply String.eqb_eq in H. subst x. split.
      - replace (existsb (String.eqb a) l) with false; [reflexivity |].
        symmetry. apply not_true_is_false. intros H.
        apply existsb_eqb_In in H. contradiction.
      - unfold dict_has in Hd.
        destruct (dict_get a c_to_cpp_headers); [discriminate | reflexivity]. }
    assert (Hk : key_of a x = true -> mapped_in l x = false).
    { intros H. apply key_of_spec in H. unfold mapped_in. rewrite H.
      apply not_true_is_false. intros Hm. apply existsb_eqb_In in Hm. contradiction. }
    destruct (own_at a x), (key_of a x), (own_in l x), (mapped_in l x);
      try reflexivity;
      try (destruct Hu as [Hu1 Hu2]; [reflexivity |]; discriminate);
      try (specialize (Hk eq_refl); discriminate).
Qed.

Lemma fixed_line_count y x :
  count_occ String.string_dec [include_line y] (include_line x)
  = one_if (String.eqb x y).
Proof.
  destruct (String.eqb x y) eqn:E.
  - apply String.eqb_eq in E. subst. now rewrite count_occ_cons_eq.
  - apply String.eqb_neq in E. rewrite count_occ_cons_neq; [reflexivity |].
    intros H. apply include_line_inj in H. congruence.
Qed.

Lemma written_includes c h :
  written c h = bool_decide (h ∈ includes (catalog c init)).
Proof.
  unfold written. case_bool_decide as Hd.
  - apply existsb_eqb_In. now apply includes_of_input.
  - apply not_true_is_false. intros H. apply Hd.
    apply includes_of_input. now apply existsb_eqb_In.
Qed.

Lemma written_elements c h :
  existsb (String.eqb h) (elements (includes (catalog c init))) = written c h.
Proof.
  rewrite written_includes. case_bool_decide as Hd.
  - apply existsb_eqb_In, list_elem_of_In, elem_of_elements, Hd.
  - apply not_true_is_false. intros H. apply Hd.
    apply elem_of_elements, list_elem_of_In. now apply existsb_eqb_In.
Qed.

(** How often each header line is emitted. *)
Lemma header_line_count_spec c x :
  count_occ String.string_dec (_translate_includes (catalog c init))
            (include_line x)
  = header_line_count c x.
Proof.
  unfold _translate_includes, header_line_count. rewrite !count_occ_app.
  rewrite count_occ_cons_neq, count_occ_nil by (unfold include_line; discriminate).
  rewrite loop_count by apply NoDup_stdlib, NoDup_elements.
  unfold own_in, mapped_in. rewrite written_elements.
  replace (match c_header_of x with
           | Some h => existsb (String.eqb h) (elements (includes (catalog c init)))
           | None => false
           end)
    with (match c_header_of x with
          | Some h => written c h
          | None => false
          end)
    by (destruct (c_header_of x); [now rewrite written_elements | reflexivity]).
  change ["#include <algorithm>"] with [include_line "algorithm"].
  rewrite fixed_line_count, needs_iomanip_catalog.
  assert (H1 : count_occ String.string_dec
                 (if match Re.search precision_pattern c with
                     | Some _ => true | None => false end
                  then ["#include <iomanip>"] else []) (include_line x)
               = one_if (String.eqb x "iomanip"
                         && match Re.search precision_pattern c with
                            | Some _ => true | None => false end)).
  { destruct (Re.search precision_pattern c).
    - change ["#include <iomanip>"] with [include_line "iomanip"].
      now rewrite fixed_line_count, andb_true_r.
    - now rewrite andb_false_r. }
  assert (H2 : count_occ String.string_dec
                 (if bool_decide ("functional" ∈ includes (catalog c init))
                  then ["#include <functional>"] else []) (include_line x)
               = one_if (String.eqb x "functional"
                         && bool_decide ("functional" ∈ includes (catalog c init)))).
  { destruct (bool_decide _).
    - change ["#include <functional>"] with [include_line "functional"].
      now rewrite fixed_line_count, andb_true_r.
    - now rewrite andb_false_r. }
  rewrite H1, H2, <- written_includes. lia.
Qed.

(** C6, as the code has it: a header of the table that the input
    includes, once or repeatedly, is emitted under its mapped name, and
    exactly once provided the input does not also include a header spelled
    as that mapped name; a header absent from the table passes through
    unchanged.  The names written in the input are kept in a set, so a
    repeated header gives one line; the lines themselves are not
    deduplicated: the line of a name is emitted once for each of its
    sources, which are the fixed line of algorithm, the line of iomanip
    for a precision specifier, the line of functional, the name itself
    written in the input when it is no header of the table, and the
    header of the table mapped to the name when the input includes it. *)
Theorem C6_header_lines c h :
  In h (included_headers c) ->
  (forall cpp, dict_get h c_to_cpp_headers = Some cpp ->
     In (include_line cpp) (_translate_includes (catalog c init)) /\
     (~ In cpp (included_headers c) ->
      count_occ String.string_dec (_translate_includes (catalog c init))
                (include_line cpp) = 1)) /\
  (dict_get h c_to_cpp_headers = None ->
     In (include_line h) (_translate_includes (catalog c init))) /\
  (forall x,
     count_occ String.string_dec (_translate_includes (catalog c init))
               (include_line x)
     = header_line_count c x).
Proof.
  intros Hin. apply includes_of_input in Hin. split; [| split].
  - intros cpp Hcpp.
    assert (Hh : cpp_header h = cpp) by (unfold cpp_header; now rewrite Hcpp).
    assert (Hf : h <> "functional") by (intros ->; discriminate Hcpp).
    pose proof (dict_get_In _ _ _ Hcpp) as Ht.
    pose proof (proj1 (List.Forall_forall _ _) table_values_not_fixed _ Ht)
      as (Ha & Hi & Hfn).
    simpl in Ha, Hi, Hfn. rewrite <- Hh. split.
    + now apply header_line_emitted.
    + intros Hn. apply header_line_once; rewrite ?Hh; auto.
      intros h' Hin' Hf' Heq. unfold cpp_header in Heq at 1.
      destruct (dict_get h' c_to_cpp_headers) as [cpp' |] eqn:E'.
      * subst cpp'. apply dict_get_In in E'.
        eapply NoDup_snd_inj; [apply table_values_distinct | exact E' | exact Ht].
      * subst h'. exfalso. apply Hn. apply includes_of_input. now rewrite Hh.
  - intros Hnone.
    replace h with (cpp_header h) at 1 by (unfold cpp_header; now rewrite Hnone).
    now apply header_line_emitted.
  - intros x. apply header_line_count_spec.
Qed.

Lemma C6_witness :
  In "stdio.h" (included_headers repeated_input) /\
  ((forall cpp, dict_get "stdio.h" c_to_cpp_headers = Some cpp ->
      In (include_line cpp) (_translate_includes (catalog repeated_input init)) /\
      (~ In cpp (included_headers repeated_input) ->
       count_occ String.string_dec
                 (_translate_includes (catalog repeated_input init))
                 (include_line cpp) = 1)) /\
   (dict_get "stdio.h" c_to_cpp_headers = None ->
      In (include_line "stdio.h")
         (_translate_includes (catalog repeated_input init))) /\
   (forall x,
      count_occ String.string_dec
                (_translate_includes (catalog repeated_input init))
                (include_line x)
      = header_line_count repeated_input x)).
Proof.
  assert (H : In "stdio.h" (included_headers repeated_input))
    by (vm_compute; left; reflexivity).
  split; [exact H | exact (C6_header_lines repeated_input "stdio.h" H)].
Defined.

(** C6, as the claim states it, fails: string.h is in the table, and
    an input that includes it and also includes string gets the line of
    the mapped name twice. *)
Lemma C6_counterexample :
  In "string.h" (included_headers string_twice_input) /\
  dict_get "string.h" c_to_cpp_headers = Some "string" /\
  count_occ String.string_dec
            (_translate_includes (catalog string_twice_input init))
            (include_line "string") = 2.
Proof.
  split; [| split].
  - vm_compute. left. reflexivity.
  - reflexivity.
  - vm_compute. reflexivity.
Qed.

(** A header of the table given twice, and a header the table does not
    have: one line each. *)
Example repeated_header_lines :
  included_headers repeated_input = ["stdio.h"; "stdio.h"; "myheader.h"] /\
  count_occ String.string_dec (_translate_includes (catalog repeated_input init))
            (include_line "iostream") = 1 /\
  count_occ String.string_dec (_translate_includes (catalog repeated_input init))
            (include_line "myheader.h") = 1.
Proof. split; [| split]; vm_compute; reflexivity. Qed.

(** The fixed line of algorithm and the line of an input that includes
    algorithm are both emitted. *)
Example algorithm_header_twice :
  included_headers algorithm_input = ["algorithm"] /\
  header_line_count algorithm_input "algorithm" = 2 /\
  _translate_includes (catalog algorithm_input init)
  = [ "// C++ style includes"; "#include <algorithm>"; "#include <algorithm>" ].
Proof. split; [| split]; vm_compute; reflexivity. Qed.

(** ** The body rewriter at the inputs of the specification *)

(** C2, at the statement of the claim: the call with an argument
    becomes a chain that inserts the text, then x once, then the escape of
    the newline as a text of its own, and only then endl.  The branch for
    a call without arguments cuts the escape off before it appends endl;
    the branch for a call with arguments does not. *)
Theorem C2_newline_escape_kept :
  printf_pass printf_statement = cout_statement /\
  run (_process_function_body printf_statement) init = Ok cout_statement /\
  occurs (dq +:+ "\n" +:+ dq +:+ " << endl;") cout_statement /\
  printf_pass printf_no_args = "cout << " +:+ dq +:+ "Value" +:+ dq +:+ " << endl;".
Proof.
  split; [| split; [| split]]; try (vm_compute; reflexivity).
  exists ("cout << " +:+ dq +:+ "Value: " +:+ dq +:+ " << x << "), EmptyString.
  vm_compute. reflexivity.
Qed.

Lemma for_each_one {A B} (f : B -> A -> M B) (a : A) (b : B) self :
  for_each [a] f b self = f b a self.
Proof.
  unfold for_each, bind, ret. destruct (f b a self) as [[b' s'] | e]; reflexivity.
Qed.

(** C3, as the code has it: in a body where the allocation pass
    recognises one allocation, of any variable, no variable recorded
    before, the allocation is rewritten where it is spelled as the pass
    rebuilds it (a space before the star, none before malloc), and free of
    the variable becomes an array delete when the rewritten body holds
    both an assignment of new to the variable and an indexing use of it,
    a scalar delete otherwise, for the array and for the scalar allocation
    alike. *)
Theorem C3_allocation_rewrite (body : string) (self : Translator)
    (v t a n : string) :
  malloc_variables self = ∅ ->
  (Re.findall malloc_pattern body = [[v; t; a; n]] ->
   Re.findall single_malloc_pattern
              (replace body (array_malloc_text v t a n) (array_new_text v a n)) = [] ->
   run (allocation_pass body) self
   = Ok (let b := replace body (array_malloc_text v t a n) (array_new_text v a n) in
         if contains (v +:+ " = new ") b && contains (v +:+ "[") b
         then replace b ("free(" +:+ v +:+ ");") ("delete[] " +:+ v +:+ ";")
         else replace b ("free(" +:+ v +:+ ");") ("delete " +:+ v +:+ ";"))) /\
  (Re.findall malloc_pattern body = [] ->
   Re.findall single_malloc_pattern body = [[v; t; a]] ->
   run (allocation_pass body) self
   = Ok (let b := replace body (scalar_malloc_text v t a) (scalar_new_text v a) in
         if contains (v +:+ " = new ") b && contains (v +:+ "[") b
         then replace b ("free(" +:+ v +:+ ");") ("delete[] " +:+ v +:+ ";")
         else replace b ("free(" +:+ v +:+ ");") ("delete " +:+ v +:+ ";"))).
Proof.
  intros Hm. split.
  - intros Ha Hs. unfold allocation_pass, run, bind at 1.
    rewrite Ha, for_each_one.
    unfold replace_array_malloc, bind at 1, modify, ret. cbn [g nth].
    fold (array_malloc_text v t a n). fold (array_new_text v a n).
    unfold bind at 1. rewrite Hs. cbn [for_each]. unfold ret, bind, get.
    cbn [malloc_variables add_malloc_variable set_malloc_variables].
    rewrite Hm, (right_id_L ∅ (∪)), elements_singleton.
    reflexivity.
  - intros Ha Hs. unfold allocation_pass, run, bind at 1.
    rewrite Ha. cbn [for_each]. unfold ret at 1. unfold bind at 1.
    rewrite Hs, for_each_one.
    unfold replace_single_malloc, bind at 1, modify, ret. cbn [g nth].
    fold (scalar_malloc_text v t a). fold (scalar_new_text v a).
    unfold bind, get.
    cbn [malloc_variables add_malloc_variable set_malloc_variables].
    rewrite Hm, (right_id_L ∅ (∪)), elements_singleton.
    reflexivity.
Qed.

Lemma C3_witness :
  malloc_variables init = ∅ /\
  run (allocation_pass indexed_body) init
    = Ok "p = new int[10]; p[0] = 1; delete[] p;" /\
  run (allocation_pass not_indexed_body) init
    = Ok "p = new int[10]; delete p;" /\
  run (allocation_pass scalar_body) init
    = Ok "p = new int; *p = 1; delete p;".
Proof.
  assert (H0 : malloc_variables init = ∅) by reflexivity.
  split; [exact H0 |]. split; [| split].
  - rewrite (proj1 (C3_allocation_rewrite indexed_body init "p" "int" "int" "10" H0));
      vm_compute; reflexivity.
  - rewrite (proj1 (C3_allocation_rewrite not_indexed_body init "p" "int" "int" "10" H0));
      vm_compute; reflexivity.
  - rewrite (proj2 (C3_allocation_rewrite scalar_body init "p" "int" "int" "10" H0));
      vm_compute; reflexivity.
Defined.

(** C3, as the claim states it, fails: the body of the claim keeps its
    malloc and gets a scalar delete, and so does the scalar one; spelled
    as the replacement text expects, the array allocation is rewritten
    and still gets a scalar delete, for want of an indexing use of p. *)
Lemma C3_counterexample :
  run (allocation_pass claimed_array_body) init
  = Ok "p = (int*) malloc(sizeof(int) * 10); delete p;" /\
  run (allocation_pass claimed_scalar_body) init
  = Ok "p = (int*) malloc(sizeof(int)); delete p;" /\
  run (allocation_pass not_indexed_body) init
  = Ok "p = new int[10]; delete p;".
Proof. split; [| split]; vm_compute; reflexivity. Qed.

(** ** Structs at the input of the specification *)

(** The offset [find_at] starts to count from does not decide whether it
    finds. *)
Lemma find_at_none sub s i j :
  find_at sub s i = None -> find_at sub s j = None.
Proof.
  revert i j. induction s as [| c t IH]; intros i j; cbn [find_at].
  - destruct (startswith EmptyString sub); [discriminate | reflexivity].
  - destruct (startswith (String c t) sub); [discriminate |]. apply IH.
Qed.

(** A text that does not occur is not replaced. *)
Lemma replace_absent s old new :
  old <> EmptyString -> contains old s = false -> replace s old new = s.
Proof.
  intros Ho. unfold contains, replace.
  destruct old as [| o old']; [congruence |]. clear Ho.
  induction s as [| c t IH]; cbn [replace_from find_at]; [reflexivity |].
  destruct (startswith (String c t) (String o old')); [discriminate |].
  intros H. f_equal. apply IH.
  destruct (find_at (String o old') t 1) eqn:E; [discriminate |].
  now rewrite (find_at_none _ _ 1 0 E).
Qed.

Lemma lstrip_comma t : lstrip (String "," t) = String "," t.
Proof. reflexivity. Qed.

Lemma rstrip_comma t : exists t', rstrip (String "," t) = String "," t'.
Proof.
  cbn [rstrip]. destruct (rstrip t); [| eauto].
  exists EmptyString. reflexivity.
Qed.

(** [strip] keeps a leading comma. *)
Lemma strip_comma t : exists t', strip (String "," t) = String "," t'.
Proof. unfold strip. rewrite lstrip_comma. apply rstrip_comma. Qed.

(** Whenever a parameter follows the self-parameter, the parameter list
    of the declaration starts with the comma that separated them. *)
Lemma method_declaration_comma f rest :
  other_params f = String "," rest ->
  exists rest',
    method_declaration f
    = indent_str +:+ return_type f +:+ " " +:+ name f +:+ "("
        +:+ String "," rest' +:+ ");".
Proof.
  intros H. unfold method_declaration. rewrite H.
  destruct (strip_comma rest) as [rest' ->]. now exists rest'.
Qed.

(** In a body where the name of the self-parameter is never followed by
    the closing angle alone, the first replacement changes nothing: the
    pointer accesses stay, and only the value accesses are rewritten. *)
Lemma method_body_arrows_stay f :
  contains (param_name f +:+ ">") (body f) = false ->
  method_body f = replace (body f) (param_name f +:+ ".") "this.".
Proof.
  intros H. unfold method_body.
  rewrite (replace_absent (body f) (param_name f +:+ ">") "this->");
    [reflexivity | | exact H].
  destruct (param_name f); discriminate.
Qed.

(** C4, at a struct with one associated function: the function is
    recorded with self-parameter p, and in the emitted method body the
    value access of p is rewritten while the pointer access p->x stays as
    it was: the text the first replacement looks for is the name followed
    by the closing angle alone. *)
Theorem C4_pointer_access_unchanged :
  struct_to_functions (catalog struct_input init)
  = [ ("P", [ {| name := "set"; return_type := "void"; param_name := "p";
                 other_params := ", int v"; body := " p->x = v; p.y = v; " |} ]) ] /\
  map method_body (functions_of "P" (catalog struct_input init))
  = [ " p->x = v; this.y = v; " ] /\
  skipn 10 (_translate_structs_to_classes (catalog struct_input init))
  = [ nl +:+ "// Method implementations for class P";
      "void P::set(, int v) {";
      " p->x = v; this.y = v; ";
      "}" ].
Proof. split; [| split]; vm_compute; reflexivity. Qed.

(** C5, at the same input: the class has both fields in order, the
    constructor without arguments and one method declaration, whose
    parameter list is what followed the self-parameter in the input,
    comma included. *)
Theorem C5_method_declaration_keeps_comma :
  structs (catalog struct_input init) = [ ("P", "int x; int y;") ] /\
  firstn 10 (_translate_structs_to_classes (catalog struct_input init))
  = [ "// Class converted from struct P";
      "class P {";
      "public:";
      "    int x;";
      "    int y;";
      nl +:+ "    // Constructor";
      "    P() {}";
      nl +:+ "    // Methods";
      "    void set(, int v);";
      "};" ].
Proof. split; vm_compute; reflexivity. Qed.

(** ** The swap idiom at the input of the specification *)

(** C8, at a canonical swap function before main: the definition is
    emitted as an ordinary free function.  The swap pass runs on the text
    between the braces of a function, where it finds no signature; given
    the whole definition as a body it would replace it. *)
Theorem C8_swap_definition_not_replaced :
  translate swap_input
  = Ok (join nl [ "// C++ style includes"; "#include <algorithm>"; EmptyString;
                  "// Using standard namespace"; "using namespace std;";
                  EmptyString;
                  "// C++ style function";
                  "void swap(int *a, int *b) {";
                  swap_body;
                  "}";
                  EmptyString;
                  "// Main function";
                  "int main(int argc, char* argv[]) {";
                  " return 0; ";
                  "}" ]) /\
  run (swap_pass swap_body) init = Ok swap_body /\
  run (swap_pass swap_definition) init = Ok swap_replacement.
Proof. split; [| split]; vm_compute; reflexivity. Qed.


(** * Further properties of the code *)

(** ** Braces of main *)

Lemma count_chr_take_S x k c t :
  count_chr x (take (S k) (String c t))
  = (if Ascii.eqb c x then 1 else 0) + count_chr x (take k t).
Proof. reflexivity. Qed.

Lemma take_take k k' s : take k' (take k s) = take (Nat.min k' k) s.
Proof.
  revert k k'. induction s as [| c t IH]; intros [| k] [| k']; simpl; try reflexivity.
  now rewrite IH.
Qed.

Lemma get_drop n k s : String.get k (drop n s) = String.get (n + k) s.
Proof.
  revert s. induction n as [| n IH]; intros [| c t]; simpl; try reflexivity.
  apply IH.
Qed.

(** The loop that counts braces stops at the first closing brace that
    brings the count to zero. *)
Lemma close_brace_some s : forall i n j,
  0 < n -> close_brace s i n = Some j ->
  exists k, j = i + k /\ String.get k s = Some "}"%char /\
    count_chr "{" (take k s) + n = S (count_chr "}" (take k s)) /\
    forall k', k' <= k ->
      count_chr "}" (take k' s) < count_chr "{" (take k' s) + n.
Proof.
  induction s as [| c t IH]; intros i n j Hn; cbn [close_brace]; [discriminate |].
  destruct (Ascii.eqb c "{") eqn:Eo.
  - apply Ascii.eqb_eq in Eo. subst c. intros H.
    apply IH in H as (k & -> & Hg & Hc & Hp); [| lia].
    exists (S k). split; [lia |]. split; [exact Hg |]. split.
    + rewrite !count_chr_take_S. simpl. lia.
    + intros [| k'] Hk; [simpl; lia |].
      rewrite !count_chr_take_S. simpl. specialize (Hp k'). lia.
  - destruct (Ascii.eqb c "}") eqn:Ec.
    + apply Ascii.eqb_eq in Ec. subst c.
      destruct (n - 1 =? 0) eqn:E1.
      * apply Nat.eqb_eq in E1. intros [= <-].
        exists 0. split; [lia |]. split; [reflexivity |]. split; [simpl; lia |].
        intros k' Hk. assert (k' = 0) by lia. subst. simpl. lia.
      * apply Nat.eqb_neq in E1. intros H.
        apply IH in H as (k & -> & Hg & Hc & Hp); [| lia].
        exists (S k). split; [lia |]. split; [exact Hg |]. split.
        -- rewrite !count_chr_take_S. simpl. lia.
        -- intros [| k'] Hk; [simpl; lia |].
           rewrite !count_chr_take_S. simpl. specialize (Hp k'). lia.
    + intros H. apply IH in H as (k & -> & Hg & Hc & Hp); [| lia].
      exists (S k). split; [lia |]. split; [exact Hg |]. split.
      * rewrite !count_chr_take_S, Eo, Ec. simpl. lia.
      * intros [| k'] Hk; [simpl; lia |].
        rewrite !count_chr_take_S, Eo, Ec. simpl. specialize (Hp k'). lia.
Qed.

Lemma close_brace_none s : forall i n,
  0 < n -> close_brace s i n = None ->
  forall k, count_chr "}" (take k s) < count_chr "{" (take k s) + n.
Proof.
  induction s as [| c t IH]; intros i n Hn; cbn [close_brace].
  - intros _ [| k]; simpl; lia.
  - destruct (Ascii.eqb c "{") eqn:Eo.
    + apply Ascii.eqb_eq in Eo. subst c. intros H [| k]; [simpl; lia |].
      rewrite !count_chr_take_S. simpl.
      specialize (IH (S i) (S n) ltac:(lia) H k). lia.
    + destruct (Ascii.eqb c "}") eqn:Ec.
      * apply Ascii.eqb_eq in Ec. subst c.
        destruct (n - 1 =? 0) eqn:E1; [discriminate |].
        apply Nat.eqb_neq in E1. intros H [| k]; [simpl; lia |].
        rewrite !count_chr_take_S. simpl.
        specialize (IH (S i) (n - 1) ltac:(lia) H k). lia.
      * intros H [| k]; [simpl; lia |].
        rewrite !count_chr_take_S, Eo, Ec. simpl.
        specialize (IH (S i) n Hn H k). lia.
Qed.

Lemma startswith_nil s : startswith s EmptyString = true.
Proof. now destruct s. Qed.

Lemma find_at_char x s : forall i j,
  find_at (String x EmptyString) s i = Some j ->
  exists k, j = i + k /\ String.get k s = Some x.
Proof.
  induction s as [| c t IH]; intros i j; cbn [find_at startswith]; [discriminate |].
  destruct (Ascii.eqb x c) eqn:E; cbn [andb].
  - apply Ascii.eqb_eq in E. subst c. rewrite startswith_nil.
    intros [= <-]. exists 0. split; [lia | reflexivity].
  - intros H. apply IH in H as (k & -> & Hg). exists (S k). split; [lia | exact Hg].
Qed.

Lemma find_char x s start j :
  find s (String x EmptyString) start = Some j ->
  start <= j /\ String.get j s = Some x.
Proof.
  unfold find. destruct (start <=? len s); [| discriminate].
  intros H. apply find_at_char in H as (k & -> & Hg).
  rewrite get_drop in Hg. split; [lia | exact Hg].
Qed.

Lemma count_chr_take_snoc x c s : forall k,
  String.get k s = Some c ->
  count_chr x (take (S k) s)
  = count_chr x (take k s) + (if Ascii.eqb c x then 1 else 0).
Proof.
  induction s as [| d t IH]; intros [| k]; simpl; try discriminate.
  - intros [= ->]. destruct t; simpl; lia.
  - intros H. apply IH in H. simpl in H. rewrite H. lia.
Qed.

(** X1.  When [_translate_main_function] locates main, the opening
    brace it found is at or after the start of the signature, the
    closing brace comes after it, and the text taken as the body of main
    has balanced braces: as many closing as opening ones, and no prefix
    with more closing than opening ones. *)
Theorem main_body_balanced c open_brace_pos close_brace_pos :
  locate_main c = Some (open_brace_pos, close_brace_pos) ->
  (exists m, Re.search main_signature_pattern c = Some m /\
             Re.m_start m <= open_brace_pos) /\
  open_brace_pos < close_brace_pos /\
  String.get open_brace_pos c = Some "{"%char /\
  String.get close_brace_pos c = Some "}"%char /\
  balanced (slice c (S open_brace_pos) close_brace_pos).
Proof.
  unfold locate_main.
  destruct (Re.search main_signature_pattern c) as [m |]; [| discriminate].
  destruct (find c "{" (Re.m_start m)) as [ob |] eqn:Ef; [| discriminate].
  destruct (close_brace (drop (S ob) c) (S ob) 1) as [cb |] eqn:Ec; [| discriminate].
  intros [= <- <-].
  apply find_char in Ef as [Hle Hg].
  apply close_brace_some in Ec as (k & -> & Hk & Hc & Hp); [| lia].
  rewrite get_drop in Hk.
  split; [exists m; auto |]. split; [lia |]. split; [exact Hg |].
  split; [exact Hk |].
  unfold balanced, slice.
  replace (S ob + k - S ob) with k by lia. split; [lia |].
  intros k'. rewrite take_take.
  specialize (Hp (Nat.min k' k) (Nat.le_min_r _ _)). lia.
Qed.

Lemma main_body_balanced_witness :
  locate_main main_void_input = Some (15, 27) /\
  ((exists m, Re.search main_signature_pattern main_void_input = Some m /\
              Re.m_start m <= 15) /\
   15 < 27 /\
   String.get 15 main_void_input = Some "{"%char /\
   String.get 27 main_void_input = Some "}"%char /\
   balanced (slice main_void_input 16 27)).
Proof.
  assert (H : locate_main main_void_input = Some (15, 27))
    by (vm_compute; reflexivity).
  split; [exact H | exact (main_body_balanced main_void_input 15 27 H)].
Defined.

(** X2.  When a signature of main and an opening brace after it are
    found, main is left out of the output exactly when that brace is
    never closed: in no prefix of the text after it do the closing
    braces outnumber the opening ones. *)
Theorem main_dropped_iff_never_closed c m open_brace_pos :
  Re.search main_signature_pattern c = Some m ->
  find c "{" (Re.m_start m) = Some open_brace_pos ->
  (locate_main c = None <->
   forall k, count_chr "}" (take k (drop (S open_brace_pos) c))
             <= count_chr "{" (take k (drop (S open_brace_pos) c))).
Proof.
  intros Hs Hf. unfold locate_main. rewrite Hs, Hf.
  destruct (close_brace (drop (S open_brace_pos) c) (S open_brace_pos) 1)
    as [cb |] eqn:Ec.
  - split; [discriminate |]. intros H. exfalso.
    apply close_brace_some in Ec as (k & -> & Hk & Hc & Hp); [| lia].
    specialize (H (S k)).
    rewrite (count_chr_take_snoc "}" _ _ _ Hk) in H.
    rewrite (count_chr_take_snoc "{" _ _ _ Hk) in H.
    change (Ascii.eqb "}" "}") with true in H.
    change (Ascii.eqb "}" "{") with false in H. cbv iota in H. lia.
  - split; [| reflexivity]. intros _ k.
    pose proof (close_brace_none _ _ 1 ltac:(lia) Ec k). lia.
Qed.

Lemma main_dropped_witness :
  (Re.search main_signature_pattern unbalanced_input
     = Some (Re.MObj 12 22 []) /\
   find unbalanced_input "{" 12 = Some 23) /\
  (locate_main unbalanced_input = None <->
   forall k, count_chr "}" (take k (drop 24 unbalanced_input))
             <= count_chr "{" (take k (drop 24 unbalanced_input))).
Proof.
  assert (H1 : Re.search main_signature_pattern unbalanced_input
               = Some (Re.MObj 12 22 [])) by (vm_compute; reflexivity).
  assert (H2 : find unbalanced_input "{" 12 = Some 23) by (vm_compute; reflexivity).
  split; [split; assumption |].
  exact (main_dropped_iff_never_closed unbalanced_input _ 23 H1 H2).
Defined.

Lemma join_app sep l1 l2 :
  l1 <> [] -> l2 <> [] ->
  join sep (l1 ++ l2) = join sep l1 +:+ sep +:+ join sep l2.
Proof.
  intros H1 H2. induction l1 as [| x l1 IH]; [congruence |].
  destruct l1 as [| y l1].
  - destruct l2 as [| z l2]; [congruence | reflexivity].
  - change ((x :: y :: l1) ++ l2) with (x :: (y :: l1) ++ l2).
    change ((y :: l1) ++ l2) with (y :: l1 ++ l2) at 1.
    rewrite join_cons. change (y :: l1 ++ l2) with ((y :: l1) ++ l2).
    rewrite IH by discriminate. rewrite join_cons.
    now rewrite !append_assoc.
Qed.

(** X3.  When main is located, every text [translate] returns is the
    header part and the free functions, joined line by line, and then
    the main section as its last four lines: the comment line, the fixed
    signature line, the text between the located braces as the body
    rewriter returns it in the state the free functions left, and the
    closing brace. *)
Theorem main_emitted_last c open_brace_pos close_brace_pos out :
  locate_main c = Some (open_brace_pos, close_brace_pos) ->
  translate c = Ok out ->
  exists function_implementations self cpp_body self',
    _translate_functions c (catalog c init) = Ok (function_implementations, self) /\
    _process_function_body (slice c (S open_brace_pos) close_brace_pos) self
    = Ok (cpp_body, self') /\
    out = join nl (head_lines (catalog c init) ++ function_implementations)
            +:+ nl +:+ "// Main function" +:+ nl +:+ main_signature_line
            +:+ nl +:+ cpp_body +:+ nl +:+ "}".
Proof.
  intros Hl. rewrite translate_unfold.
  assert (Hne : head_lines (catalog c init) <> [])
    by (unfold head_lines, _translate_includes; discriminate).
  remember (head_lines (catalog c init)) as hl eqn:Ehl. clear Ehl.
  destruct (_translate_functions c (catalog c init)) as [[fs s1] | e]; [| discriminate].
  unfold _translate_main_function. rewrite Hl.
  unfold bind, ret.
  destruct (_process_function_body (slice c (S open_brace_pos) close_brace_pos) s1)
    as [[b s2] | e] eqn:Eb; [| discriminate].
  unfold result_map, result_bind. intros H.
  assert (Ho : out = join nl (hl ++ fs ++ [ "// Main function"; main_signature_line;
                                            b; "}" ]))
    by (injection H as H1; symmetry; exact H1).
  exists fs, s1, b, s2. split; [reflexivity |]. split; [exact Eb |].
  rewrite Ho, List.app_assoc, join_app; [reflexivity | | discriminate].
  destruct hl; [congruence | discriminate].
Qed.

Lemma main_emitted_last_witness :
  (locate_main main_void_input = Some (15, 27) /\
   translate main_void_input = Ok main_void_output) /\
  exists function_implementations self cpp_body self',
    _translate_functions main_void_input (catalog main_void_input init)
    = Ok (function_implementations, self) /\
    _process_function_body (slice main_void_input 16 27) self = Ok (cpp_body, self') /\
    main_void_output
    = join nl (head_lines (catalog main_void_input init) ++ function_implementations)
        +:+ nl +:+ "// Main function" +:+ nl +:+ main_signature_line
        +:+ nl +:+ cpp_body +:+ nl +:+ "}".
Proof.
  assert (H1 : locate_main main_void_input = Some (15, 27))
    by (vm_compute; reflexivity).
  assert (H2 : translate main_void_input = Ok main_void_output)
    by (vm_compute; reflexivity).
  split; [split; assumption |].
  exact (main_emitted_last main_void_input 15 27 main_void_output H1 H2).
Defined.

(** ** Header lines, further *)

(** A line of the loop over the set is the line of an element other than
    functional. *)
Lemma loop_line_origin (l : list string) (line : string) :
  In line (concat (map include_lines l)) ->
  exists h, In h l /\ h <> "functional" /\ line = include_line (cpp_header h).
Proof.
  intros H. apply in_concat in H as (ls & Hls & H).
  apply in_map_iff in Hls as (h & <- & Hh).
  rewrite include_lines_spec in H.
  destruct (String.eqb h "functional") eqn:E; [destruct H |].
  apply String.eqb_neq in E. destruct H as [<- | []]. eauto.
Qed.

(** The loop emits the line of a header outside the table only for that
    header itself. *)
Lemma loop_line_outside_table (l : list string) (x : string) :
  (forall k v, In (k, v) c_to_cpp_headers -> v <> x) ->
  In (include_line x) (concat (map include_lines l)) ->
  In x l /\ x <> "functional".
Proof.
  intros Hx H. apply loop_line_origin in H as (h & Hh & Hf & E).
  apply include_line_inj in E. unfold cpp_header in E.
  destruct (dict_get h c_to_cpp_headers) as [v |] eqn:Eg.
  - apply dict_get_In in Eg. exfalso. eapply Hx; [exact Eg | now symmetry].
  - subst h. auto.
Qed.

Lemma not_a_mapped_name x :
  existsb (fun kv => String.eqb (snd kv) x) c_to_cpp_headers = false ->
  forall k v, In (k, v) c_to_cpp_headers -> v <> x.
Proof.
  intros H k v Hin ->.
  assert (existsb (fun kv => String.eqb (snd kv) x) c_to_cpp_headers = true).
  { apply existsb_exists. exists (k, x). split; [exact Hin | apply String.eqb_refl]. }
  congruence.
Qed.

Lemma translate_includes_In self line :
  In line (_translate_includes self) <->
  line = "// C++ style includes" \/
  (needs_iomanip self = true /\ line = include_line "iomanip") \/
  ("functional" ∈ includes self /\ line = include_line "functional") \/
  line = include_line "algorithm" \/
  In line (concat (map include_lines (elements (includes self)))).
Proof.
  unfold _translate_includes. rewrite !in_app_iff.
  change (include_line "iomanip") with "#include <iomanip>".
  change (include_line "functional") with "#include <functional>".
  change (include_line "algorithm") with "#include <algorithm>".
  destruct (needs_iomanip self); case_bool_decide; cbn [In];
    intuition (try congruence).
Qed.

(** X5.  The line that includes functional is among the header lines
    exactly when the input itself includes functional: the header is
    not brought by a function pointer in the input, because the
    function-pointer stage records it after the header lines were
    written. *)
Theorem functional_header_iff_included c :
  In (include_line "functional") (_translate_includes (catalog c init))
  <-> In "functional" (included_headers c).
Proof.
  rewrite translate_includes_In. split.
  - intros [H | [[_ H] | [[H _] | [H | H]]]].
    + unfold include_line in H. discriminate H.
    + apply include_line_inj in H. discriminate H.
    + now apply includes_of_input.
    + apply include_line_inj in H. discriminate H.
    + apply loop_line_outside_table in H as [_ H]; [congruence |].
      now apply not_a_mapped_name.
  - intros H. right. right. left. split; [| reflexivity].
    now apply includes_of_input.
Qed.

(** X6.  The line that includes iomanip is among the header lines
    exactly when the input holds a precision specifier (a percent sign,
    a dot, digits and f or g) or includes iomanip itself. *)
Theorem iomanip_header_iff c :
  In (include_line "iomanip") (_translate_includes (catalog c init))
  <-> Re.search precision_pattern c <> None \/ In "iomanip" (included_headers c).
Proof.
  rewrite translate_includes_In, needs_iomanip_catalog. split.
  - intros [H | [[H _] | [[_ H] | [H | H]]]].
    + unfold include_line in H. discriminate H.
    + left. destruct (Re.search precision_pattern c); [discriminate | discriminate H].
    + apply include_line_inj in H. discriminate H.
    + apply include_line_inj in H. discriminate H.
    + apply loop_line_outside_table in H as [H _].
      * right. apply includes_of_input, elem_of_elements, list_elem_of_In, H.
      * now apply not_a_mapped_name.
  - intros [H | H].
    + right. left. split; [| reflexivity].
      destruct (Re.search precision_pattern c); [reflexivity | congruence].
    + right. right. right. right.
      apply in_concat. exists (include_lines "iomanip"). split; [| now left].
      apply in_map, list_elem_of_In, elem_of_elements, includes_of_input, H.
Qed.

(** ** Dicts, further *)

Lemma dict_get_set_eq {V} k (v : V) d : dict_get k (dict_set k v d) = Some v.
Proof.
  induction d as [| [k' v'] d IH]; simpl.
  - now rewrite String.eqb_refl.
  - destruct (String.eqb k' k) eqn:E; simpl; rewrite E; [reflexivity | exact IH].
Qed.

Lemma dict_get_set_ne {V} k k' (v : V) d :
  k' <> k -> dict_get k (dict_set k' v d) = dict_get k d.
Proof.
  intros Hne. induction d as [| [k2 v2] d IH]; simpl.
  - apply String.eqb_neq in Hne. now rewrite Hne.
  - destruct (String.eqb k2 k') eqn:E; simpl.
    + apply String.eqb_eq in E. subst k2.
      apply String.eqb_neq in Hne. now rewrite Hne.
    + destruct (String.eqb k2 k); [reflexivity | exact IH].
Qed.

Lemma dict_set_NoDup {V} k (v : V) d :
  List.NoDup (map fst d) -> List.NoDup (map fst (dict_set k v d)).
Proof.
  intros H. rewrite dict_set_keys.
  destruct (existsb (String.eqb k) (map fst d)) eqn:E; [exact H |].
  apply NoDup_stdlib, NoDup_app. split; [| split].
  - apply NoDup_ListNoDup, H.
  - intros x Hx Hk. apply list_elem_of_In in Hk. destruct Hk as [<- | []].
    apply list_elem_of_In, existsb_eqb_In in Hx. congruence.
  - apply NoDup_singleton.
Qed.

Lemma dict_fill_NoDup {A V} (key : A -> string) (val : A -> V) l d :
  List.NoDup (map fst d) ->
  List.NoDup (map fst (fold_left (fun d m => dict_set (key m) (val m) d) l d)).
Proof.
  revert d. induction l as [| m l IH]; intros d H; simpl; [exact H |].
  apply IH. now apply dict_set_NoDup.
Qed.

(** What a loop of assignments leaves under a key: the last value it
    assigned to it, else what the dict had. *)
Lemma dict_fill_get (l : list (string * string)) : forall d k,
  dict_get k (fold_left (fun d m => dict_set (fst m) (snd m) d) l d)
  = match last_assigned k l with
    | Some v => Some v
    | None => dict_get k d
    end.
Proof.
  induction l as [| [k' v] l IH]; intros d k; simpl; [reflexivity |].
  rewrite IH. destruct (last_assigned k l); [reflexivity |].
  destruct (String.eqb k' k) eqn:E.
  - apply String.eqb_eq in E. subst k'. apply dict_get_set_eq.
  - apply String.eqb_neq in E. now apply dict_get_set_ne.
Qed.

Lemma defines_of_macros c :
  defines (catalog c init)
  = fold_left (fun d m => dict_set (fst m) (snd m) d) (defined_macros c) [].
Proof.
  rewrite defines_catalog, defines_identify_defines. unfold defined_macros.
  change (defines init) with (@nil (string * string)).
  generalize (@nil (string * string)).
  induction (Re.findall define_pattern c) as [| m l IH]; intros d; simpl;
    [reflexivity | apply IH].
Qed.

(** X7.  Macros defined more than once: the names recorded are
    distinct, each name has the value of its last definition in the
    input, and the constant declaration of that value is among the lines
    of [_translate_defines]. *)
Theorem macro_emitted_once_with_last_value c :
  List.NoDup (map fst (defines (catalog c init))) /\
  (forall name,
     dict_get name (defines (catalog c init))
     = last_assigned name (defined_macros c)) /\
  (forall name value,
     last_assigned name (defined_macros c) = Some value ->
     In (constant_declaration name value) (_translate_defines (catalog c init))).
Proof.
  assert (Hget : forall name, dict_get name (defines (catalog c init))
                              = last_assigned name (defined_macros c)).
  { intros name. rewrite defines_of_macros, dict_fill_get.
    now destruct (last_assigned name (defined_macros c)). }
  split; [| split].
  - rewrite defines_of_macros. apply dict_fill_NoDup. constructor.
  - exact Hget.
  - intros name value H. rewrite <- Hget in H. apply dict_get_In in H.
    unfold _translate_defines.
    destruct (defines (catalog c init)) as [| nv d]; [destruct H |].
    right. apply in_map_iff. exists (name, value). split; [| exact H].
    apply define_line_spec.
Qed.

(** ** Structs, further *)

Lemma append_function_keys s f d :
  map fst (append_function s f d) = map fst d.
Proof.
  unfold append_function. destruct (dict_get s d) as [l |] eqn:E; [| reflexivity].
  rewrite dict_set_keys.
  assert (H : existsb (String.eqb s) (map fst d) = true).
  { rewrite <- dict_has_keys. unfold dict_has. now rewrite E. }
  now rewrite H.
Qed.

Lemma struct_keys_identify_structs c self :
  map fst (struct_to_functions self) = map fst (structs self) ->
  map fst (struct_to_functions (identify_structs c self))
  = map fst (structs (identify_structs c self)).
Proof.
  unfold identify_structs. generalize (Re.findall struct_pattern c) as l.
  intros l. revert self. induction l as [| m l IH]; intros self H; simpl; [exact H |].
  apply IH. simpl. rewrite !dict_set_keys, H. now destruct (existsb _ _).
Qed.

Lemma struct_keys_identify_struct_functions c self :
  map fst (struct_to_functions (identify_struct_functions c self))
  = map fst (struct_to_functions self) /\
  structs (identify_struct_functions c self) = structs self.
Proof.
  unfold identify_struct_functions. generalize (map fst (structs self)) as names.
  intros names. revert self. induction names as [| s names IH]; intros self; simpl;
    [split; reflexivity |].
  destruct (IH (fold_left
                  (fun self0 m =>
                     set_struct_to_functions
                       (append_function s
                          {| name := g 1 m; return_type := g 0 m; param_name := g 2 m;
                             other_params := g 3 m; body := g 4 m |}
                          (struct_to_functions self0)) self0)
                  (Re.findall (function_pattern s) c) self)) as [H1 H2].
  rewrite H1, H2. clear IH H1 H2.
  generalize (Re.findall (function_pattern s) c) as l.
  intros l. revert self. induction l as [| m l IH]; intros self; simpl;
    [split; reflexivity |].
  destruct (IH (set_struct_to_functions
                  (append_function s
                     {| name := g 1 m; return_type := g 0 m; param_name := g 2 m;
                        other_params := g 3 m; body := g 4 m |}
                     (struct_to_functions self)) self)) as [H1 H2].
  rewrite H1, H2. simpl. split; [apply append_function_keys | reflexivity].
Qed.

Lemma structs_before_identify_structs c :
  structs (if _is_simple_program c
           then set_global_variables ∅ (identify_defines c (identify_includes c init))
           else identify_global_variables c
                  (identify_defines c (identify_includes c init))) = [] /\
  struct_to_functions
          (if _is_simple_program c
           then set_global_variables ∅ (identify_defines c (identify_includes c init))
           else identify_global_variables c
                  (identify_defines c (identify_includes c init))) = [].
Proof.
  assert (H1 : structs (identify_defines c (identify_includes c init)) = []).
  { unfold identify_defines. rewrite fold_left_preserves by reflexivity.
    unfold identify_includes. now destruct (Re.search _ _). }
  assert (H2 : struct_to_functions (identify_defines c (identify_includes c init)) = []).
  { unfold identify_defines.
    rewrite (fold_left_preserves struct_to_functions) by reflexivity.
    unfold identify_includes. now destruct (Re.search _ _). }
  destruct (_is_simple_program c); simpl; auto.
Qed.

(** X8.  After the catalog is built, the table of the functions of
    each struct has exactly the keys of the table of structs, in the
    same order and without repetition, so the lookup of the functions of
    a struct in [_translate_structs_to_classes] always succeeds. *)
Theorem every_struct_has_its_functions c :
  map fst (struct_to_functions (catalog c init)) = map fst (structs (catalog c init)) /\
  List.NoDup (map fst (structs (catalog c init))) /\
  (forall struct_name,
     In struct_name (map fst (structs (catalog c init))) ->
     exists functions,
       dict_get struct_name (struct_to_functions (catalog c init)) = Some functions).
Proof.
  assert (Hk : map fst (struct_to_functions (catalog c init))
               = map fst (structs (catalog c init))).
  { unfold catalog.
    destruct (struct_keys_identify_struct_functions c
                (identify_structs c
                   (if _is_simple_program c
                    then set_global_variables ∅
                           (identify_defines c (identify_includes c init))
                    else identify_global_variables c
                           (identify_defines c (identify_includes c init)))))
      as [H1 H2].
    rewrite H1, H2. apply struct_keys_identify_structs.
    destruct (structs_before_identify_structs c) as [-> ->]. reflexivity. }
  split; [exact Hk |]. split.
  - unfold catalog.
    destruct (struct_keys_identify_struct_functions c
                (identify_structs c
                   (if _is_simple_program c
                    then set_global_variables ∅
                           (identify_defines c (identify_includes c init))
                    else identify_global_variables c
                           (identify_defines c (identify_includes c init)))))
      as [_ H2].
    rewrite H2. unfold identify_structs.
    generalize (Re.findall struct_pattern c) as l. intros l.
    assert (G : forall l self, List.NoDup (map fst (structs self)) ->
      List.NoDup (map fst (structs (fold_left
        (fun self m =>
           set_struct_to_functions (dict_set (g 0 m) [] (struct_to_functions self))
             (set_structs (dict_set (g 0 m) (strip (g 1 m)) (structs self)) self))
        l self)))).
    { clear. induction l as [| m l IH]; intros self H; simpl; [exact H |].
      apply IH. simpl. now apply dict_set_NoDup. }
    apply G. destruct (structs_before_identify_structs c) as [-> _]. constructor.
  - intros s Hs. rewrite <- Hk in Hs.
    apply existsb_eqb_In in Hs. rewrite <- dict_has_keys in Hs.
    unfold dict_has in Hs.
    destruct (dict_get s (struct_to_functions (catalog c init))) as [fs |];
      [eauto | discriminate].
Qed.

(** ** Global variables *)

Lemma global_variables_catalog c :
  global_variables (catalog c init)
  = if _is_simple_program c then ∅
    else global_variables
           (identify_global_variables c (identify_defines c (identify_includes c init))).
Proof.
  unfold catalog.
  assert (H1 : forall s, global_variables (identify_struct_functions c s)
                         = global_variables s).
  { intros s. unfold identify_struct_functions. apply fold_left_preserves.
    intros s' x. now apply fold_left_preserves. }
  assert (H2 : forall s, global_variables (identify_structs c s) = global_variables s).
  { intros s. unfold identify_structs. now apply fold_left_preserves. }
  rewrite H1, H2. now destruct (_is_simple_program c).
Qed.

(** X9.  For an input that [_is_simple_program] accepts (one main, no
    other function, and one of the listed words), no global variable is
    emitted, whatever the input declares outside main. *)
Theorem simple_program_has_no_globals c :
  _is_simple_program c = true ->
  length (Re.findall main_count_pattern c) = 1 /\
  Forall (fun f => g 1 f = "main") (Re.findall other_funcs_pattern c) /\
  _translate_global_variables (catalog c init) = [].
Proof.
  intros H. split; [| split].
  - unfold _is_simple_program in H.
    destruct (length (Re.findall main_count_pattern c) =? 1) eqn:E;
      [now apply Nat.eqb_eq in E | discriminate].
  - unfold _is_simple_program in H.
    destruct (negb (length (Re.findall main_count_pattern c) =? 1)); [discriminate |].
    destruct (0 <? _) eqn:E; [discriminate |].
    apply Nat.ltb_ge in E.
    apply List.Forall_forall. intros f Hf.
    destruct (String.eqb (g 1 f) "main") eqn:Em; [now apply String.eqb_eq |].
    exfalso.
    assert (Hin : In f (List.filter (fun f => negb (String.eqb (g 1 f) "main"))
                                    (Re.findall other_funcs_pattern c))).
    { apply filter_In. split; [exact Hf | now rewrite Em]. }
    destruct (List.filter _ _); [destruct Hin | simpl in E; lia].
  - unfold _translate_global_variables.
    rewrite global_variables_catalog, H, elements_empty. reflexivity.
Qed.

Lemma rewriter_step_refl self : rewriter_step self self.
Proof.
  unfold rewriter_step. repeat split; try reflexivity.
  apply union_subseteq_l.
Qed.

(** One more allocated variable is a step. *)
Lemma add_malloc_variable_step v self :
  rewriter_step self (add_malloc_variable v self).
Proof.
  unfold rewriter_step. cbn. repeat split; try reflexivity.
  - apply union_subseteq_r.
  - apply union_subseteq_l.
Qed.

Lemma require_functional_step self : rewriter_step self (require_functional self).
Proof.
  unfold require_functional. destruct (existsb _ _); [apply rewriter_step_refl |].
  unfold rewriter_step. cbn. repeat split; try reflexivity.
  - apply union_subseteq_r.
  - rewrite (comm_L (∪)). reflexivity.
Qed.

Lemma rewriter_step_trans s1 s2 s3 :
  rewriter_step s1 s2 -> rewriter_step s2 s3 -> rewriter_step s1 s3.
Proof.
  unfold rewriter_step.
  intros (A1 & A2 & A3 & A4 & A5 & A6 & A7 & A8) (B1 & B2 & B3 & B4 & B5 & B6 & B7 & B8).
  split; [congruence |]. split; [congruence |]. split; [congruence |].
  split; [congruence |]. split; [congruence |].
  split; [etransitivity; eassumption |]. split; [etransitivity; eassumption |].
  intros x Hx. apply B8, elem_of_union in Hx as [Hx | Hx].
  - now apply A8.
  - now apply elem_of_union_r.
Qed.

(** A loop keeps a relation on [self] that each round keeps. *)
Lemma for_each_keeps {A B} (R : Translator -> Translator -> Prop)
    (f : B -> A -> M B) (l : list A) :
  (forall s, R s s) -> (forall s1 s2 s3, R s1 s2 -> R s2 s3 -> R s1 s3) ->
  (forall b a s b' s', In a l -> f b a s = Ok (b', s') -> R s s') ->
  forall b s b' s', for_each l f b s = Ok (b', s') -> R s s'.
Proof.
  intros Hr Ht. induction l as [| a l IH]; intros Hf b s b' s'; cbn [for_each].
  - unfold ret. intros [= <- <-]. apply Hr.
  - unfold bind. destruct (f b a s) as [[b1 s1] | e] eqn:E; [| discriminate].
    intros H. eapply Ht.
    + eapply Hf; [now left | exact E].
    + eapply IH; [| exact H]. intros b2 a2 s2 b3 s3 Hin. apply Hf. now right.
Qed.

Lemma bind_ok {A B} (m : M A) (f : A -> M B) s b s' :
  bind m f s = Ok (b, s') ->
  exists a s1, m s = Ok (a, s1) /\ f a s1 = Ok (b, s').
Proof.
  unfold bind. destruct (m s) as [[a s1] | e]; [eauto | discriminate].
Qed.

Lemma lift_ok {A} (r : result A) s a s' :
  lift r s = Ok (a, s') -> r = Ok a /\ s' = s.
Proof. unfold lift. destruct r; [intros [= <- <-]; auto | discriminate]. Qed.

Lemma allocation_pass_step body self b self' :
  allocation_pass body self = Ok (b, self') -> rewriter_step self self'.
Proof.
  unfold allocation_pass. intros H.
  apply bind_ok in H as (b1 & s1 & H1 & H).
  apply bind_ok in H as (b2 & s2 & H2 & H).
  unfold bind, get, ret in H. injection H as _ <-.
  eapply rewriter_step_trans.
  - eapply (for_each_keeps rewriter_step);
      [apply rewriter_step_refl | apply rewriter_step_trans | | exact H1].
    intros b0 a s b' s' _. unfold replace_array_malloc, bind, modify, ret.
    intros [= _ <-]. apply add_malloc_variable_step.
  - eapply (for_each_keeps rewriter_step);
      [apply rewriter_step_refl | apply rewriter_step_trans | | exact H2].
    intros b0 a s b' s' _. unfold replace_single_malloc, bind, modify, ret.
    intros [= _ <-]. apply add_malloc_variable_step.
Qed.

Lemma math_pass_state body self b self' :
  math_pass body self = Ok (b, self') -> self' = self.
Proof.
  unfold math_pass, bind, get. case_bool_decide; [| unfold ret; congruence].
  apply (for_each_keeps (fun s s' => s' = s)); [reflexivity | congruence |].
  intros b0 a s b' s' _. unfold replace_math_call.
  destruct (Re.search _ _); [| unfold ret; congruence].
  intros Hl. now apply lift_ok in Hl.
Qed.

Lemma swap_pass_state body self b self' :
  swap_pass body self = Ok (b, self') -> self' = self.
Proof.
  unfold swap_pass.
  destruct (Re.search swap_pattern body); [| unfold ret; congruence].
  destruct (Re.search swap_impl_pattern body); [| unfold ret; congruence].
  destruct (_ && _); [| unfold ret; congruence].
  intros H. now apply lift_ok in H.
Qed.

Lemma function_pointer_pass_step body self b self' :
  function_pointer_pass body self = Ok (b, self') -> rewriter_step self self'.
Proof.
  unfold function_pointer_pass.
  apply (for_each_keeps rewriter_step);
    [apply rewriter_step_refl | apply rewriter_step_trans |].
  intros b0 a s b' s' _. unfold replace_func_ptr. intros H.
  apply bind_ok in H as (b1 & s1 & H1 & H). apply lift_ok in H1 as [_ ->].
  unfold bind, modify, ret in H. injection H as _ <-.
  apply require_functional_step.
Qed.

Lemma process_function_body_step body self cpp_body self' :
  _process_function_body body self = Ok (cpp_body, self') -> rewriter_step self self'.
Proof.
  unfold _process_function_body. intros H.
  apply bind_ok in H as (b1 & s1 & H1 & H).
  apply bind_ok in H as (b2 & s2 & H2 & H).
  apply bind_ok in H as (b3 & s3 & H3 & H).
  apply bind_ok in H as (b4 & s4 & H4 & H).
  unfold ret in H. injection H as _ <-.
  apply allocation_pass_step in H1. apply math_pass_state in H2.
  apply swap_pass_state in H3. apply function_pointer_pass_step in H4.
  subst s2 s3. eapply rewriter_step_trans; eassumption.
Qed.

(** The loop over the parameters leaves [self] as it is. *)
Lemma cpp_params_state l acc s ps s' :
  for_each l (fun acc param => (let* p := cpp_param param in ret (acc ++ [p]))%py)
           acc s = Ok (ps, s') -> s' = s.
Proof.
  apply (for_each_keeps (fun s s' => s' = s)); [reflexivity | congruence |].
  intros acc1 p s3 acc2 s4 _ H1.
  apply bind_ok in H1 as (w & s5 & H5 & H1). unfold ret in H1. injection H1 as _ <-.
  unfold cpp_param in H5. destruct (_ || _); [| unfold ret in H5; congruence].
  apply bind_ok in H5 as (w1 & s6 & H6 & H5). unfold ret in H5. injection H5 as _ <-.
  unfold last_item in H6. destruct (rev _); [now apply lift_ok in H6 |].
  unfold ret in H6. congruence.
Qed.

(** One round of the loop over the functions: a function that is main or
    takes a struct pointer adds nothing and leaves the state, any other
    adds its block. *)
Lemma translate_function_round acc m s acc' s' :
  translate_function acc m s = Ok (acc', s') ->
  rewriter_step s s' /\
  if emitted_function s m
  then exists block, function_block s m block s' /\ acc' = acc ++ block
  else acc' = acc /\ s' = s.
Proof.
  unfold translate_function, emitted_function. intros H.
  apply bind_ok in H as (s0 & s1 & H0 & H).
  unfold get in H0. injection H0 as <- <-.
  destruct (String.eqb (g 1 m) "main");
    [unfold ret in H; injection H as <- <-;
     split; [apply rewriter_step_refl | split; reflexivity] |].
  destruct (is_struct_func s (g 2 m));
    [unfold ret in H; injection H as <- <-;
     split; [apply rewriter_step_refl | split; reflexivity] |].
  apply bind_ok in H as (ps & s1 & H1 & H).
  apply bind_ok in H as (b & s2 & H2 & H).
  unfold ret in H. injection H as <- <-.
  pose proof (cpp_params_state _ _ _ _ _ H1) as Es. subst s1.
  split; [eapply process_function_body_step, H2 |].
  cbn [negb andb]. eexists. split; [| reflexivity].
  exists ps, b. split; [exact H1 |]. split; [exact H2 | reflexivity].
Qed.

Lemma translate_functions_step c self lines self' :
  _translate_functions c self = Ok (lines, self') -> rewriter_step self self'.
Proof.
  unfold _translate_functions.
  apply (for_each_keeps rewriter_step);
    [apply rewriter_step_refl | apply rewriter_step_trans |].
  intros acc m s acc' s' _ H. now apply translate_function_round in H as [H _].
Qed.

Lemma translate_main_function_step c self lines self' :
  _translate_main_function c self = Ok (lines, self') -> rewriter_step self self'.
Proof.
  unfold _translate_main_function.
  destruct (locate_main c) as [[ob cb] |].
  - intros H. apply bind_ok in H as (b & s1 & H1 & H).
    unfold ret in H. injection H as _ <-. eapply process_function_body_step, H1.
  - unfold ret. intros [= _ <-]. apply rewriter_step_refl.
Qed.

(** X10.  The body rewriter, the translation of the free functions
    and the translation of main change [self] only in two ways: recorded
    allocation variables are added, never removed, and the one header
    that may be added is functional.  Macros, structs, struct functions,
    global variables and the iomanip flag stay as the catalog set
    them. *)
Theorem body_rewriter_keeps_catalog :
  (forall body self cpp_body self',
     _process_function_body body self = Ok (cpp_body, self') ->
     rewriter_step self self') /\
  (forall c self lines self',
     _translate_functions c self = Ok (lines, self') -> rewriter_step self self') /\
  (forall c self lines self',
     _translate_main_function c self = Ok (lines, self') -> rewriter_step self self').
Proof.
  split; [exact process_function_body_step |].
  split; [exact translate_functions_step | exact translate_main_function_step].
Qed.

Lemma for_each_total {A B} (f : B -> A -> M B) :
  (forall b a s, exists b' s', f b a s = Ok (b', s')) ->
  forall l b s, exists b' s', for_each l f b s = Ok (b', s').
Proof.
  intros Hf. induction l as [| a l IH]; intros b s; cbn [for_each].
  - now exists b, s.
  - unfold bind. destruct (Hf b a s) as (b1 & s1 & ->). apply IH.
Qed.

Lemma allocation_pass_ok body self :
  exists b self', allocation_pass body self = Ok (b, self').
Proof.
  unfold allocation_pass.
  destruct (for_each_total replace_array_malloc) with
    (l := Re.findall malloc_pattern body) (b := body) (s := self) as (b1 & s1 & E1).
  { intros b m s. unfold replace_array_malloc, bind, modify, ret.
    eexists _, _. reflexivity. }
  unfold bind at 1. rewrite E1.
  destruct (for_each_total replace_single_malloc) with
    (l := Re.findall single_malloc_pattern b1) (b := b1) (s := s1) as (b2 & s2 & E2).
  { intros b m s. unfold replace_single_malloc, bind, modify, ret.
    eexists _, _. reflexivity. }
  unfold bind at 1. rewrite E2. eexists _, _. reflexivity.
Qed.


(** ** Texts without backslash *)

Lemma clean_app a b : clean (a +:+ b) = clean a && clean b.
Proof.
  unfold clean. induction a as [| x a IH]; [reflexivity |].
  rewrite append_cons. cbn [all_chars]. now rewrite IH, andb_assoc.
Qed.

Lemma clean_app_intro a b : clean a = true -> clean b = true -> clean (a +:+ b) = true.
Proof. intros Ha Hb. now rewrite clean_app, Ha, Hb. Qed.

Lemma clean_cons x s :
  clean (String x s) = negb (Ascii.eqb x Chr.backslash) && clean s.
Proof. reflexivity. Qed.

Lemma clean_take n s : clean s = true -> clean (take n s) = true.
Proof.
  revert n. induction s as [| x s IH]; intros [| n]; try reflexivity.
  cbn [take]. rewrite !clean_cons. intros H. apply andb_true_iff in H as [-> H].
  now rewrite IH.
Qed.

Lemma clean_drop n s : clean s = true -> clean (drop n s) = true.
Proof.
  revert n. induction s as [| x s IH]; intros [| n] H; cbn [drop]; try exact H.
  rewrite clean_cons in H. apply andb_true_iff in H as [_ H]. now apply IH.
Qed.

Lemma clean_slice s a b : clean s = true -> clean (slice s a b) = true.
Proof. intros H. unfold slice. now apply clean_take, clean_drop. Qed.

Lemma clean_drop_last n s : clean s = true -> clean (drop_last n s) = true.
Proof. intros H. unfold drop_last. now apply clean_take. Qed.

Lemma clean_replace_from old new s :
  clean s = true -> clean new = true ->
  forall skip, clean (replace_from old new skip s) = true.
Proof.
  intros Hs Hn. induction s as [| x s IH]; intros skip; [reflexivity |].
  rewrite clean_cons in Hs. apply andb_true_iff in Hs as [Hx Hs].
  cbn [replace_from]. destruct skip as [| k]; [| now apply IH].
  destruct (startswith (String x s) old).
  - apply clean_app_intro; [exact Hn | now apply IH].
  - rewrite clean_cons, Hx. now apply IH.
Qed.

Lemma clean_intersperse new s :
  clean s = true -> clean new = true -> clean (intersperse new s) = true.
Proof.
  intros Hs Hn. induction s as [| x s IH]; [exact Hn |].
  rewrite clean_cons in Hs. apply andb_true_iff in Hs as [Hx Hs].
  cbn [intersperse]. apply clean_app_intro; [exact Hn |].
  rewrite clean_cons, Hx. now apply IH.
Qed.

Lemma clean_replace s old new :
  clean s = true -> clean new = true -> clean (replace s old new) = true.
Proof.
  intros Hs Hn. unfold replace. destruct old.
  - now apply clean_intersperse.
  - now apply clean_replace_from.
Qed.

Lemma clean_lstrip s : clean s = true -> clean (lstrip s) = true.
Proof.
  induction s as [| x s IH]; [reflexivity |]. intros H. cbn [lstrip].
  destruct (Chr.isspace x); [| exact H].
  rewrite clean_cons in H. apply andb_true_iff in H as [_ H]. now apply IH.
Qed.

Lemma clean_rstrip s : clean s = true -> clean (rstrip s) = true.
Proof.
  induction s as [| x s IH]; [reflexivity |]. intros H.
  rewrite clean_cons in H. apply andb_true_iff in H as [Hx H].
  specialize (IH H). cbn [rstrip]. destruct (rstrip s) as [| y r].
  - destruct (Chr.isspace x); [reflexivity |]. now rewrite clean_cons, Hx.
  - now rewrite clean_cons, Hx.
Qed.

Lemma clean_strip s : clean s = true -> clean (strip s) = true.
Proof. intros H. unfold strip. now apply clean_rstrip, clean_lstrip. Qed.


Lemma clean_split_from sep s :
  clean s = true -> forall skip, all_clean (split_from sep skip s).
Proof.
  unfold all_clean.
  induction s as [| x s IH]; intros H skip; [repeat constructor |].
  rewrite clean_cons in H. apply andb_true_iff in H as [Hx H].
  cbn [split_from]. destruct skip as [| k]; [| now apply IH].
  destruct (startswith (String x s) sep).
  - constructor; [reflexivity | now apply IH].
  - specialize (IH H 0). destruct (split_from sep 0 s) as [| h r].
    + repeat constructor. now rewrite clean_cons, Hx.
    + inversion IH; subst. constructor; [| assumption].
      now rewrite clean_cons, Hx.
Qed.

Lemma clean_split s sep : clean s = true -> all_clean (split s sep).
Proof. intros H. now apply clean_split_from. Qed.

Lemma all_clean_map f l :
  (forall s, clean s = true -> clean (f s) = true) ->
  all_clean l -> all_clean (map f l).
Proof.
  intros Hf H. induction H; constructor; auto.
Qed.

Lemma all_clean_filter p l : all_clean l -> all_clean (List.filter p l).
Proof.
  intros H. induction H; simpl; [constructor |].
  destruct (p x); [constructor |]; assumption.
Qed.

Lemma clean_join sep l :
  clean sep = true -> all_clean l -> clean (join sep l) = true.
Proof.
  intros Hs H. induction H as [| x l Hx Hl IH]; [reflexivity |].
  destruct l as [| y l]; [exact Hx |].
  rewrite join_cons. now repeat apply clean_app_intro.
Qed.

Lemma clean_concat l : all_clean l -> clean (String.concat EmptyString l) = true.
Proof.
  intros H. induction H as [| x l Hx Hl IH]; [reflexivity |].
  cbn [String.concat]. destruct l as [| y l]; [exact Hx |].
  apply clean_app_intro; [exact Hx |]. now apply clean_app_intro.
Qed.

(** A text without backslash does not contain one. *)
Lemma clean_no_backslash s : clean s = true -> contains bs s = false.
Proof.
  unfold contains. intros H.
  assert (G : forall i, find_at bs s i = None).
  { induction s as [| x s IH]; intros i; cbn [find_at]; [reflexivity |].
    rewrite clean_cons in H. apply andb_true_iff in H as [Hx H].
    unfold bs, str1. cbn [startswith].
    rewrite Ascii.eqb_sym. apply negb_true_iff in Hx. rewrite Hx. cbn [andb].
    now apply IH. }
  now rewrite G.
Qed.


Lemma clean_g i m : all_clean m -> clean (g i m) = true.
Proof.
  intros H. unfold g. revert i.
  induction H as [| x l Hx Hl IH]; intros [| i]; simpl; auto.
Qed.

Lemma clean_group subject m n :
  clean subject = true -> clean (Re.or_empty (Re.group subject m n)) = true.
Proof.
  intros H. unfold Re.group.
  destruct (Re.span_of n (Re.m_caps m)) as [[a b] |]; [| reflexivity].
  now apply clean_slice.
Qed.

Lemma clean_group0 subject m :
  clean subject = true -> clean (Re.group0 subject m) = true.
Proof. intros H. now apply clean_slice. Qed.

Lemma clean_findall r subject :
  clean subject = true -> List.Forall all_clean (Re.findall r subject).
Proof.
  intros H. unfold Re.findall. apply List.Forall_forall. intros row Hin.
  apply in_map_iff in Hin as (m & <- & _). destruct (Re.groups r) as [| n].
  - repeat constructor. now apply clean_group0.
  - unfold Re.mgroups. rewrite map_map. generalize (List.seq 1 (Re.groups r)) as l. intros l.
    induction l as [| i l IH]; constructor; [now apply clean_group | exact IH].
Qed.

Lemma clean_re_split r subject :
  clean subject = true -> all_clean (Re.split r subject).
Proof.
  intros H. unfold Re.split. generalize 0 as from, (Re.finditer r subject) as ms.
  intros from ms. revert from.
  induction ms as [| m ms IH]; intros from; cbn [Re.split_go].
  - repeat constructor. now apply clean_drop.
  - constructor; [now apply clean_slice |].
    constructor; [now apply clean_group | apply IH].
Qed.

Lemma clean_expand repl subject m :
  clean repl = true ->
  clean (Re.expand (map Re.TChar (list_ascii_of_string repl)) subject m) = true.
Proof.
  induction repl as [| x repl IH]; [reflexivity |]. intros H.
  rewrite clean_cons in H. apply andb_true_iff in H as [Hx H].
  cbn [list_ascii_of_string map Re.expand]. rewrite clean_cons, Hx. now apply IH.
Qed.

(** [re.sub] with a replacement without backslash does not raise, and
    keeps a subject without backslash so. *)
Lemma clean_sub r repl subject count :
  clean repl = true ->
  exists out, Re.sub r repl subject count = Ok out
              /\ (clean subject = true -> clean out = true).
Proof.
  intros Hr. unfold Re.sub, Re.template_of.
  rewrite (clean_no_backslash _ Hr). cbn [result_bind].
  eexists. split; [reflexivity |]. intros Hs.
  generalize 0 as from.
  generalize (match count with
              | 0 => Re.finditer r subject
              | S _ => firstn count (Re.finditer r subject)
              end) as ms.
  intros ms.
  induction ms as [| m ms IH]; intros from; cbn [Re.sub_go].
  - now apply clean_drop.
  - apply clean_app_intro; [now apply clean_slice |].
    apply clean_app_intro; [now apply clean_expand | apply IH].
Qed.

Ltac clean_tac :=
  repeat first
    [ assumption
    | reflexivity
    | apply clean_app_intro
    | apply clean_replace
    | apply clean_g
    | apply clean_strip
    | apply clean_group
    | apply clean_group0
    | apply clean_slice
    | apply clean_drop
    | apply clean_drop_last ].

(** ** The rewriter on texts without backslash *)

Lemma for_each_inv {A B} (Q : A -> Prop) (R : B -> Prop) (P : Translator -> Prop)
    (f : B -> A -> M B) (l : list A) :
  (forall b a s, R b -> Q a -> P s ->
     exists b' s', f b a s = Ok (b', s') /\ R b' /\ P s') ->
  List.Forall Q l ->
  forall b s, R b -> P s ->
    exists b' s', for_each l f b s = Ok (b', s') /\ R b' /\ P s'.
Proof.
  intros Hf Hl. induction Hl as [| a l Ha Hl IH]; intros b s Hb Hs; cbn [for_each].
  - exists b, s. now repeat split.
  - unfold bind. destruct (Hf b a s Hb Ha Hs) as (b1 & s1 & -> & Hb1 & Hs1).
    now apply IH.
Qed.

Lemma add_malloc_variable_clean v self :
  clean v = true -> clean_vars self -> clean_vars (add_malloc_variable v self).
Proof.
  intros Hv Hs x Hx. unfold add_malloc_variable in Hx. cbn in Hx.
  apply elem_of_union in Hx as [Hx | Hx]; [| now apply Hs].
  apply elem_of_singleton in Hx. now subst.
Qed.

Lemma replace_free_clean vars b :
  (forall v, v ∈ vars -> clean v = true) -> clean b = true ->
  clean (fold_left replace_free vars b) = true.
Proof.
  revert b. induction vars as [| v vars IH]; intros b Hv Hb; [exact Hb |].
  cbn [fold_left]. apply IH.
  - intros x Hx. apply Hv. now right.
  - assert (Hc : clean v = true) by (apply Hv; now left).
    unfold replace_free.
    destruct (contains (v +:+ " = new ") b && contains (v +:+ "[") b); clean_tac.
Qed.

Lemma allocation_pass_clean body self :
  clean body = true -> clean_vars self ->
  exists b self', allocation_pass body self = Ok (b, self')
                  /\ clean b = true /\ clean_vars self'.
Proof.
  intros Hb Hs. unfold allocation_pass.
  destruct (for_each_inv all_clean (fun b => clean b = true) clean_vars
              replace_array_malloc (Re.findall malloc_pattern body))
    with (b := body) (s := self) as (b1 & s1 & E1 & Hb1 & Hs1); auto.
  { intros b m s Hcb Hm Hcs. unfold replace_array_malloc, bind, modify, ret.
    eexists _, _. split; [reflexivity |]. split.
    - clean_tac.
    - apply add_malloc_variable_clean; [now apply clean_g | exact Hcs]. }
  { now apply clean_findall. }
  destruct (for_each_inv all_clean (fun b => clean b = true) clean_vars
              replace_single_malloc (Re.findall single_malloc_pattern b1))
    with (b := b1) (s := s1) as (b2 & s2 & E2 & Hb2 & Hs2); auto.
  { intros b m s Hcb Hm Hcs. unfold replace_single_malloc, bind, modify, ret.
    eexists _, _. split; [reflexivity |]. split.
    - clean_tac.
    - apply add_malloc_variable_clean; [now apply clean_g | exact Hcs]. }
  { now apply clean_findall. }
  unfold bind at 1. rewrite E1. unfold bind at 1. rewrite E2.
  unfold bind, get, ret. eexists _, _. split; [reflexivity |]. split; [| exact Hs2].
  apply replace_free_clean; [| exact Hb2].
  intros v Hv. apply Hs2. now apply elem_of_elements in Hv.
Qed.

Lemma nth_error_clean l i x :
  all_clean l -> nth_error l i = Some x -> clean x = true.
Proof.
  intros Hl. revert i. induction Hl as [| y l Hy Hl IH]; intros [| i]; simpl;
    try discriminate.
  - now intros [= <-].
  - apply IH.
Qed.

Lemma printf_part_clean arg_list st part :
  all_clean arg_list -> clean part = true -> clean (fst st) = true ->
  clean (fst (printf_part arg_list st part)) = true.
Proof.
  intros Ha Hp Hs. destruct st as [cout_expr arg_idx]. cbn [fst] in Hs.
  unfold printf_part.
  destruct (Re.rmatch fp_precision_pattern part) as [fp |].
  - destruct (nth_error arg_list arg_idx) as [arg |] eqn:E; [| exact Hs].
    pose proof (nth_error_clean _ _ _ Ha E). cbn [fst]. clean_tac.
  - destruct (Re.rmatch specifier_pattern part) as [sp |].
    + destruct (nth_error arg_list arg_idx) as [arg |] eqn:E; [| exact Hs].
      pose proof (nth_error_clean _ _ _ Ha E). cbn [fst]. clean_tac.
    + cbn [fst]. clean_tac.
Qed.

Lemma split_strip_clean args : clean args = true -> all_clean (map strip (split args ",")).
Proof.
  intros H. apply all_clean_map; [apply clean_strip | now apply clean_split].
Qed.

Lemma cout_with_args_clean format_str args :
  clean format_str = true -> clean args = true ->
  clean (cout_with_args format_str args) = true.
Proof.
  intros Hf Ha. unfold cout_with_args.
  set (parts := List.filter _ _).
  assert (Hp : all_clean parts) by (apply all_clean_filter; now apply clean_re_split).
  assert (Hc : forall st, clean (fst st) = true ->
               clean (fst (fold_left (printf_part (map strip (split args ","))) parts st))
               = true).
  { clearbody parts. induction Hp as [| p parts Hp Hps IH]; intros st Hst; [exact Hst |].
    cbn [fold_left]. apply IH. apply printf_part_clean; auto using split_strip_clean. }
  specialize (Hc ("cout << ", 0) eq_refl).
  destruct (endswith format_str _); clean_tac.
Qed.

Lemma cout_without_args_clean format_str :
  clean format_str = true -> clean (cout_without_args format_str) = true.
Proof.
  intros Hf. unfold cout_without_args. destruct (endswith format_str _); clean_tac.
Qed.

Lemma printf_pass_clean body : clean body = true -> clean (printf_pass body) = true.
Proof.
  intros Hb. unfold printf_pass.
  assert (G : forall ms b, clean b = true ->
              clean (fold_left (replace_printf body) ms b) = true).
  { induction ms as [| m ms IH]; intros b Hc; [exact Hc |].
    cbn [fold_left]. apply IH. unfold replace_printf.
    pose proof (clean_group body m 2 Hb) as H2.
    destruct (Re.group body m 2) as [[| c a] |];
      apply clean_replace; auto using cout_without_args_clean, clean_group.
    apply cout_with_args_clean; [now apply clean_group | exact H2]. }
  now apply G.
Qed.

Lemma cin_statement_clean arg : clean arg = true -> clean (cin_statement arg) = true.
Proof.
  intros H. unfold cin_statement. destruct (startswith arg "&"); clean_tac.
Qed.

Lemma scanf_pass_clean body : clean body = true -> clean (scanf_pass body) = true.
Proof.
  intros Hb. unfold scanf_pass.
  assert (G : forall ms, List.Forall all_clean ms -> forall b, clean b = true ->
              clean (fold_left replace_scanf ms b) = true).
  { induction 1 as [| m ms Hm Hms IH]; intros b Hc; [exact Hc |].
    cbn [fold_left]. apply IH. unfold replace_scanf. apply clean_replace; [exact Hc |].
    apply clean_concat. apply all_clean_map; [apply cin_statement_clean |].
    apply split_strip_clean. now apply clean_g. }
  apply G; [now apply clean_findall | exact Hb].
Qed.

Lemma math_functions_clean : all_clean math_functions.
Proof. repeat constructor. Qed.

(** The math stage and the swap stage never raise: their replacement
    texts are fixed and hold no backslash. *)
Lemma math_pass_clean body self :
  exists b, math_pass body self = Ok (b, self)
            /\ (clean body = true -> clean b = true).
Proof.
  unfold math_pass, bind, get.
  destruct (bool_decide ("math.h" ∈ includes self)); [| now exists body].
  destruct (for_each_inv (fun f => clean f = true)
              (fun b => clean body = true -> clean b = true)
              (fun s => s = self) replace_math_call math_functions)
    with (b := body) (s := self) as (b1 & s1 & E1 & Hb1 & ->); auto.
  - intros b func s Hcb Hf ->. unfold replace_math_call.
    destruct (Re.search _ b); [| now exists b, self].
    destruct (clean_sub (Re.compile ("\b" +:+ func +:+ "\("))
                ("std::" +:+ func +:+ "(") b 0) as (out & E & Ho);
      [clean_tac |].
    unfold lift. rewrite E. exists out, self. auto.
  - apply math_functions_clean.
  - now exists b1.
Qed.

Lemma swap_pass_clean body self :
  exists b, swap_pass body self = Ok (b, self)
            /\ (clean body = true -> clean b = true).
Proof.
  unfold swap_pass.
  destruct (Re.search swap_pattern body) as [sm |]; [| now exists body].
  destruct (Re.search swap_impl_pattern body) as [im |]; [| now exists body].
  destruct (_ && _); [| now exists body].
  destruct (clean_sub swap_impl_pattern swap_replacement body 0) as (out & E & Ho);
    [reflexivity |].
  unfold lift. rewrite E. now exists out.
Qed.

Lemma require_functional_vars self :
  malloc_variables (require_functional self) = malloc_variables self.
Proof. unfold require_functional. now destruct (existsb _ _). Qed.

Lemma function_pointer_pass_clean body self :
  clean body = true -> clean_vars self ->
  exists b self', function_pointer_pass body self = Ok (b, self')
                  /\ clean b = true /\ clean_vars self'.
Proof.
  intros Hb Hs. unfold function_pointer_pass.
  apply (for_each_inv all_clean (fun b => clean b = true) clean_vars); auto.
  - intros b m s Hcb Hm Hcs. unfold replace_func_ptr.
    set (repl := "function<" +:+ _).
    assert (Hr : clean repl = true).
    { subst repl. clean_tac. apply clean_join; [reflexivity |].
      destruct (nonempty (strip (g 2 m))); [| constructor].
      apply all_clean_filter, split_strip_clean. now apply clean_g. }
    destruct (clean_sub func_ptr_pattern repl b 1 Hr) as (out & E & Ho).
    unfold bind, lift, modify, ret. rewrite E.
    eexists _, _. split; [reflexivity |]. split; [now apply Ho |].
    intros v Hv. rewrite require_functional_vars in Hv. now apply Hcs.
  - now apply clean_findall.
Qed.

Lemma process_function_body_clean body self :
  clean body = true -> clean_vars self ->
  exists b self', _process_function_body body self = Ok (b, self')
                  /\ clean b = true /\ clean_vars self'.
Proof.
  intros Hb Hs. unfold _process_function_body.
  destruct (allocation_pass_clean body self Hb Hs) as (b1 & s1 & E1 & Hb1 & Hs1).
  unfold bind at 1. rewrite E1.
  destruct (math_pass_clean (scanf_pass (printf_pass b1)) s1) as (b2 & E2 & Hb2).
  assert (Hc2 : clean b2 = true)
    by now apply Hb2, scanf_pass_clean, printf_pass_clean.
  unfold bind at 1. rewrite E2.
  destruct (swap_pass_clean b2 s1) as (b3 & E3 & Hb3).
  specialize (Hb3 Hc2).
  unfold bind at 1. rewrite E3.
  destruct (function_pointer_pass_clean b3 s1 Hb3 Hs1) as (b4 & s4 & E4 & Hb4 & Hs4).
  unfold bind, ret. rewrite E4. now exists b4, s4.
Qed.

(** ** Parameters and free functions *)

Lemma split_ws_go_nil cur s :
  split_ws_go cur s = [] -> cur = EmptyString /\ all_chars Chr.isspace s = true.
Proof.
  revert cur. induction s as [| x s IH]; intros cur; cbn [split_ws_go all_chars].
  - destruct cur; [auto | discriminate].
  - destruct (Chr.isspace x).
    + destruct cur; [| discriminate]. intros H. apply IH in H as [_ H]. auto.
    + intros H. apply IH in H as [H _]. discriminate.
Qed.

Lemma find_at_not_space c sub s i n :
  find_at (String c sub) s i = Some n -> Chr.isspace c = false ->
  all_chars Chr.isspace s = false.
Proof.
  intros H Hc. revert i H. induction s as [| x s IH]; intros i; cbn [find_at startswith].
  - discriminate.
  - destruct (Ascii.eqb c x) eqn:E.
    + apply Ascii.eqb_eq in E as <-. intros _. cbn [all_chars]. now rewrite Hc.
    + cbn [andb]. intros H. cbn [all_chars]. rewrite (IH _ H). apply andb_false_r.
Qed.

(** The index [-1] of [param.split()] is always there: a parameter that
    holds [char*] holds a word. *)
Lemma cpp_param_ok param s : exists p, cpp_param param s = Ok (p, s).
Proof.
  unfold cpp_param.
  destruct (contains "char *" param || contains "char*" param) eqn:E;
    [| eexists; reflexivity].
  unfold bind, last_item.
  destruct (rev (split_ws param)) as [| word ws] eqn:R; [| eexists; reflexivity].
  exfalso.
  assert (H : split_ws param = []).
  { rewrite <- (List.rev_involutive (split_ws param)), R. reflexivity. }
  apply split_ws_go_nil in H as [_ H].
  apply orb_true_iff in E as [E | E]; unfold contains in E.
  - destruct (find_at "char *" param 0) as [n |] eqn:F; [| discriminate].
    apply find_at_not_space in F; [congruence | reflexivity].
  - destruct (find_at "char*" param 0) as [n |] eqn:F; [| discriminate].
    apply find_at_not_space in F; [congruence | reflexivity].
Qed.

Lemma cpp_params_ok l acc s :
  exists ps,
    for_each l (fun acc param => (let* p := cpp_param param in ret (acc ++ [p]))%py)
             acc s = Ok (ps, s).
Proof.
  revert acc. induction l as [| param l IH]; intros acc; cbn [for_each].
  - now exists acc.
  - unfold bind at 1. unfold bind at 1.
    destruct (cpp_param_ok param s) as (p & ->). unfold ret at 1. apply IH.
Qed.

Lemma translate_function_ok acc m s :
  all_clean m -> clean_vars s ->
  exists lines s', translate_function acc m s = Ok (lines, s') /\ clean_vars s'.
Proof.
  intros Hm Hs. unfold translate_function. unfold bind at 1. unfold get.
  destruct (String.eqb (g 1 m) "main"); [now exists acc, s |].
  destruct (is_struct_func s (g 2 m)); [now exists acc, s |].
  unfold bind at 1.
  destruct (cpp_params_ok (List.filter nonempty (map strip (split (g 2 m) ","))) [] s)
    as (ps & ->).
  unfold bind at 1.
  destruct (process_function_body_clean (g 3 m) s) as (b & s' & -> & _ & Hs');
    [now apply clean_g | exact Hs |].
  unfold ret. eexists _, _. split; [reflexivity | exact Hs'].
Qed.

Lemma translate_functions_ok c s :
  clean c = true -> clean_vars s ->
  exists lines s', _translate_functions c s = Ok (lines, s') /\ clean_vars s'.
Proof.
  intros Hc Hs. unfold _translate_functions.
  destruct (for_each_inv all_clean (fun _ : list string => True) clean_vars
              translate_function (Re.findall func_pattern c))
    with (b := @nil string) (s := s) as (lines & s' & E & _ & Hs'); auto.
  - intros b m s0 _ Hm Hs0.
    destruct (translate_function_ok b m s0 Hm Hs0) as (l & s1 & E & H1).
    now exists l, s1.
  - now apply clean_findall.
  - now exists lines, s'.
Qed.

Lemma translate_main_function_ok c s :
  clean c = true -> clean_vars s ->
  exists lines s', _translate_main_function c s = Ok (lines, s').
Proof.
  intros Hc Hs. unfold _translate_main_function.
  destruct (locate_main c) as [[open_brace_pos close_brace_pos] |];
    [| eexists _, _; reflexivity].
  unfold bind.
  destruct (process_function_body_clean
              (slice c (S open_brace_pos) close_brace_pos) s) as (b & s' & -> & _);
    [now apply clean_slice | exact Hs |].
  eexists _, _. reflexivity.
Qed.

Lemma malloc_variables_catalog c self :
  malloc_variables (catalog c self) = malloc_variables self.
Proof.
  unfold catalog.
  assert (H1 : forall s, malloc_variables (identify_struct_functions c s)
                         = malloc_variables s).
  { intros s. unfold identify_struct_functions. apply fold_left_preserves.
    intros s' x. now apply fold_left_preserves. }
  assert (H2 : forall s, malloc_variables (identify_structs c s) = malloc_variables s).
  { intros s. unfold identify_structs. now apply fold_left_preserves. }
  assert (H3 : forall s, malloc_variables (identify_defines c s) = malloc_variables s).
  { intros s. unfold identify_defines. now apply fold_left_preserves. }
  assert (H4 : forall s, malloc_variables (identify_includes c s) = malloc_variables s).
  { intros s. unfold identify_includes. now destruct (Re.search precision_pattern c). }
  assert (H5 : forall s, malloc_variables (identify_global_variables c s)
                         = malloc_variables s).
  { intros s. reflexivity. }
  assert (H6 : forall gv s, malloc_variables (set_global_variables gv s)
                            = malloc_variables s) by reflexivity.
  rewrite H1, H2. destruct (_is_simple_program c); now rewrite ?H5, ?H6, H3, H4.
Qed.

(** X11.  An input without backslash is always translated: no stage of
    the rewriter raises, for the free functions and for main. *)
Theorem no_backslash_no_exception c :
  clean c = true -> exists out, translate c = Ok out.
Proof.
  intros Hc. rewrite translate_unfold.
  assert (H0 : clean_vars (catalog c init)).
  { intros v Hv. rewrite malloc_variables_catalog in Hv. cbn in Hv.
    now apply elem_of_empty in Hv. }
  destruct (translate_functions_ok c _ Hc H0) as (fs & s1 & -> & H1).
  destruct (translate_main_function_ok c s1 Hc H1) as (mn & s2 & ->).
  eexists. reflexivity.
Qed.

Lemma simple_program_witness :
  _is_simple_program simple_input = true /\
  (length (Re.findall main_count_pattern simple_input) = 1 /\
   Forall (fun f => g 1 f = "main") (Re.findall other_funcs_pattern simple_input) /\
   _translate_global_variables (catalog simple_input init) = []).
Proof.
  split; [vm_compute; reflexivity |].
  apply (simple_program_has_no_globals simple_input). vm_compute. reflexivity.
Defined.

Lemma no_backslash_witness :
  clean function_pointer_input = true /\
  exists out, translate function_pointer_input = Ok out.
Proof.
  split; [vm_compute; reflexivity |].
  apply (no_backslash_no_exception function_pointer_input). vm_compute. reflexivity.
Defined.


(** X12.  The stages before the function pointers never raise, whatever
    the body, and the math stage and the swap stage leave [self] as it
    is; the rewriter returns what the function-pointer stage makes of
    their result. *)
Theorem only_function_pointers_can_raise body self :
  exists b1 self1 b2 b3,
    allocation_pass body self = Ok (b1, self1) /\
    math_pass (scanf_pass (printf_pass b1)) self1 = Ok (b2, self1) /\
    swap_pass b2 self1 = Ok (b3, self1) /\
    _process_function_body body self = function_pointer_pass b3 self1.
Proof.
  destruct (allocation_pass_ok body self) as (b1 & s1 & E1).
  destruct (math_pass_clean (scanf_pass (printf_pass b1)) s1) as (b2 & E2 & _).
  destruct (swap_pass_clean b2 s1) as (b3 & E3 & _).
  exists b1, s1, b2, b3. repeat split; try assumption.
  unfold _process_function_body.
  unfold bind at 1. rewrite E1. unfold bind at 1. rewrite E2.
  unfold bind at 1. rewrite E3. unfold bind, ret.
  destruct (function_pointer_pass b3 s1) as [[b4 s4] | e]; reflexivity.
Qed.

Lemma iostream_sources h :
  cpp_header h = "iostream" -> h = "stdio.h" \/ h = "iostream".
Proof.
  unfold cpp_header. destruct (dict_get h c_to_cpp_headers) as [v |] eqn:E.
  - intros ->. apply dict_get_In in E. left.
    unfold c_to_cpp_headers in E. cbn [In] in E.
    repeat (destruct E as [E | E]; [congruence |]). destruct E.
  - auto.
Qed.

(** X4.  The line that includes iostream is emitted exactly when the
    input includes stdio.h or iostream itself: the stream statements the
    rewriter writes do not bring it. *)
Theorem iostream_header_iff c :
  In (include_line "iostream") (_translate_includes (catalog c init))
  <-> In "stdio.h" (included_headers c) \/ In "iostream" (included_headers c).
Proof.
  rewrite translate_includes_In. split.
  - intros [H | [[_ H] | [[_ H] | [H | H]]]].
    + unfold include_line in H. discriminate H.
    + apply include_line_inj in H. discriminate H.
    + apply include_line_inj in H. discriminate H.
    + apply include_line_inj in H. discriminate H.
    + apply loop_line_origin in H as (h & Hh & _ & E).
      apply include_line_inj in E. symmetry in E. apply iostream_sources in E.
      apply list_elem_of_In, elem_of_elements, includes_of_input in Hh.
      destruct E as [-> | ->]; auto.
  - intros H. right. right. right. right. apply in_concat.
    destruct H as [H | H].
    + exists (include_lines "stdio.h"). split; [| now left].
      apply in_map, list_elem_of_In, elem_of_elements, includes_of_input, H.
    + exists (include_lines "iostream"). split; [| now left].
      apply in_map, list_elem_of_In, elem_of_elements, includes_of_input, H.
Qed.

(** ** The command-line program *)

Lemma len_app a b : len (a +:+ b) = len a + len b.
Proof.
  unfold len. induction a as [| x a IH]; [reflexivity |].
  rewrite append_cons. cbn [String.length]. now rewrite IH.
Qed.

Lemma drop_app a b : drop (len a) (a +:+ b) = b.
Proof.
  induction a as [| x a IH]; [now destruct b |].
  rewrite append_cons. exact IH.
Qed.

Lemma startswith_refl p : startswith p p = true.
Proof.
  induction p as [| x p IH]; [reflexivity |].
  cbn [startswith]. now rewrite Ascii.eqb_refl, IH.
Qed.

Lemma endswith_app a p : endswith (a +:+ p) p = true.
Proof.
  unfold endswith. rewrite len_app.
  replace (len a + len p - len p) with (len a) by lia.
  rewrite drop_app, startswith_refl.
  apply andb_true_iff. split; [apply Nat.leb_le; lia | reflexivity].
Qed.

(** A run of the offer to save that writes a file: the two answers,
    the name, and the four events. *)
Lemma save_write writable cpp_code stdin filename content :
  In (Cli.WriteFile filename content) (Cli.save writable cpp_code stdin) ->
  exists save_option answer rest,
    stdin = save_option :: answer :: rest /\
    Cli.lower save_option = "y" /\
    content = cpp_code /\
    filename
    = (let name := if String.eqb answer EmptyString then "output.cpp" else answer in
       if endswith name ".cpp" then name else name +:+ ".cpp") /\
    endswith filename ".cpp" = true /\
    writable filename = true /\
    Cli.save writable cpp_code stdin
    = [ Cli.Prompt (nl +:+ "Do you want to save the C++ code to a file? (y/n): ");
        Cli.Prompt "Enter filename (default: output.cpp): ";
        Cli.WriteFile filename content;
        Cli.Print ("C++ code saved to " +:+ filename) ].
Proof.
  unfold Cli.save. intros [H | H]; [discriminate H |].
  destruct stdin as [| save_option stdin]; [destruct H as [H | []]; discriminate H |].
  destruct (String.eqb (Cli.lower save_option) "y") eqn:Ey; [| destruct H].
  apply String.eqb_eq in Ey.
  destruct H as [H | H]; [discriminate H |].
  destruct stdin as [| answer stdin]; [destruct H as [H | []]; discriminate H |].
  cbv zeta in *.
  set (name := if String.eqb answer EmptyString then "output.cpp" else answer) in *.
  assert (He : endswith (if endswith name ".cpp" then name else name +:+ ".cpp") ".cpp"
               = true).
  { destruct (endswith name ".cpp") eqn:E; [exact E | apply endswith_app]. }
  set (file := if endswith name ".cpp" then name else name +:+ ".cpp") in *.
  destruct (writable file) eqn:W; [| destruct H as [H | []]; discriminate H].
  destruct H as [H | [H | []]]; [| discriminate H].
  injection H as <- <-.
  exists save_option, answer, stdin. repeat split; auto.
Qed.

(** X14.  Whenever the command-line program writes a file, the run is
    the three lines of the banner, a heading, the code, a rule, the two
    prompts, the write and the confirmation, in this order and nothing
    else.  The code written is the code printed under the heading: the
    fixed text when the lines read hold the marker of the table of
    character codes, else the text [translate] returns for them.  The
    answer to the first prompt is y in either case; the name of the file
    is the answer to the second, or output.cpp for an empty answer, with
    .cpp added unless the name ends in it, so it always ends in .cpp. *)
Theorem saved_file_is_the_shown_code writable stdin filename content :
  In (Cli.WriteFile filename content) (Cli.main writable stdin) ->
  exists c_code_lines save_option answer rest heading,
    Cli.read_code stdin [] = (c_code_lines, save_option :: answer :: rest) /\
    (if contains Cli.ascii_marker (join nl c_code_lines)
     then heading = "===== Corrected C++ Code with ASCII Values ====="
          /\ content = Cli.corrected_code
     else heading = "===== Translated C++ Code ====="
          /\ translate (join nl c_code_lines) = Ok content) /\
    Cli.lower save_option = "y" /\
    filename
    = (let name := if String.eqb answer EmptyString then "output.cpp" else answer in
       if endswith name ".cpp" then name else name +:+ ".cpp") /\
    endswith filename ".cpp" = true /\
    writable filename = true /\
    Cli.main writable stdin
    = [ Cli.Print "===== C to C++ Language Translator =====";
        Cli.Print "Enter your C code below. Type 'DONE' on a new line when finished.";
        Cli.Print "==========================================";
        Cli.Print (nl +:+ heading);
        Cli.Print content;
        Cli.Print "===============================";
        Cli.Prompt (nl +:+ "Do you want to save the C++ code to a file? (y/n): ");
        Cli.Prompt "Enter filename (default: output.cpp): ";
        Cli.WriteFile filename content;
        Cli.Print ("C++ code saved to " +:+ filename) ].
Proof.
  unfold Cli.main. intros H. apply in_app_iff in H as [H | H].
  { destruct H as [H | [H | [H | []]]]; discriminate H. }
  destruct (Cli.read_code stdin []) as [c_code_lines left_over].
  cbv zeta in *.
  destruct (contains Cli.ascii_marker (join nl c_code_lines)) eqn:Em.
  - apply in_app_iff in H as [H | H].
    { destruct H as [H | [H | [H | []]]]; discriminate H. }
    apply save_write in H
      as (save_option & answer & rest & -> & Hy & -> & Hn & He & Hw & Hs).
    exists c_code_lines, save_option, answer, rest,
      "===== Corrected C++ Code with ASCII Values =====".
    rewrite Hs, Em.
    split; [reflexivity |]. split; [split; reflexivity |].
    split; [exact Hy |]. split; [exact Hn |]. split; [exact He |].
    split; [exact Hw |]. reflexivity.
  - destruct (translate (join nl c_code_lines)) as [cpp_code | e] eqn:Et.
    + apply in_app_iff in H as [H | H].
      { destruct H as [H | [H | [H | []]]]; discriminate H. }
      apply save_write in H
        as (save_option & answer & rest & -> & Hy & -> & Hn & He & Hw & Hs).
      exists c_code_lines, save_option, answer, rest,
        "===== Translated C++ Code =====".
      rewrite Hs, Em.
      split; [reflexivity |]. split; [split; [reflexivity | exact Et] |].
      split; [exact Hy |]. split; [exact Hn |]. split; [exact He |].
      split; [exact Hw |]. reflexivity.
    + destruct H as [H | []]. discriminate H.
Qed.

Lemma saved_file_witness :
  In (Cli.WriteFile "prog.cpp" main_void_output)
     (Cli.main (fun _ => true) session_input) /\
  exists c_code_lines save_option answer rest heading,
    Cli.read_code session_input [] = (c_code_lines, save_option :: answer :: rest) /\
    (if contains Cli.ascii_marker (join nl c_code_lines)
     then heading = "===== Corrected C++ Code with ASCII Values ====="
          /\ main_void_output = Cli.corrected_code
     else heading = "===== Translated C++ Code ====="
          /\ translate (join nl c_code_lines) = Ok main_void_output) /\
    Cli.lower save_option = "y" /\
    "prog.cpp"
    = (let name := if String.eqb answer EmptyString then "output.cpp" else answer in
       if endswith name ".cpp" then name else name +:+ ".cpp") /\
    endswith "prog.cpp" ".cpp" = true /\
    (fun _ : string => true) "prog.cpp" = true /\
    Cli.main (fun _ => true) session_input
    = [ Cli.Print "===== C to C++ Language Translator =====";
        Cli.Print "Enter your C code below. Type 'DONE' on a new line when finished.";
        Cli.Print "==========================================";
        Cli.Print (nl +:+ heading);
        Cli.Print main_void_output;
        Cli.Print "===============================";
        Cli.Prompt (nl +:+ "Do you want to save the C++ code to a file? (y/n): ");
        Cli.Prompt "Enter filename (default: output.cpp): ";
        Cli.WriteFile "prog.cpp" main_void_output;
        Cli.Print ("C++ code saved to " +:+ "prog.cpp") ].
Proof.
  assert (H : In (Cli.WriteFile "prog.cpp" main_void_output)
                 (Cli.main (fun _ => true) session_input)).
  { vm_compute. do 8 right. left. reflexivity. }
  split; [exact H |].
  exact (saved_file_is_the_shown_code (fun _ => true) session_input
           "prog.cpp" main_void_output H).
Defined.

Lemma read_code_app pre acc rest :
  List.Forall (fun line => strip line <> "DONE") pre ->
  Cli.read_code (pre ++ rest) acc = Cli.read_code rest (acc ++ pre).
Proof.
  intros H. revert acc. induction H as [| line pre Hl Hp IH]; intros acc.
  - now rewrite List.app_nil_r.
  - cbn [app Cli.read_code]. apply String.eqb_neq in Hl. rewrite Hl.
    rewrite IH. now rewrite <- List.app_assoc.
Qed.

(** X15.  The command-line program takes as the C program the lines
    before the first line that is DONE once stripped of white space, or
    all lines when there is none; the lines after it are left for the
    prompts. *)
Theorem code_is_what_precedes_done pre :
  List.Forall (fun line => strip line <> "DONE") pre ->
  Cli.read_code pre [] = (pre, []) /\
  forall done rest,
    strip done = "DONE" -> Cli.read_code (pre ++ done :: rest) [] = (pre, rest).
Proof.
  intros H. split.
  - rewrite <- (List.app_nil_r pre) at 1. now rewrite read_code_app.
  - intros done rest Hd. rewrite read_code_app by exact H.
    cbn [Cli.read_code app]. now rewrite Hd.
Qed.

Lemma code_read_witness :
  List.Forall (fun line => strip line <> "DONE") [main_void_input] /\
  Cli.read_code session_input [] = ([main_void_input], ["Y"; "prog"]).
Proof.
  assert (H : List.Forall (fun line => strip line <> "DONE") [main_void_input]).
  { repeat constructor. intros E. vm_compute in E. discriminate E. }
  split; [exact H |].
  apply (proj2 (code_is_what_precedes_done [main_void_input] H) "  DONE " ["Y"; "prog"]).
  reflexivity.
Defined.

Lemma body_rewriter_witness :
  exists lines self',
    _translate_main_function function_pointer_input init = Ok (lines, self') /\
    rewriter_step init self'.
Proof.
  eexists _, _. split; [vm_compute; reflexivity |].
  eapply (proj2 (proj2 body_rewriter_keeps_catalog) function_pointer_input init).
  vm_compute. reflexivity.
Defined.
